(** * MaxSAT reductions of [auct_solver.py] and [graph.py]

    A shallow embedding of the two programs of the repository: the
    combinatorial-auction encoder/decoder ([Auction]) and the three
    graph encoders ([Graph.min_vertex_cover], [Graph.max_clique],
    [Graph.max_cut]).  Python integers are [Z], strings are [string],
    lists and tuples are [list]; a Python exception is a [Raise] in the
    [result] monad; the mutable formula object is threaded explicitly. *)

From Stdlib Require Import ZArith List String Ascii Bool Lia Permutation.
From Stdlib Require Import DecimalString.
Import ListNotations.
Open Scope string_scope.
Open Scope Z_scope.
Open Scope list_scope.

(** ** Python exceptions and the error monad *)

Inductive exn : Type :=
| ValueError
| IndexError
| UnboundLocalError
| FileNotFoundError
| Infeasible.

Inductive result (A : Type) : Type :=
| Ok (a : A)
| Raise (e : exn).

Arguments Ok {A} a.
Arguments Raise {A} e.

Definition bind {A B : Type} (m : result A) (k : A -> result B) : result B :=
  match m with
  | Ok a => k a
  | Raise e => Raise e
  end.

Notation "x <- m ;; k" := (bind m (fun x => k))
  (at level 61, m at next level, right associativity).
Notation "' pat <- m ;; k" := (bind m (fun x => match x with pat => k end))
  (at level 61, pat pattern, m at next level, right associativity).

(** [for x in l: s = body(x, s)], stopping at the first exception. *)
Fixpoint for_each {A S : Type} (body : A -> S -> result S) (l : list A) (s : S)
  : result S :=
  match l with
  | [] => Ok s
  | x :: r => s' <- body x s ;; for_each body r s'
  end.

(** ** Python built-ins used by the programs *)

Module Py.

(** [str.isspace] on the ASCII range: tab .. carriage return, the four
    separators 28 .. 31 and the blank. *)
Definition isspace (c : ascii) : bool :=
  let n := nat_of_ascii c in
  ((9 <=? n) && (n <=? 13) || (28 <=? n) && (n <=? 32))%nat.

Fixpoint lstrip (l : list ascii) : list ascii :=
  match l with
  | c :: r => if isspace c then lstrip r else l
  | [] => []
  end.

(** [s.strip()] *)
Definition strip (s : string) : string :=
  string_of_list_ascii
    (rev (lstrip (rev (lstrip (list_ascii_of_string s))))).

(** [s.split()]: the maximal runs of non-blank characters.  [cur] is the
    run being read, most recent character first. *)
Fixpoint split_aux (l : list ascii) (cur : list ascii) : list string :=
  match l with
  | [] =>
      match cur with
      | [] => []
      | _ => [string_of_list_ascii (rev cur)]
      end
  | c :: r =>
      if isspace c then
        match cur with
        | [] => split_aux r []
        | _ => string_of_list_ascii (rev cur) :: split_aux r []
        end
      else split_aux r (c :: cur)
  end.

Definition split (s : string) : list string :=
  split_aux (list_ascii_of_string s) [].

Definition isdigit (c : ascii) : bool :=
  let n := nat_of_ascii c in ((48 <=? n) && (n <=? 57))%nat.

Definition digit (c : ascii) : Z := Z.of_nat (nat_of_ascii c) - 48.

(** The digit part of a decimal literal: digits, with single underscores
    allowed between two digits.  [after_digit] tells whether the previous
    character was a digit. *)
Fixpoint digits (s : string) (acc : Z) (after_digit : bool) : result Z :=
  match s with
  | EmptyString => if after_digit then Ok acc else Raise ValueError
  | String c r =>
      if isdigit c then digits r (10 * acc + digit c) true
      else if Ascii.eqb c "_" && after_digit then digits r acc false
      else Raise ValueError
  end.

(** [int(s)] for a token [s] (no blanks inside, ASCII): an optional sign
    followed by the digits; anything else raises [ValueError]. *)
Definition int (s : string) : result Z :=
  match s with
  | String "-" r => n <- digits r 0 false ;; Ok (- n)
  | String "+" r => digits r 0 false
  | _ => digits s 0 false
  end.

(** [str(n)] for an integer. *)
Definition str (n : Z) : string := NilZero.string_of_int (Z.to_int n).

(** [l[i]] with Python's negative indices. *)
Definition item {A : Type} (l : list A) (i : Z) : result A :=
  let len := Z.of_nat (List.length l) in
  let j := if i <? 0 then i + len else i in
  if (j <? 0) || (len <=? j) then Raise IndexError
  else
    match nth_error l (Z.to_nat j) with
    | Some x => Ok x
    | None => Raise IndexError
    end.

(** [l[i:j]] for [0 <= i] and [0 <= j]. *)
Definition slice {A : Type} (l : list A) (i j : nat) : list A :=
  skipn i (firstn j l).

(** [l.index(x)]: position of the first element equal to [x]. *)
Fixpoint index {A : Type} (eqb : A -> A -> bool) (l : list A) (x : A)
  : result Z :=
  match l with
  | [] => Raise ValueError
  | y :: r => if eqb y x then Ok 0 else i <- index eqb r x ;; Ok (i + 1)
  end.

(** [range(n)] and [range(a, b)] *)
Definition range (a b : Z) : list Z :=
  map (fun k => a + Z.of_nat k) (seq 0 (Z.to_nat (b - a))).

(** [x in l] *)
Definition mem {A : Type} (eqb : A -> A -> bool) (x : A) (l : list A) : bool :=
  existsb (eqb x) l.

(** [s.add(x)] on a set kept as a duplicate-free list. *)
Definition set_add {A : Type} (eqb : A -> A -> bool) (x : A) (s : list A)
  : list A :=
  if mem eqb x s then s else s ++ [x].

Fixpoint update {A : Type} (l : list A) (i : nat) (v : A) : list A :=
  match l, i with
  | [], _ => []
  | _ :: r, O => v :: r
  | x :: r, S i' => x :: update r i' v
  end.

(** [l[i] = v], with Python's negative indices. *)
Definition setitem {A : Type} (l : list A) (i : Z) (v : A) : result (list A) :=
  let len := Z.of_nat (List.length l) in
  let j := if i <? 0 then i + len else i in
  if (j <? 0) || (len <=? j) then Raise IndexError
  else Ok (update l (Z.to_nat j) v).

Definition list_eqb {A : Type} (eqb : A -> A -> bool) : list A -> list A -> bool :=
  fix go (l1 l2 : list A) : bool :=
    match l1, l2 with
    | [], [] => true
    | x :: r1, y :: r2 => eqb x y && go r1 r2
    | _, _ => false
    end.

End Py.

(** ** The weighted CNF formula and the solver port *)

(** Modelled from the spec: the class [wcnf.WCNFFormula] is imported by
    both programs but is not among the sources.  A formula holds the
    number of allocated variables, the hard clauses and the soft clauses
    with their weights, in insertion order. *)
Record WCNFFormula : Type := mkFormula {
  num_vars : Z;
  hard : list (list Z);
  soft : list (list Z * Z)
}.

(** [wcnf.WCNFFormula()] *)
Definition new_formula : WCNFFormula := mkFormula 0 [] [].

(** A solution is the pair [(opt, model)] returned by [solver.solve]. *)
Definition solution : Type := (Z * list Z)%type.

(** The external solver, [msat_runner.MaxSATRunner.solve]. *)
Definition Solver : Type := WCNFFormula -> result solution.

Definition clause_eqb : list Z -> list Z -> bool := Py.list_eqb Z.eqb.

Definition good_eqb (a b : string * Z) : bool :=
  String.eqb (fst a) (fst b) && (snd a =? snd b).

Definition bid_eqb : list string -> list string -> bool :=
  Py.list_eqb String.eqb.

(** Semantics of a formula under a model given as a list of signed
    literals: a literal holds when it occurs in the model. *)
Definition lit_true (model : list Z) (l : Z) : bool := Py.mem Z.eqb l model.

Definition clause_sat (model : list Z) (c : list Z) : bool :=
  existsb (lit_true model) c.

Definition sat_hard (model : list Z) (f : WCNFFormula) : bool :=
  forallb (clause_sat model) (hard f).

(** Sum of the weights of the soft clauses the model falsifies. *)
Definition cost (model : list Z) (f : WCNFFormula) : Z :=
  fold_right
    (fun cw acc => if clause_sat model (fst cw) then acc else snd cw + acc)
    0 (soft f).

(** One signed literal per declared variable, at the index of its
    absolute value. *)
Definition complete (f : WCNFFormula) (model : list Z) : bool :=
  clause_eqb (map Z.abs model) (Py.range 1 (num_vars f + 1)).

(** Modelled from the spec: the contract of [solver.solve], whose code
    ([msat_runner]) is not among the sources.  A returned pair is a
    complete assignment that satisfies the hard clauses, together with
    its cost, which is minimal among the complete assignments satisfying
    the hard clauses; the call fails with [Infeasible] exactly when no
    complete assignment satisfies the hard clauses. *)
Definition SolverPort (f : WCNFFormula) (r : result solution) : Prop :=
  match r with
  | Ok (opt, model) =>
      complete f model = true /\
      sat_hard model f = true /\
      opt = cost model f /\
      forall m, complete f m = true -> sat_hard m f = true -> opt <= cost m f
  | Raise Infeasible =>
      forall m, complete f m = true -> sat_hard m f = false
  | Raise _ => False
  end.

(** [[n for n in model if n > 0]], the decoding shared by all reducers. *)
Definition positive_literals (model : list Z) : list Z :=
  filter (fun n => 0 <? n) model.

Section Reductions.

(** Modelled from the spec: [wcnf.TOP_WEIGHT], the sentinel weight that
    marks a clause as hard; its value is not among the sources. *)
Variable TOP_WEIGHT : Z.

(** Iteration order of a Python [set] (and of the elements of a
    [frozenset]): some enumeration of the elements, the same one each
    time an unchanged set is traversed. *)
Variable set_order : forall A : Type, list A -> list A.
Hypothesis set_order_perm :
  forall (A : Type) (l : list A), Permutation (set_order A l) l.

(** Modelled from the spec: [WCNFFormula.new_var] allocates and returns
    the next unused variable id. *)
Definition new_var (f : WCNFFormula) : Z * WCNFFormula :=
  (num_vars f + 1, mkFormula (num_vars f + 1) (hard f) (soft f)).

(** Modelled from the spec: [WCNFFormula.add_clause] appends the clause,
    to the hard clauses when the weight is [TOP_WEIGHT] and to the soft
    clauses with that weight otherwise; literals are not validated. *)
Definition add_clause (literals : list Z) (weight : Z) (f : WCNFFormula)
  : WCNFFormula :=
  if weight =? TOP_WEIGHT
  then mkFormula (num_vars f) (hard f ++ [literals]) (soft f)
  else mkFormula (num_vars f) (hard f) (soft f ++ [(literals, weight)]).

(** Modelled from the spec: [WCNFFormula.sum_soft_weights]. *)
Definition sum_soft_weights (f : WCNFFormula) : Z :=
  fold_right (fun cw acc => snd cw + acc) 0 (soft f).

(** [nodes = [formula.new_var() for _ in range(n)]] *)
Fixpoint new_vars (n : nat) (f : WCNFFormula) : list Z * WCNFFormula :=
  match n with
  | O => ([], f)
  | S k =>
      let '(v, f1) := new_var f in
      let '(vs, f2) := new_vars k f1 in
      (v :: vs, f2)
  end.

(** ** [auct_solver.py] *)

Record Auction : Type := mkAuction {
  flag : bool;
  formula : WCNFFormula;
  solver : Solver;
  goods : list (string * Z);
  auctions : list (list string);
  auctioneers : list string
}.

(** [Auction.__init__] *)
Definition Auction_init (solver : Solver) (flag : bool) : Auction :=
  mkAuction flag new_formula solver [] [] [].

Definition with_formula (self : Auction) (f : WCNFFormula) : Auction :=
  mkAuction (flag self) f (solver self) (goods self) (auctions self)
    (auctioneers self).

(** [Auction.manage_auction] *)
Definition manage_auction (self : Auction) (bid : list string)
  : result Auction :=
  price <- Py.item bid (-1) ;;
  weight <- Py.int price ;;
  let '(actual_auction, f1) := new_var (formula self) in
  let f2 := add_clause [actual_auction] weight f1 in
  let goods' :=
    fold_left (fun gs good => Py.set_add good_eqb (good, actual_auction) gs)
      (Py.slice bid 1 (List.length bid - 1)) (goods self) in
  Ok (mkAuction (flag self) f2 (solver self) goods' (auctions self)
        (auctioneers self)).

(** [Auction.manage_incompatibilities] *)
Definition manage_incompatibilities (self : Auction) (goods : list (string * Z))
  : Auction :=
  let order := set_order _ goods in
  fold_left
    (fun self good =>
       fold_left
         (fun self good2 =>
            if String.eqb (fst good) (fst good2)
               && negb (snd good =? snd good2)
               && (snd good <? snd good2)
               && negb (Py.mem clause_eqb [- snd good; - snd good2]
                          (hard (formula self)))
            then with_formula self
                   (add_clause [- snd good; - snd good2] TOP_WEIGHT
                      (formula self))
            else self)
         order self)
    order self.

(** The loop of [Auction.check_all_auctioneers_win]: one clause per
    declared auctioneer. *)
Definition auctioneer_clause (self : Auction) (auctioneer : string)
  : result (list Z) :=
  for_each
    (fun auction acc =>
       agent <- Py.item auction 0 ;;
       if String.eqb auctioneer agent
       then i <- Py.index bid_eqb (auctions self) auction ;; Ok (acc ++ [i + 1])
       else Ok acc)
    (auctions self) [].

Definition auctioneer_clauses (self : Auction) (formula : WCNFFormula)
  : result WCNFFormula :=
  for_each
    (fun auctioneer f =>
       c <- auctioneer_clause self auctioneer ;;
       Ok (add_clause c TOP_WEIGHT f))
    (auctioneers self) formula.

(** [Auction.check_all_auctioneers_win] *)
Definition check_all_auctioneers_win (self : Auction) (formula : WCNFFormula)
  : result (Auction * solution) :=
  f <- auctioneer_clauses self formula ;;
  sol <- solver self f ;;
  Ok (with_formula self f, sol).

(** The body of the loop of [Auction.parse_input_stream] on one
    non-blank line. *)
Definition parse_line (line : string) (self : Auction) : result Auction :=
  let l := Py.split line in
  l0 <- Py.item l 0 ;;
  let self1 :=
    if String.eqb l0 "a"
    then mkAuction (flag self) (formula self) (solver self) (goods self)
           (auctions self) (auctioneers self ++ Py.slice l 1 (List.length l))
    else self in
  if negb (String.eqb l0 "g") && negb (String.eqb l0 "a")
  then manage_auction
         (mkAuction (flag self1) (formula self1) (solver self1) (goods self1)
            (auctions self1 ++ [l]) (auctioneers self1)) l
  else Ok self1.

(** [reader = (l for l in (ll.strip() for ll in stream) if l)] *)
Definition reader (stream : list string) : list string :=
  filter (fun l => negb (String.eqb l "")) (map Py.strip stream).

(** The part of [Auction.parse_input_stream] that precedes the call of
    the solver: the object as it is when [solve] is called. *)
Definition encode (self : Auction) (stream : list string) : result Auction :=
  self1 <- for_each parse_line (reader stream) self ;;
  let self2 := manage_incompatibilities self1 (goods self1) in
  if flag self2 then Ok self2
  else f <- auctioneer_clauses self2 (formula self2) ;; Ok (with_formula self2 f).

(** [Auction.parse_input_stream] *)
Definition parse_input_stream (self : Auction) (stream : list string)
  : result (Auction * solution) :=
  self1 <- for_each parse_line (reader stream) self ;;
  let self2 := manage_incompatibilities self1 (goods self1) in
  if flag self2
  then sol <- solver self2 (formula self2) ;; Ok (self2, sol)
  else check_all_auctioneers_win self2 (formula self2).

(** [Auction.read_file]; [open] is the file system. *)
Definition read_file (open : string -> result (list string)) (self : Auction)
    (file : string) : result (Auction * solution) :=
  if String.eqb file "" then Raise FileNotFoundError
  else stream <- open file ;; parse_input_stream self stream.

(** One line of the report of a winning bid, [Auction.print_solution]. *)
Definition bid_line (self : Auction) (bid : Z) : result string :=
  to_print <- Py.item (auctions self) (bid - 1) ;;
  agent <- Py.item to_print 0 ;;
  let goods := Py.slice to_print 1 (List.length to_print - 1) in
  price <- Py.item to_print (-1) ;;
  Ok (agent ++ ": " ++ String.concat "," goods ++ " (Price " ++ price ++ ")")%string.

(** The lines printed for the winning bids, and the exception that
    interrupted the loop, if any. *)
Fixpoint print_bids (self : Auction) (winning_bids : list Z)
  : list string * option exn :=
  match winning_bids with
  | [] => ([], None)
  | bid :: r =>
      match bid_line self bid with
      | Ok line => let '(out, e) := print_bids self r in (line :: out, e)
      | Raise e => ([], Some e)
      end
  end.

Definition benefit (self : Auction) (opt : Z) : Z :=
  sum_soft_weights (formula self) - opt.

(** [Auction.print_solution]: the lines written to the standard output
    and the exception raised, if any. *)
Definition print_solution (self : Auction) (solution : solution)
  : list string * option exn :=
  let '(opt, bids) := solution in
  let winning_bids := positive_literals bids in
  let benefit := benefit self opt in
  let line1 := ("Benefit: " ++ Py.str benefit)%string in
  match print_bids self winning_bids with
  | (out, Some e) => (line1 :: out, Some e)
  | (out, None) =>
      if sum_soft_weights (formula self) <? benefit
      then (line1 :: out ++ ["Invalid solution"], None)
      else (line1 :: out ++ ["Valid solution"], None)
  end.

(** ** [graph.py] *)

Record Graph : Type := mkGraph {
  edges : list (list Z);
  n_nodes : Z
}.

(** [Graph.__init__] without a file *)
Definition Graph_init : Graph := mkGraph [] 0.

(** [frozenset([a, b])], kept as its elements in increasing order. *)
Definition frozenset2 (a b : Z) : list Z :=
  if a =? b then [a] else if a <? b then [a; b] else [b; a].

(** The local state of the loop of [Graph.read_stream]. *)
Record read_state : Type := mkRead {
  rs_n_nodes : Z;
  rs_n_edges : Z;
  rs_edges : list (list Z)
}.

Definition read_line (line : string) (s : read_state) : result read_state :=
  let l := Py.split line in
  l0 <- Py.item l 0 ;;
  if String.eqb l0 "p" then
    t2 <- Py.item l 2 ;;
    n <- Py.int t2 ;;
    t3 <- Py.item l 3 ;;
    m <- Py.int t3 ;;
    Ok (mkRead n m (rs_edges s))
  else if String.eqb l0 "c" then Ok s
  else
    t1 <- Py.item l 1 ;;
    a <- Py.int t1 ;;
    t2 <- Py.item l 2 ;;
    b <- Py.int t2 ;;
    Ok (mkRead (rs_n_nodes s) (rs_n_edges s)
          (Py.set_add clause_eqb (frozenset2 a b) (rs_edges s))).

(** [Graph.read_stream]: the graph read and the lines printed. *)
Definition read_stream (self : Graph) (stream : list string)
  : result (Graph * list string) :=
  s <- for_each read_line (reader stream) (mkRead (n_nodes self) (-1) []) ;;
  let edges := map (set_order Z) (set_order (list Z) (rs_edges s)) in
  Ok (mkGraph edges (rs_n_nodes s),
      if rs_n_edges s =? Z.of_nat (List.length (rs_edges s)) then []
      else ["Warning incorrect number of edges"]).

(** [for n1, n2 in self.edges]: unpacking of one edge tuple. *)
Definition unpack2 (t : list Z) : result (Z * Z) :=
  match t with
  | [a; b] => Ok (a, b)
  | _ => Raise ValueError
  end.

(** The formula built by [Graph.min_vertex_cover]. *)
Definition min_vertex_cover_formula (self : Graph) : result WCNFFormula :=
  let '(nodes, formula) := new_vars (Z.to_nat (n_nodes self)) new_formula in
  let formula := fold_left (fun f n => add_clause [- n] 1 f) nodes formula in
  for_each
    (fun e f =>
       '(n1, n2) <- unpack2 e ;;
       a <- Py.item nodes (n1 - 1) ;;
       b <- Py.item nodes (n2 - 1) ;;
       Ok (add_clause [a; b] TOP_WEIGHT f))
    (edges self) formula.

(** [Graph.min_vertex_cover] *)
Definition min_vertex_cover (self : Graph) (solver : Solver) : result (list Z) :=
  formula <- min_vertex_cover_formula self ;;
  '(_, model) <- solver formula ;;
  Ok (positive_literals model).

(** The marking of the existing edges in [Graph.max_clique]. *)
Definition mark_edge (nodes : list Z) (e : list Z)
    (matrix : list (list (option Z))) : result (list (list (option Z))) :=
  '(e1, e2) <- unpack2 e ;;
  v1 <- Py.item nodes (e1 - 1) ;;
  v2 <- Py.item nodes (e2 - 1) ;;
  let '(v1, v2) := if v2 <? v1 then (v2, v1) else (v1, v2) in
  row <- Py.item matrix (v1 - 1) ;;
  row' <- Py.setitem row (v2 - 1) (Some 1) ;;
  Py.setitem matrix (v1 - 1) row'.

(** The traversal of the upper triangle of the matrix in
    [Graph.max_clique]. *)
Definition add_non_edges (n : Z) (matrix : list (list (option Z)))
    (formula : WCNFFormula) : result WCNFFormula :=
  for_each
    (fun index1 f =>
       for_each
         (fun index2 f =>
            row <- Py.item matrix index1 ;;
            cell <- Py.item row index2 ;;
            match cell with
            | Some 1 => Ok f
            | _ => Ok (add_clause [- (index1 + 1); - (index2 + 1)] TOP_WEIGHT f)
            end)
         (Py.range (index1 + 1) n) f)
    (Py.range 0 n) formula.

(** The formula built by [Graph.max_clique].  The name [n] read after
    the first loop is the variable of that loop: it is bound only if the
    loop ran at least once, to the last element of [nodes]. *)
Definition max_clique_formula (self : Graph) : result WCNFFormula :=
  let '(nodes, formula) := new_vars (Z.to_nat (n_nodes self)) new_formula in
  let formula := fold_left (fun f n => add_clause [n] 1 f) nodes formula in
  match rev nodes with
  | [] => Raise UnboundLocalError
  | n :: _ =>
      let matrix := repeat (repeat (@None Z) (Z.to_nat n)) (Z.to_nat n) in
      matrix <- for_each (mark_edge nodes) (edges self) matrix ;;
      add_non_edges n matrix formula
  end.

(** [Graph.max_clique] *)
Definition max_clique (self : Graph) (solver : Solver) : result (list Z) :=
  formula <- max_clique_formula self ;;
  '(_, model) <- solver formula ;;
  Ok (positive_literals model).

(** The formula built by [Graph.max_cut]. *)
Definition max_cut_formula (self : Graph) : result WCNFFormula :=
  let '(nodes, formula) := new_vars (Z.to_nat (n_nodes self)) new_formula in
  for_each
    (fun e f =>
       '(e1, e2) <- unpack2 e ;;
       v1 <- Py.item nodes (e1 - 1) ;;
       v2 <- Py.item nodes (e2 - 1) ;;
       Ok (add_clause [- v1; - v2] 1 (add_clause [v1; v2] 1 f)))
    (edges self) formula.

(** [Graph.max_cut] *)
Definition max_cut (self : Graph) (solver : Solver) : result (list Z) :=
  formula <- max_cut_formula self ;;
  '(_, model) <- solver formula ;;
  Ok (positive_literals model).

(** ** Notions used by the statements *)

(** The token lists of the non-blank lines, in order. *)
Definition token_lines (stream : list string) : list (list string) :=
  map Py.split (reader stream).

Definition is_bid (l : list string) : bool :=
  match l with
  | [] => false
  | t :: _ => negb (String.eqb t "g") && negb (String.eqb t "a")
  end.

(** The bid lines of the input, in declaration order. *)
Definition declared_bids (stream : list string) : list (list string) :=
  filter is_bid (token_lines stream).

(** The auctioneers declared by the [a] lines, in declaration order. *)
Definition declared_auctioneers (stream : list string) : list string :=
  flat_map
    (fun l => match l with
              | t :: r => if String.eqb t "a" then r else []
              | [] => []
              end)
    (token_lines stream).

(** The goods listed by a bid: the tokens between agent and price. *)
Definition goods_of (bid : list string) : list string :=
  Py.slice bid 1 (List.length bid - 1).

(** Bid number [v] (1-based, in declaration order) claims the good [g]. *)
Definition claims (bids : list (list string)) (g : string) (v : Z) : Prop :=
  1 <= v /\ exists bid, Py.item bids (v - 1) = Ok bid /\ In g (goods_of bid).

(** The price of a bid record: its last token, read as an integer. *)
Definition bid_price (bid : list string) : result Z :=
  price <- Py.item bid (-1) ;; Py.int price.

(** The price of the bid recorded at the 1-based position [v]. *)
Definition price_of (self : Auction) (v : Z) : result Z :=
  bid <- Py.item (auctions self) (v - 1) ;; bid_price bid.

Fixpoint sum_prices (self : Auction) (vs : list Z) : result Z :=
  match vs with
  | [] => Ok 0
  | v :: r => p <- price_of self v ;; s <- sum_prices self r ;; Ok (p + s)
  end.

(** A literal refers to a variable of [1 .. n]. *)
Definition in_range (n l : Z) : Prop := 1 <= Z.abs l <= n.

Definition formula_in_range (f : WCNFFormula) : Prop :=
  Forall (Forall (in_range (num_vars f))) (hard f) /\
  Forall (fun cw => Forall (in_range (num_vars f)) (fst cw)) (soft f).

(** The formulas handed to the solver by the four reducers. *)
Definition constructed (f : WCNFFormula) : Prop :=
  (exists slv fl stream self,
      encode (Auction_init slv fl) stream = Ok self /\ f = formula self) \/
  (exists g, min_vertex_cover_formula g = Ok f) \/
  (exists g, max_clique_formula g = Ok f) \/
  (exists g, max_cut_formula g = Ok f).

(** A graph as the data model has it: every edge is a pair of distinct
    nodes of [1 .. n_nodes]. *)
Definition well_formed (g : Graph) : bool :=
  forallb
    (fun e => match e with
              | [a; b] =>
                  (1 <=? a) && (a <=? n_nodes g) && (1 <=? b)
                  && (b <=? n_nodes g) && negb (a =? b)
              | _ => false
              end)
    (edges g).

Definition adjacent (g : Graph) (a b : Z) : bool :=
  existsb (fun e => clause_eqb e [a; b] || clause_eqb e [b; a]) (edges g).

(** The soft clauses, resp. the hard unit clauses, that the bids
    [bids], numbered from [v], have put in the formula: a bid priced at
    the sentinel weight yields a hard clause. *)
Fixpoint soft_of (v : Z) (bids : list (list string)) : list (list Z * Z) :=
  match bids with
  | [] => []
  | b :: r =>
      match bid_price b with
      | Ok w => if w =? TOP_WEIGHT then soft_of (v + 1) r
                else ([v], w) :: soft_of (v + 1) r
      | Raise _ => soft_of (v + 1) r
      end
  end.

Fixpoint hard_of (v : Z) (bids : list (list string)) : list (list Z) :=
  match bids with
  | [] => []
  | b :: r =>
      match bid_price b with
      | Ok w => if w =? TOP_WEIGHT then [v] :: hard_of (v + 1) r
                else hard_of (v + 1) r
      | Raise _ => hard_of (v + 1) r
      end
  end.

(** The state of the auction object while the input is being read. *)
Record read_inv (self : Auction) : Prop := {
  ri_vars : num_vars (formula self) = Z.of_nat (List.length (auctions self));
  ri_soft : soft (formula self) = soft_of 1 (auctions self);
  ri_hard : hard (formula self) = hard_of 1 (auctions self);
  ri_goods :
    forall g v, In (g, v) (goods self) <-> claims (auctions self) g v;
  ri_bids : Forall (fun b => exists w, bid_price b = Ok w) (auctions self)
}.

(** The test and the update made by [Auction.manage_incompatibilities]
    for one pair of recorded entries. *)
Definition incompat_step (self : Auction) (good good2 : string * Z) : Auction :=
  if String.eqb (fst good) (fst good2)
     && negb (snd good =? snd good2)
     && (snd good <? snd good2)
     && negb (Py.mem clause_eqb [- snd good; - snd good2]
                (hard (formula self)))
  then with_formula self
         (add_clause [- snd good; - snd good2] TOP_WEIGHT (formula self))
  else self.

(** The clause that [Auction.check_all_auctioneers_win] builds for one
    auctioneer: for each of its bid records, one plus the position of
    the first record equal to it. *)
Definition agent_clause (self : Auction) (auctioneer : string) : list Z :=
  flat_map
    (fun auction =>
       match auction with
       | agent :: _ =>
           if String.eqb auctioneer agent
           then match Py.index bid_eqb (auctions self) auction with
                | Ok i => [i + 1]
                | Raise _ => []
                end
           else []
       | [] => []
       end)
    (auctions self).

(** The object after [manage_incompatibilities] extends the object
    before it: only hard clauses of the form [[-v1, -v2]] were added. *)
Definition incompat_ext (gs : list (string * Z)) (self t : Auction) : Prop :=
  flag t = flag self /\ solver t = solver self /\ goods t = goods self /\
  auctions t = auctions self /\ auctioneers t = auctioneers self /\
  num_vars (formula t) = num_vars (formula self) /\
  soft (formula t) = soft (formula self) /\
  exists extra,
    hard (formula t) = hard (formula self) ++ extra /\
    Forall (fun c => exists g v1 v2,
                c = [- v1; - v2] /\ In (g, v1) gs /\ In (g, v2) gs /\ v1 < v2)
      extra /\
    (NoDup (hard (formula self)) -> NoDup (hard (formula t))).

(** A formula over [N] variables all of whose literals are in range. *)
Definition ranged (N : Z) (f : WCNFFormula) : Prop :=
  num_vars f = N /\ formula_in_range f.

Definition clause_eq_dec : forall c d : list Z, {c = d} + {c <> d} :=
  list_eq_dec Z.eq_dec.

(** The price of a bid record, [0] when its last token is no integer. *)
Definition price_or_0 (bid : list string) : Z :=
  match bid_price bid with
  | Ok w => w
  | Raise _ => 0
  end.

(** Total price of the bids whose literal in [ms] is positive, the
    literals and the bids being taken in the same order. *)
Fixpoint won (ms : list Z) (bids : list (list string)) : Z :=
  match ms, bids with
  | m :: ms', b :: bids' => (if 0 <? m then price_or_0 b else 0) + won ms' bids'
  | _, _ => 0
  end.

(** Total weight of the soft clauses of [l] that the model satisfies. *)
Definition gain (model : list Z) (l : list (list Z * Z)) : Z :=
  fold_right
    (fun cw acc => (if clause_sat model (fst cw) then snd cw else 0) + acc)
    0 l.

(** The two soft clauses that [Graph.max_cut] adds for an edge. *)
Definition edge_clauses (e : list Z) : list (list Z * Z) :=
  match e with
  | [a; b] => [([a; b], 1); ([- a; - b], 1)]
  | _ => []
  end.

(** The cost that the clauses of one edge contribute under a model. *)
Definition edge_cost (model : list Z) (e : list Z) : Z :=
  cost model (mkFormula 0 [] (edge_clauses e)).

Definition zsum (l : list Z) : Z := fold_right Z.add 0 l.

(** Every edge tuple that has two endpoints has them in [1 .. n_nodes]. *)
Definition pairs_in_range (g : Graph) : bool :=
  forallb
    (fun e => match e with
              | [a; b] =>
                  (1 <=? a) && (a <=? n_nodes g) && (1 <=? b)
                  && (b <=? n_nodes g)
              | _ => true
              end)
    (edges g).

(** A square matrix of side [n], as [Graph.max_clique] keeps it. *)
Definition square (n : Z) (matrix : list (list (option Z))) : Prop :=
  Z.of_nat (List.length matrix) = n /\
  Forall (fun row => Z.of_nat (List.length row) = n) matrix.

(** ** Sample inputs *)

(** The enumeration of a set in insertion order. *)
Definition insertion_order : forall A : Type, list A -> list A :=
  fun _ l => l.

(** Two bids on one good, the auctioneer [A] must win. *)
Definition sample_stream : list string :=
  ["a A"; "g g1"; ""; "A g1 10"; "B g1 5"].

Definition sample_solver : Solver := fun _ => Ok (5, [1; -2]).

Definition sample_formula : WCNFFormula :=
  mkFormula 2 [[-1; -2]; [1]] [([1], 10); ([2], 5)].

Definition sample_auction : Auction :=
  mkAuction false sample_formula sample_solver [("g1", 1); ("g1", 2)]
    [["A"; "g1"; "10"]; ["B"; "g1"; "5"]] ["A"].

(** An auctioneer, [B], without any bid. *)
Definition idle_stream : list string := ["a A B"; "A g1 10"].

Definition idle_auction : Auction :=
  mkAuction false (mkFormula 1 [[1]; []] [([1], 10)]) sample_solver
    [("g1", 1)] [["A"; "g1"; "10"]] ["A"; "B"].

(** Twice the same bid row. *)
Definition duplicate_auction : Auction :=
  mkAuction false (mkFormula 2 [[-1; -2]; [1; 1]] [([1], 10); ([2], 10)])
    sample_solver [("g1", 1); ("g1", 2)]
    [["A"; "g1"; "10"]; ["A"; "g1"; "10"]] ["A"].

Definition triangle : Graph := mkGraph [[1; 2]; [2; 3]; [3; 1]] 3.

(** A graph file with a self-loop on node 2. *)
Definition loop_stream : list string := ["p edge 2 2"; "e 1 2"; "e 2 2"].

Definition loop_graph : Graph := mkGraph [[1; 2]; [2]] 2.

(** The ids (1-based positions) of the bids of [bids] whose agent is
    [a], in increasing order. *)
Definition bids_of (bids : list (list string)) (a : string) : list Z :=
  flat_map
    (fun vb => match snd vb with
               | agent :: _ => if String.eqb a agent then [fst vb] else []
               | [] => []
               end)
    (combine (Py.range 1 (1 + Z.of_nat (List.length bids))) bids).

(** The entry [(i, j)] of the matrix of [Graph.max_clique], and the
    matrix after [matrix[i][j] = 1]. *)
Definition cell (matrix : list (list (option Z))) (i j : nat) : option Z :=
  nth j (nth i matrix []) None.

Definition set_cell (matrix : list (list (option Z))) (i j : nat)
  : list (list (option Z)) :=
  Py.update matrix i (Py.update (nth i matrix []) j (Some 1)).

(** The matrix after the marking loop of [Graph.max_clique] on well
    formed edges. *)
Definition mark_all (es : list (list Z)) (matrix : list (list (option Z)))
  : list (list (option Z)) :=
  fold_left
    (fun m e => match e with
                | [a; b] => set_cell m (Z.to_nat (Z.min a b - 1))
                              (Z.to_nat (Z.max a b - 1))
                | _ => m
                end)
    es matrix.

(** The mutual-exclusion clauses of the non-adjacent pairs [a < b]. *)
Definition non_edge_clauses (g : Graph) : list (list Z) :=
  flat_map
    (fun a =>
       flat_map
         (fun b => if adjacent g a b then [] else [[- a; - b]])
         (Py.range (a + 1) (n_nodes g + 1)))
    (Py.range 1 (n_nodes g + 1)).

(** Every bid row ends with an integer. *)
Definition prices_ok (stream : list string) : bool :=
  forallb
    (fun b => match bid_price b with
              | Ok _ => true
              | Raise _ => false
              end)
    (declared_bids stream).

(** The object with another mode and another solver. *)
Definition retag (fl : bool) (slv : Solver) (self : Auction) : Auction :=
  mkAuction fl (formula self) slv (goods self) (auctions self)
    (auctioneers self).

(** The complete assignment over [n] variables that makes true exactly
    the variables selected by [sel]. *)
Definition model_of (sel : Z -> bool) (n : Z) : list Z :=
  map (fun v => if sel v then v else - v) (Py.range 1 (n + 1)).

(** The edges cut by a two-colouring of the nodes. *)
Definition cut_edges (side : Z -> bool) (g : Graph) : list (list Z) :=
  filter
    (fun e => match e with
              | [a; b] => xorb (side a) (side b)
              | _ => false
              end)
    (edges g).

(** A token list that [Graph.read_stream] takes for an edge: any line
    that is neither a problem line nor a comment. *)
Definition is_edge_line (l : list string) : bool :=
  match l with
  | [] => false
  | t :: _ => negb (String.eqb t "p") && negb (String.eqb t "c")
  end.

Definition is_problem_line (l : list string) : bool :=
  match l with
  | [] => false
  | t :: _ => String.eqb t "p"
  end.

Definition is_int (s : string) : bool :=
  match Py.int s with
  | Ok _ => true
  | Raise _ => false
  end.

(** The shape of a line that [Graph.read_stream] reads without an
    exception: a comment, a problem line with integers as third and
    fourth token, or any other line with integers as second and third
    token. *)
Definition line_ok (l : list string) : bool :=
  match l with
  | [] => false
  | t :: r =>
      if String.eqb t "p" then
        match r with
        | _ :: y :: z :: _ => is_int y && is_int z
        | _ => false
        end
      else if String.eqb t "c" then true
      else
        match r with
        | x :: y :: _ => is_int x && is_int y
        | _ => false
        end
  end.

(** The pair of endpoints that an edge line declares. *)
Definition declared_edge (l : list string) : option (Z * Z) :=
  match l with
  | _ :: x :: y :: _ =>
      if is_edge_line l then
        match Py.int x, Py.int y with
        | Ok a, Ok b => Some (a, b)
        | _, _ => None
        end
      else None
  | _ => None
  end.

(** The node and edge counts that a problem line declares. *)
Definition declared_counts (l : list string) : option (Z * Z) :=
  match l with
  | _ :: _ :: y :: z :: _ =>
      if is_problem_line l then
        match Py.int y, Py.int z with
        | Ok n, Ok m => Some (n, m)
        | _, _ => None
        end
      else None
  | _ => None
  end.


(** The node that [nodes[a - 1]] selects among [n] nodes: Python counts
    an index below zero from the end of the list. *)
Definition node_at (n a : Z) : Z := if a <=? 0 then a + n else a.

(** The endpoints for which [nodes[a - 1]] is defined. *)
Definition indexable (n a : Z) : bool := (1 - n <=? a) && (a <=? n).

(** The graph with every endpoint replaced by the node it selects. *)
Definition renumber (g : Graph) : Graph :=
  mkGraph (map (map (node_at (n_nodes g))) (edges g)) (n_nodes g).


(** The object with another list of auctioneers. *)
Definition with_auctioneers (self : Auction) (l : list string) : Auction :=
  mkAuction (flag self) (formula self) (solver self) (goods self)
    (auctions self) l.

(** What [Auction.parse_input_stream] does with a bid line: the row is
    appended to [auctions] and handed to [manage_auction]. *)
Definition record_bid (l : list string) (self : Auction) : result Auction :=
  manage_auction
    (mkAuction (flag self) (formula self) (solver self) (goods self)
       (auctions self ++ [l]) (auctioneers self)) l.

(** The auctioneers that one line declares. *)
Definition auctioneers_of (l : list string) : list string :=
  match l with
  | t :: r => if String.eqb t "a" then r else []
  | [] => []
  end.


(** The sample auction as it is read when the minimum-winning-bids
    constraint is switched off. *)
Definition free_auction : Auction :=
  mkAuction true (mkFormula 2 [[-1; -2]] [([1], 10); ([2], 5)]) sample_solver
    [("g1", 1); ("g1", 2)] [["A"; "g1"; "10"]; ["B"; "g1"; "5"]] ["A"].

(** The three formulas of the triangle. *)
Definition triangle_cover_formula : WCNFFormula :=
  mkFormula 3 [[1; 2]; [2; 3]; [3; 1]] [([-1], 1); ([-2], 1); ([-3], 1)].

Definition triangle_clique_formula : WCNFFormula :=
  mkFormula 3 [] [([1], 1); ([2], 1); ([3], 1)].

Definition triangle_cut_formula : WCNFFormula :=
  mkFormula 3 []
    [([1; 2], 1); ([-1; -2], 1); ([2; 3], 1); ([-2; -3], 1);
     ([3; 1], 1); ([-3; -1], 1)].

(** A graph file whose edge names node 0, and one whose edge names a
    node beyond the last. *)
Definition zero_graph : Graph := mkGraph [[0; 1]] 3.

Definition far_graph : Graph := mkGraph [[1; 4]] 3.


(** The line that [Auction.print_solution] writes for a bid record: the
    agent, the goods between agent and price, and the price. *)
Definition report_line (bid : list string) : string :=
  (hd "" bid ++ ": " ++ String.concat "," (goods_of bid)
   ++ " (Price " ++ last bid "" ++ ")")%string.


(** ** Basic facts *)

Example int_examples :
  Py.int "10" = Ok 10 /\ Py.int "-7" = Ok (-7) /\ Py.int "1_000" = Ok 1000 /\
  Py.int "x" = Raise ValueError /\ Py.int "" = Raise ValueError /\
  Py.int "1__0" = Raise ValueError /\ Py.int "+" = Raise ValueError.
Proof. repeat split; reflexivity. Qed.

Example split_examples :
  Py.split "  A g1   g2 10 " = ["A"; "g1"; "g2"; "10"] /\
  Py.strip "  p edge 3 2  " = "p edge 3 2" /\ Py.split "   " = [] /\
  Py.str (-12) = "-12" /\ Py.str 0 = "0".
Proof. repeat split; reflexivity. Qed.

Lemma for_each_inv {A S : Type} (P : S -> Prop) (body : A -> S -> result S) :
  forall (l : list A) (s s' : S),
    (forall x t t', In x l -> P t -> body x t = Ok t' -> P t') ->
    P s -> for_each body l s = Ok s' -> P s'.
Proof.
  induction l as [|x r IH]; cbn [for_each]; intros s s' Hstep Hs Hrun.
  - now inversion Hrun; subst.
  - destruct (body x s) as [t|e] eqn:Hb; simpl in Hrun; [|discriminate].
    apply (IH t s'); auto.
    + intros y u u' Hy. apply Hstep. now right.
    + apply (Hstep x s t); auto. now left.
Qed.

Lemma bind_Ok {A B : Type} (m : result A) (k : A -> result B) (b : B) :
  bind m k = Ok b -> exists a, m = Ok a /\ k a = Ok b.
Proof. destruct m; simpl; intros H; [eauto | discriminate]. Qed.

Lemma fold_left_inv {A S : Type} (P : S -> Prop) (step : S -> A -> S) :
  forall (l : list A) (s : S),
    (forall x t, In x l -> P t -> P (step t x)) ->
    P s -> P (fold_left step l s).
Proof.
  induction l as [|x r IH]; cbn [fold_left]; intros s Hstep Hs; auto.
  apply IH.
  - intros y t Hy. apply Hstep. now right.
  - apply Hstep; auto. now left.
Qed.

Lemma clause_eqb_eq (c d : list Z) : clause_eqb c d = true <-> c = d.
Proof.
  unfold clause_eqb. revert d.
  induction c as [|x c IH]; destruct d as [|y d]; simpl;
    try (split; [discriminate | discriminate]); try tauto.
  rewrite andb_true_iff, Z.eqb_eq, IH.
  split; [intros [-> ->]; reflexivity | intros H; inversion H; auto].
Qed.

Lemma mem_clause_In (c : list Z) (l : list (list Z)) :
  Py.mem clause_eqb c l = true <-> In c l.
Proof.
  unfold Py.mem. rewrite existsb_exists. split.
  - intros [d [Hin Heq]]. apply clause_eqb_eq in Heq. now subst.
  - intros Hin. exists c. split; auto. now apply clause_eqb_eq.
Qed.

Lemma item_In {A : Type} (l : list A) (i : Z) (x : A) :
  Py.item l i = Ok x -> In x l.
Proof.
  unfold Py.item. destruct (_ || _); [discriminate|].
  destruct (nth_error l _) eqn:E; [|discriminate].
  intros H; inversion H; subst. eapply nth_error_In; eauto.
Qed.

Lemma item_nonneg {A : Type} (l : list A) (i : Z) :
  0 <= i ->
  Py.item l i =
    match nth_error l (Z.to_nat i) with
    | Some x => Ok x
    | None => Raise IndexError
    end.
Proof.
  intros Hi. unfold Py.item.
  destruct (i <? 0) eqn:E; [apply Z.ltb_lt in E; lia|].
  destruct ((i <? 0) || _) eqn:E2; auto.
  rewrite E in E2. simpl in E2. apply Z.leb_le in E2.
  destruct (nth_error l (Z.to_nat i)) eqn:E3; auto.
  assert (Hlt : (Z.to_nat i < List.length l)%nat)
    by (apply nth_error_Some; congruence).
  lia.
Qed.

Lemma range_cons (a b : Z) : a < b -> Py.range a b = a :: Py.range (a + 1) b.
Proof.
  intros H. unfold Py.range.
  replace (Z.to_nat (b - a)) with (S (Z.to_nat (b - (a + 1)))) by lia.
  cbn [seq map]. f_equal; [lia|].
  rewrite <- seq_shift, map_map. apply map_ext. intros k. lia.
Qed.

Lemma range_nil (a b : Z) : b <= a -> Py.range a b = [].
Proof.
  intros H. unfold Py.range. replace (Z.to_nat (b - a)) with O by lia.
  reflexivity.
Qed.

Lemma range_In (a b x : Z) : In x (Py.range a b) <-> a <= x < b.
Proof.
  unfold Py.range. rewrite in_map_iff. split.
  - intros [k [<- Hk]]. apply in_seq in Hk. lia.
  - intros H. exists (Z.to_nat (x - a)). split; [lia|]. apply in_seq. lia.
Qed.

Lemma range_length (a b : Z) : List.length (Py.range a b) = Z.to_nat (b - a).
Proof. unfold Py.range. now rewrite length_map, length_seq. Qed.

Lemma range_snoc (a b : Z) :
  a <= b -> Py.range a (b + 1) = Py.range a b ++ [b].
Proof.
  intros H. unfold Py.range.
  replace (Z.to_nat (b + 1 - a)) with (Z.to_nat (b - a) + 1)%nat by lia.
  rewrite seq_app, map_app. cbn [seq map]. do 2 f_equal. lia.
Qed.

Lemma new_vars_spec (n : nat) (f : WCNFFormula) :
  new_vars n f =
    (Py.range (num_vars f + 1) (num_vars f + 1 + Z.of_nat n),
     mkFormula (num_vars f + Z.of_nat n) (hard f) (soft f)).
Proof.
  revert f. induction n as [|n IH]; intros f.
  - cbn [new_vars]. rewrite range_nil by lia. destruct f; cbn.
    do 2 f_equal. lia.
  - cbn [new_vars new_var]. rewrite IH. cbn [num_vars hard soft].
    rewrite (range_cons (num_vars f + 1)) by lia.
    replace (num_vars f + 1 + 1 + Z.of_nat n)
      with (num_vars f + 1 + Z.of_nat (S n)) by lia.
    replace (num_vars f + 1 + Z.of_nat n)
      with (num_vars f + Z.of_nat (S n)) by lia.
    reflexivity.
Qed.

Lemma num_vars_add_clause (c : list Z) (w : Z) (f : WCNFFormula) :
  num_vars (add_clause c w f) = num_vars f.
Proof. unfold add_clause. now destruct (w =? TOP_WEIGHT). Qed.

Lemma add_clause_hard (c : list Z) (f : WCNFFormula) :
  add_clause c TOP_WEIGHT f = mkFormula (num_vars f) (hard f ++ [c]) (soft f).
Proof. unfold add_clause. now rewrite Z.eqb_refl. Qed.

Lemma add_clause_soft (c : list Z) (w : Z) (f : WCNFFormula) :
  w <> TOP_WEIGHT ->
  add_clause c w f = mkFormula (num_vars f) (hard f) (soft f ++ [(c, w)]).
Proof.
  intros H. unfold add_clause.
  destruct (w =? TOP_WEIGHT) eqn:E; [apply Z.eqb_eq in E; contradiction|].
  reflexivity.
Qed.

Lemma in_range_mono (n m l : Z) : n <= m -> in_range n l -> in_range m l.
Proof. unfold in_range. lia. Qed.

Lemma formula_in_range_mono (n : Z) (f : WCNFFormula) :
  num_vars f <= n -> formula_in_range f ->
  formula_in_range (mkFormula n (hard f) (soft f)).
Proof.
  intros Hn [Hh Hs]. split; cbn [num_vars hard soft].
  - eapply Forall_impl; [|exact Hh]. intros c Hc.
    eapply Forall_impl; [|exact Hc]. intros l. now apply in_range_mono.
  - eapply Forall_impl; [|exact Hs]. intros c Hc.
    eapply Forall_impl; [|exact Hc]. intros l. now apply in_range_mono.
Qed.

Lemma add_clause_in_range (c : list Z) (w : Z) (f : WCNFFormula) :
  Forall (in_range (num_vars f)) c -> formula_in_range f ->
  formula_in_range (add_clause c w f).
Proof.
  intros Hc [Hh Hs]. unfold add_clause.
  destruct (w =? TOP_WEIGHT); split; cbn [num_vars hard soft]; auto;
    apply Forall_app; split; auto.
Qed.

Lemma item_0_cons {A : Type} (x : A) (r : list A) : Py.item (x :: r) 0 = Ok x.
Proof. now rewrite item_nonneg by lia. Qed.

Lemma item_0_nil {A : Type} : Py.item (@nil A) 0 = Raise IndexError.
Proof. reflexivity. Qed.

Lemma slice_tail {A : Type} (l : list A) :
  Py.slice l 1 (List.length l) = tl l.
Proof. unfold Py.slice. rewrite firstn_all. now destruct l. Qed.

(** What one line of the auction input does to the object. *)
Lemma parse_line_spec (line : string) (self self' : Auction) :
  parse_line line self = Ok self' ->
  (exists r, Py.split line = "a" :: r /\
     self' = mkAuction (flag self) (formula self) (solver self) (goods self)
               (auctions self) (auctioneers self ++ r)) \/
  (exists r, Py.split line = "g" :: r /\ self' = self) \/
  (is_bid (Py.split line) = true /\
   exists p w,
     Py.item (Py.split line) (-1) = Ok p /\ Py.int p = Ok w /\
     self' =
       mkAuction (flag self)
         (add_clause [num_vars (formula self) + 1] w
            (mkFormula (num_vars (formula self) + 1) (hard (formula self))
               (soft (formula self))))
         (solver self)
         (fold_left
            (fun gs good =>
               Py.set_add good_eqb (good, num_vars (formula self) + 1) gs)
            (goods_of (Py.split line)) (goods self))
         (auctions self ++ [Py.split line]) (auctioneers self)).
Proof.
  unfold parse_line. destruct (Py.split line) as [|t r] eqn:El.
  - rewrite item_0_nil. discriminate.
  - rewrite item_0_cons. cbn [bind].
    destruct (String.eqb t "a") eqn:Ea.
    + apply String.eqb_eq in Ea. subst t.
      destruct (String.eqb "a" "g") eqn:Eg; [discriminate|].
      cbn [negb andb]. intros H. injection H as <-. left. exists r.
      split; auto. f_equal. f_equal. exact (slice_tail ("a" :: r)).
    + destruct (String.eqb t "g") eqn:Eg; cbn [negb andb].
      * apply String.eqb_eq in Eg. subst t. intros H. inversion H; subst.
        right. left. eauto.
      * intros H. right. right. split.
        { cbn [is_bid]. now rewrite Ea, Eg. }
        unfold manage_auction in H. cbn [auctions formula flag solver goods auctioneers] in H.
        apply bind_Ok in H as [p [Hp H]].
        apply bind_Ok in H as [w [Hw H]].
        cbn [new_var] in H. inversion H; subst. exists p, w.
        repeat split; auto.
Qed.

Lemma item_app_snoc {A : Type} (l : list A) (x : A) (i : Z) :
  0 <= i ->
  Py.item (l ++ [x]) i =
    if i <? Z.of_nat (List.length l) then Py.item l i
    else if i =? Z.of_nat (List.length l) then Ok x
    else Raise IndexError.
Proof.
  intros Hi. rewrite !item_nonneg by lia.
  destruct (i <? Z.of_nat (List.length l)) eqn:E1.
  - apply Z.ltb_lt in E1. rewrite nth_error_app1 by lia. reflexivity.
  - apply Z.ltb_ge in E1. rewrite nth_error_app2 by lia.
    destruct (i =? Z.of_nat (List.length l)) eqn:E2.
    + apply Z.eqb_eq in E2.
      replace (Z.to_nat i - List.length l)%nat with O by lia. reflexivity.
    + apply Z.eqb_neq in E2.
      destruct (Z.to_nat i - List.length l)%nat as [|k] eqn:E3; [lia|].
      cbn. now destruct k.
Qed.

Lemma item_out {A : Type} (l : list A) (i : Z) :
  Z.of_nat (List.length l) <= i -> Py.item l i = Raise IndexError.
Proof.
  intros Hi. rewrite item_nonneg by lia.
  destruct (nth_error l (Z.to_nat i)) eqn:E; auto.
  assert ((Z.to_nat i < List.length l)%nat) by (apply nth_error_Some; congruence).
  lia.
Qed.

Lemma item_in {A : Type} (l : list A) (i : Z) :
  0 <= i < Z.of_nat (List.length l) -> exists x, Py.item l i = Ok x.
Proof.
  intros Hi. rewrite item_nonneg by lia.
  destruct (nth_error l (Z.to_nat i)) eqn:E; eauto.
  apply nth_error_None in E. lia.
Qed.

Lemma item_Ok_bound {A : Type} (l : list A) (i : Z) (x : A) :
  0 <= i -> Py.item l i = Ok x -> i < Z.of_nat (List.length l).
Proof.
  intros Hi H. destruct (Z_lt_le_dec i (Z.of_nat (List.length l))); auto.
  rewrite item_out in H by lia. discriminate.
Qed.

Lemma good_eqb_eq (a b : string * Z) : good_eqb a b = true <-> a = b.
Proof.
  unfold good_eqb. destruct a as [g v], b as [g' v']. cbn [fst snd].
  rewrite andb_true_iff, String.eqb_eq, Z.eqb_eq.
  split; [intros [-> ->]; reflexivity | intros H; inversion H; auto].
Qed.

Lemma set_add_In (x y : string * Z) (s : list (string * Z)) :
  In y (Py.set_add good_eqb x s) <-> In y s \/ y = x.
Proof.
  unfold Py.set_add, Py.mem.
  destruct (existsb (good_eqb x) s) eqn:E.
  - apply existsb_exists in E as [z [Hz Heq]]. apply good_eqb_eq in Heq.
    subst z. split; [auto | intros [H | ->]; auto].
  - rewrite in_app_iff. cbn [In]. intuition.
Qed.

Lemma goods_fold_In (v : Z) (gs : list string) (s : list (string * Z))
    (y : string * Z) :
  In y (fold_left (fun s good => Py.set_add good_eqb (good, v) s) gs s) <->
  In y s \/ (snd y = v /\ In (fst y) gs).
Proof.
  revert s. induction gs as [|g gs IH]; intros s; cbn [fold_left].
  - cbn [In]. tauto.
  - rewrite IH, set_add_In. cbn [In]. destruct y as [a b]. cbn [fst snd].
    split.
    + intros [[H | H] | [H1 H2]]; auto.
      inversion H; subst. auto.
    + intros [H | [H1 [H2 | H2]]]; subst; auto.
Qed.

Lemma claims_snoc (bids : list (list string)) (l : list string) (g : string)
    (v : Z) :
  claims (bids ++ [l]) g v <->
  claims bids g v \/ (v = Z.of_nat (List.length bids) + 1 /\ In g (goods_of l)).
Proof.
  unfold claims. split.
  - intros [Hv [bid [Hit Hg]]]. rewrite item_app_snoc in Hit by lia.
    destruct (v - 1 <? _) eqn:E1; [left; eauto|].
    destruct (v - 1 =? _) eqn:E2; [|discriminate].
    apply Z.eqb_eq in E2. inversion Hit; subst. right. split; [lia | auto].
  - intros [[Hv [bid [Hit Hg]]] | [-> Hg]].
    + split; auto. exists bid. split; auto.
      rewrite item_app_snoc by lia.
      assert (Hb : v - 1 < Z.of_nat (List.length bids))
        by (eapply item_Ok_bound; [|exact Hit]; lia).
      apply Z.ltb_lt in Hb. now rewrite Hb.
    + split; [lia|]. exists l. split; auto.
      rewrite item_app_snoc by lia.
      replace (Z.of_nat (List.length bids) + 1 - 1)
        with (Z.of_nat (List.length bids)) by lia.
      now rewrite Z.ltb_irrefl, Z.eqb_refl.
Qed.

Lemma soft_of_snoc (bids : list (list string)) (l : list string) (v : Z) :
  soft_of v (bids ++ [l]) =
    soft_of v bids ++ soft_of (v + Z.of_nat (List.length bids)) [l].
Proof.
  revert v. induction bids as [|b r IH]; intros v.
  - cbn [app List.length]. now replace (v + Z.of_nat 0) with v by lia.
  - cbn [app soft_of List.length]. rewrite IH.
    replace (v + 1 + Z.of_nat (List.length r))
      with (v + Z.of_nat (S (List.length r))) by lia.
    destruct (bid_price b) as [w|e]; [destruct (w =? TOP_WEIGHT)|]; reflexivity.
Qed.

Lemma hard_of_snoc (bids : list (list string)) (l : list string) (v : Z) :
  hard_of v (bids ++ [l]) =
    hard_of v bids ++ hard_of (v + Z.of_nat (List.length bids)) [l].
Proof.
  revert v. induction bids as [|b r IH]; intros v.
  - cbn [app List.length]. now replace (v + Z.of_nat 0) with v by lia.
  - cbn [app hard_of List.length]. rewrite IH.
    replace (v + 1 + Z.of_nat (List.length r))
      with (v + Z.of_nat (S (List.length r))) by lia.
    destruct (bid_price b) as [w|e]; [destruct (w =? TOP_WEIGHT)|]; reflexivity.
Qed.

Lemma read_inv_init (slv : Solver) (fl : bool) : read_inv (Auction_init slv fl).
Proof.
  constructor; cbn; auto.
  intros g v. unfold claims. split; [tauto|].
  intros [Hv [bid [Hit _]]]. rewrite item_out in Hit by (cbn; lia).
  discriminate.
Qed.

Lemma read_inv_step (line : string) (self self' : Auction) :
  read_inv self -> parse_line line self = Ok self' -> read_inv self'.
Proof.
  intros [Hv Hs Hh Hg Hb] Hstep.
  apply parse_line_spec in Hstep
    as [[r [_ ->]] | [[r [_ ->]] | [_ [p [w [Hp [Hw ->]]]]]]].
  - constructor; auto.
  - constructor; auto.
  - assert (Hprice : bid_price (Py.split line) = Ok w).
    { unfold bid_price. rewrite Hp. exact Hw. }
    constructor; cbn [formula auctions goods].
    + rewrite num_vars_add_clause. cbn [num_vars].
      rewrite length_app. cbn [List.length]. lia.
    + rewrite soft_of_snoc. cbn [soft_of]. rewrite Hprice, <- Hs.
      unfold add_clause. rewrite Hv.
      replace (1 + Z.of_nat (List.length (auctions self)))
        with (Z.of_nat (List.length (auctions self)) + 1) by lia.
      destruct (w =? TOP_WEIGHT); cbn [soft]; auto using app_nil_r.
    + rewrite hard_of_snoc. cbn [hard_of]. rewrite Hprice, <- Hh.
      unfold add_clause. rewrite Hv.
      replace (1 + Z.of_nat (List.length (auctions self)))
        with (Z.of_nat (List.length (auctions self)) + 1) by lia.
      destruct (w =? TOP_WEIGHT); cbn [hard]; auto using app_nil_r.
    + intros g v. rewrite goods_fold_In, claims_snoc, Hg, Hv.
      cbn [fst snd]. tauto.
    + apply Forall_app. split; auto. constructor; eauto.
Qed.

Lemma read_inv_loop (ls : list string) (self self' : Auction) :
  read_inv self -> for_each parse_line ls self = Ok self' -> read_inv self'.
Proof.
  intros Hinv Hrun.
  apply (for_each_inv read_inv parse_line ls self self'); auto.
  intros x t t' _ Ht Hx. eapply read_inv_step; eauto.
Qed.

Lemma fold_left_reach {A S : Type} (Q : S -> Prop) (step : S -> A -> S)
    (l : list A) (x : A) :
  In x l ->
  (forall y t, Q t -> Q (step t y)) ->
  (forall t, Q (step t x)) ->
  forall s, Q (fold_left step l s).
Proof.
  intros Hin Hmono Hx. induction l as [|y r IH]; [contradiction|].
  intros s. cbn [fold_left]. destruct Hin as [-> | Hin].
  - apply fold_left_inv; auto.
  - apply IH; auto.
Qed.

Lemma manage_incompatibilities_unfold (self : Auction) (gs : list (string * Z)) :
  manage_incompatibilities self gs =
    fold_left
      (fun s good =>
         fold_left (fun s good2 => incompat_step s good good2)
           (set_order _ gs) s)
      (set_order _ gs) self.
Proof. reflexivity. Qed.

Lemma incompat_ext_refl (gs : list (string * Z)) (self : Auction) :
  incompat_ext gs self self.
Proof.
  unfold incompat_ext. repeat split; auto.
  exists []. rewrite app_nil_r. auto.
Qed.

Lemma incompat_step_ext (gs : list (string * Z)) (self t : Auction)
    (good good2 : string * Z) :
  In good gs -> In good2 gs ->
  incompat_ext gs self t -> incompat_ext gs self (incompat_step t good good2).
Proof.
  intros Hg1 Hg2 H. unfold incompat_step.
  destruct (_ && _) eqn:E; auto.
  apply andb_true_iff in E as [E E4]. apply andb_true_iff in E as [E E3].
  apply andb_true_iff in E as [E1 E2].
  apply String.eqb_eq in E1. apply Z.ltb_lt in E3.
  apply negb_true_iff in E4.
  destruct H as (Hf & Hsl & Hgo & Ha & Hau & Hn & Hso & extra & Hh & Hex & Hnd).
  unfold incompat_ext, with_formula. cbn [flag solver goods auctions auctioneers formula].
  rewrite add_clause_hard. cbn [num_vars soft hard].
  repeat split; auto.
  exists (extra ++ [[- snd good; - snd good2]]). repeat split.
  - now rewrite Hh, app_assoc.
  - apply Forall_app. split; auto. constructor; auto.
    exists (fst good), (snd good), (snd good2). repeat split; auto.
    + now destruct good.
    + rewrite E1. now destruct good2.
  - intros Hnd0.
    assert (Hnot : ~ In [- snd good; - snd good2] (hard (formula t))).
    { intros Hin. apply mem_clause_In in Hin. congruence. }
    apply (Permutation_NoDup (l := [- snd good; - snd good2] :: hard (formula t))).
    + apply Permutation_cons_append.
    + constructor; auto.
Qed.

Lemma manage_incompatibilities_ext (self : Auction) (gs : list (string * Z)) :
  incompat_ext gs self (manage_incompatibilities self gs).
Proof.
  rewrite manage_incompatibilities_unfold.
  apply fold_left_inv; [|apply incompat_ext_refl].
  intros good t Hgood Ht.
  apply fold_left_inv; auto.
  intros good2 u Hgood2 Hu.
  apply incompat_step_ext; auto;
    eapply Permutation_in; try apply set_order_perm; auto.
Qed.

Lemma incompat_step_keeps (c : list Z) (t : Auction) (good good2 : string * Z) :
  In c (hard (formula t)) -> In c (hard (formula (incompat_step t good good2))).
Proof.
  intros H. unfold incompat_step. destruct (_ && _); auto.
  unfold with_formula. cbn [formula]. rewrite add_clause_hard. cbn [hard].
  apply in_or_app. now left.
Qed.

Lemma incompat_step_adds (t : Auction) (g : string) (v1 v2 : Z) :
  v1 < v2 ->
  In [- v1; - v2] (hard (formula (incompat_step t (g, v1) (g, v2)))).
Proof.
  intros Hlt. unfold incompat_step. cbn [fst snd].
  rewrite String.eqb_refl.
  assert (E2 : (v1 =? v2) = false) by (apply Z.eqb_neq; lia).
  assert (E3 : (v1 <? v2) = true) by (apply Z.ltb_lt; lia).
  rewrite E2, E3. cbn [negb andb].
  destruct (Py.mem clause_eqb [- v1; - v2] (hard (formula t))) eqn:E.
  - cbn [negb]. now apply mem_clause_In.
  - cbn [negb]. unfold with_formula. cbn [formula].
    rewrite add_clause_hard. cbn [hard]. apply in_or_app. right. now left.
Qed.

(** Every pair of entries on one good gets its clause. *)
Lemma manage_incompatibilities_adds (self : Auction) (gs : list (string * Z))
    (g : string) (v1 v2 : Z) :
  In (g, v1) gs -> In (g, v2) gs -> v1 < v2 ->
  In [- v1; - v2] (hard (formula (manage_incompatibilities self gs))).
Proof.
  intros H1 H2 Hlt. rewrite manage_incompatibilities_unfold.
  assert (Hp : forall x, In x gs -> In x (set_order _ gs)).
  { intros x Hx. eapply Permutation_in; [|exact Hx].
    apply Permutation_sym, set_order_perm. }
  apply (fold_left_reach
           (fun t => In [- v1; - v2] (hard (formula t))) _ _ (g, v1)); auto.
  - intros y t Ht. apply fold_left_inv; auto.
    intros z u _ Hu. now apply incompat_step_keeps.
  - intros t.
    apply (fold_left_reach
             (fun t => In [- v1; - v2] (hard (formula t))) _ _ (g, v2)); auto.
    + intros z u Hu. now apply incompat_step_keeps.
    + intros u. now apply incompat_step_adds.
Qed.

Lemma bid_eqb_eq (b c : list string) : bid_eqb b c = true <-> b = c.
Proof.
  unfold bid_eqb. revert c.
  induction b as [|x b IH]; destruct c as [|y c]; cbn [Py.list_eqb];
    try (split; discriminate); try tauto.
  rewrite andb_true_iff, String.eqb_eq, IH.
  split; [intros [-> ->]; reflexivity | intros H; inversion H; auto].
Qed.

Lemma index_bound {A : Type} (eqb : A -> A -> bool) (l : list A) (x : A) (i : Z) :
  Py.index eqb l x = Ok i -> 0 <= i < Z.of_nat (List.length l).
Proof.
  revert i. induction l as [|y r IH]; intros i; cbn [Py.index List.length].
  - discriminate.
  - destruct (eqb y x).
    + intros H. inversion H. lia.
    + intros H. apply bind_Ok in H as [j [Hj H]]. inversion H.
      specialize (IH j Hj). lia.
Qed.

Lemma index_In (l : list (list string)) (x : list string) :
  In x l -> exists i, Py.index bid_eqb l x = Ok i.
Proof.
  induction l as [|y r IH]; [contradiction|]. intros Hin. cbn [Py.index].
  destruct (bid_eqb y x) eqn:E; [eauto|].
  destruct Hin as [-> | Hin].
  - assert (bid_eqb x x = true) by now apply bid_eqb_eq. congruence.
  - destruct (IH Hin) as [i Hi]. rewrite Hi. cbn [bind]. eauto.
Qed.

Lemma auctioneer_clause_loop (self : Auction) (a : string) :
  forall (l : list (list string)) (acc : list Z),
    Forall (fun b => b <> [] /\ In b (auctions self)) l ->
    for_each
      (fun auction acc =>
         agent <- Py.item auction 0 ;;
         if String.eqb a agent
         then i <- Py.index bid_eqb (auctions self) auction ;;
              Ok (acc ++ [i + 1])
         else Ok acc)
      l acc =
    Ok (acc ++
        flat_map
          (fun auction =>
             match auction with
             | agent :: _ =>
                 if String.eqb a agent
                 then match Py.index bid_eqb (auctions self) auction with
                      | Ok i => [i + 1]
                      | Raise _ => []
                      end
                 else []
             | [] => []
             end) l).
Proof.
  induction l as [|b r IH]; intros acc Hall; cbn [for_each flat_map].
  - now rewrite app_nil_r.
  - inversion Hall as [|? ? [Hne Hin] Hr]; subst.
    destruct b as [|t b]; [contradiction|].
    rewrite item_0_cons. cbn [bind].
    destruct (String.eqb a t).
    + destruct (index_In _ _ Hin) as [i Hi]. rewrite Hi. cbn [bind].
      etransitivity; [apply (IH (acc ++ [i + 1]) Hr)|].
      now rewrite <- app_assoc.
    + apply (IH acc Hr).
Qed.

Lemma auctioneer_clause_spec (self : Auction) (a : string) :
  Forall (fun b => b <> []) (auctions self) ->
  auctioneer_clause self a = Ok (agent_clause self a).
Proof.
  intros Hne. unfold auctioneer_clause, agent_clause.
  rewrite auctioneer_clause_loop; auto.
  apply Forall_forall. intros b Hb. split; auto.
  rewrite Forall_forall in Hne. auto.
Qed.

Lemma auctioneer_clauses_loop (self : Auction) :
  Forall (fun b => b <> []) (auctions self) ->
  forall (l : list string) (f : WCNFFormula),
    for_each
      (fun auctioneer f =>
         c <- auctioneer_clause self auctioneer ;;
         Ok (add_clause c TOP_WEIGHT f))
      l f =
    Ok (mkFormula (num_vars f) (hard f ++ map (agent_clause self) l) (soft f)).
Proof.
  intros Hne. induction l as [|a r IH]; intros f; cbn [for_each map].
  - rewrite app_nil_r. now destruct f.
  - rewrite auctioneer_clause_spec by auto. cbn [bind].
    rewrite IH, add_clause_hard. cbn [num_vars hard soft].
    now rewrite <- app_assoc.
Qed.

Lemma auctioneer_clauses_spec (self : Auction) (f : WCNFFormula) :
  Forall (fun b => b <> []) (auctions self) ->
  auctioneer_clauses self f =
    Ok (mkFormula (num_vars f)
          (hard f ++ map (agent_clause self) (auctioneers self)) (soft f)).
Proof. intros Hne. unfold auctioneer_clauses. now apply auctioneer_clauses_loop. Qed.

Lemma bid_price_nonempty (b : list string) (w : Z) :
  bid_price b = Ok w -> b <> [].
Proof. intros H ->. discriminate. Qed.

Lemma read_inv_nonempty (self : Auction) :
  read_inv self -> Forall (fun b => b <> []) (auctions self).
Proof.
  intros H. eapply Forall_impl; [|apply (ri_bids _ H)].
  intros b [w Hw]. eapply bid_price_nonempty; eauto.
Qed.

Lemma read_fields (ls : list string) :
  forall self self',
    for_each parse_line ls self = Ok self' ->
    flag self' = flag self /\ solver self' = solver self /\
    auctions self' = auctions self ++ filter is_bid (map Py.split ls) /\
    auctioneers self' =
      auctioneers self ++
      flat_map
        (fun l => match l with
                  | t :: r => if String.eqb t "a" then r else []
                  | [] => []
                  end)
        (map Py.split ls).
Proof.
  induction ls as [|line ls IH]; intros self self' H; cbn [for_each] in H.
  - inversion H; subst. cbn. now rewrite !app_nil_r.
  - apply bind_Ok in H as [s1 [H1 H2]].
    destruct (IH _ _ H2) as (Hf & Hs & Ha & Hau).
    rewrite Hf, Hs, Ha, Hau. cbn [map filter flat_map].
    apply parse_line_spec in H1
      as [[r [El ->]] | [[r [El ->]] | [Eb [p [w [_ [_ ->]]]]]]];
      cbn [flag solver auctions auctioneers].
    + rewrite El. cbn [is_bid]. cbn. now rewrite <- app_assoc.
    + rewrite El. cbn [is_bid]. cbn. auto.
    + rewrite Eb. rewrite <- app_assoc. cbn [app].
      repeat split; auto. f_equal.
      destruct (Py.split line) as [|t r]; [discriminate|].
      cbn [is_bid] in Eb. apply andb_true_iff in Eb as [_ Eb].
      apply negb_true_iff in Eb. now rewrite Eb.
Qed.

(** The object handed to the solver by [parse_input_stream]. *)
Lemma encode_spec (slv : Solver) (fl : bool) (stream : list string)
    (self : Auction) :
  encode (Auction_init slv fl) stream = Ok self ->
  exists self1,
    for_each parse_line (reader stream) (Auction_init slv fl) = Ok self1 /\
    read_inv self1 /\
    self =
      let self2 := manage_incompatibilities self1 (goods self1) in
      if fl then self2
      else with_formula self2
             (mkFormula (num_vars (formula self2))
                (hard (formula self2)
                 ++ map (agent_clause self2) (auctioneers self2))
                (soft (formula self2))).
Proof.
  unfold encode. intros H. apply bind_Ok in H as [self1 [H1 H2]].
  exists self1. split; auto.
  assert (Hinv : read_inv self1)
    by (eapply read_inv_loop; [apply read_inv_init | exact H1]).
  split; auto.
  destruct (read_fields _ _ _ H1) as (Hf & _).
  destruct (manage_incompatibilities_ext self1 (goods self1))
    as (Hf2 & _ & _ & Ha2 & _).
  cbv zeta in H2 |- *. rewrite Hf2, Hf in H2. cbn [Auction_init flag] in H2.
  destruct fl; [now inversion H2|].
  rewrite auctioneer_clauses_spec in H2.
  - cbn [bind] in H2. now inversion H2.
  - rewrite Ha2. now apply read_inv_nonempty.
Qed.

Lemma parse_input_stream_encode (self : Auction) (stream : list string) :
  parse_input_stream self stream =
    (self' <- encode self stream ;;
     sol <- solver self' (formula self') ;;
     Ok (self', sol)).
Proof.
  unfold parse_input_stream, encode, check_all_auctioneers_win.
  destruct (for_each parse_line (reader stream) self) as [self1|e]; cbn [bind]; auto.
  destruct (flag _); cbn [bind]; auto.
  destruct (auctioneer_clauses _ _) as [f|e]; cbn [bind]; auto.
Qed.

Lemma encode_fields (slv : Solver) (fl : bool) (stream : list string)
    (self : Auction) :
  encode (Auction_init slv fl) stream = Ok self ->
  flag self = fl /\ solver self = slv /\
  auctions self = declared_bids stream /\
  auctioneers self = declared_auctioneers stream /\
  num_vars (formula self) = Z.of_nat (List.length (auctions self)) /\
  soft (formula self) = soft_of 1 (auctions self) /\
  Forall (fun b => exists w, bid_price b = Ok w) (auctions self).
Proof.
  intros H. apply encode_spec in H as (self1 & Hrun & Hinv & ->).
  destruct (read_fields _ _ _ Hrun) as (Hf & Hs & Ha & Hau).
  cbn [Auction_init flag solver auctions auctioneers app] in Hf, Hs, Ha, Hau.
  destruct (manage_incompatibilities_ext self1 (goods self1))
    as (Hf2 & Hs2 & _ & Ha2 & Hau2 & Hn2 & Hso2 & _).
  destruct Hinv as [Hv Hso _ _ Hb].
  cbv zeta.
  destruct fl; unfold with_formula;
    cbn [flag solver auctions auctioneers formula num_vars soft];
    rewrite ?Hf2, ?Hs2, ?Ha2, ?Hau2, ?Hn2, ?Hso2;
    repeat split; auto.
Qed.

Lemma soft_of_range (bids : list (list string)) :
  forall v,
    Forall (fun cw => exists u, fst cw = [u] /\
                        v <= u < v + Z.of_nat (List.length bids))
      (soft_of v bids).
Proof.
  induction bids as [|b r IH]; intros v; cbn [soft_of List.length].
  - constructor.
  - assert (Hr : Forall (fun cw => exists u, fst cw = [u] /\
                           v <= u < v + Z.of_nat (S (List.length r)))
                   (soft_of (v + 1) r)).
    { eapply Forall_impl; [|apply (IH (v + 1))].
      intros cw [u [Hu Hb]]. exists u. split; auto. lia. }
    destruct (bid_price b) as [w|e]; auto.
    destruct (w =? TOP_WEIGHT); auto.
    constructor; auto. exists v. cbn [fst]. split; auto. lia.
Qed.

Lemma hard_of_range (bids : list (list string)) :
  forall v,
    Forall (fun c => exists u, c = [u] /\
                       v <= u < v + Z.of_nat (List.length bids))
      (hard_of v bids).
Proof.
  induction bids as [|b r IH]; intros v; cbn [hard_of List.length].
  - constructor.
  - assert (Hr : Forall (fun c => exists u, c = [u] /\
                          v <= u < v + Z.of_nat (S (List.length r)))
                   (hard_of (v + 1) r)).
    { eapply Forall_impl; [|apply (IH (v + 1))].
      intros cw [u [Hu Hb]]. exists u. split; auto. lia. }
    destruct (bid_price b) as [w|e]; auto.
    destruct (w =? TOP_WEIGHT); auto.
    constructor; auto. exists v. split; auto. lia.
Qed.

Lemma claims_bound (bids : list (list string)) (g : string) (v : Z) :
  claims bids g v -> 1 <= v <= Z.of_nat (List.length bids).
Proof.
  intros [Hv [bid [Hit _]]]. split; auto.
  assert (v - 1 < Z.of_nat (List.length bids))
    by (eapply item_Ok_bound; [|exact Hit]; lia).
  lia.
Qed.

Lemma agent_clause_range (self : Auction) (a : string) :
  Forall (fun i => 1 <= i <= Z.of_nat (List.length (auctions self)))
    (agent_clause self a).
Proof.
  unfold agent_clause. apply Forall_flat_map. apply Forall_forall.
  intros b _. destruct b as [|t b]; [constructor|].
  destruct (String.eqb a t); [|constructor].
  destruct (Py.index bid_eqb (auctions self) (t :: b)) as [i|e] eqn:E;
    [|constructor].
  apply index_bound in E. constructor; [lia | constructor].
Qed.

Lemma in_range_pos (n v : Z) : 1 <= v <= n -> in_range n v.
Proof. unfold in_range. lia. Qed.

Lemma in_range_neg (n v : Z) : 1 <= v <= n -> in_range n (- v).
Proof. unfold in_range. lia. Qed.

Lemma encode_in_range (slv : Solver) (fl : bool) (stream : list string)
    (self : Auction) :
  encode (Auction_init slv fl) stream = Ok self ->
  formula_in_range (formula self).
Proof.
  intros H. apply encode_spec in H as (self1 & Hrun & Hinv & ->).
  destruct (manage_incompatibilities_ext self1 (goods self1))
    as (_ & _ & _ & Ha2 & _ & Hn2 & Hso2 & extra & Hh2 & Hex & _).
  destruct Hinv as [Hv Hso Hh Hg Hb].
  set (self2 := manage_incompatibilities self1 (goods self1)) in *.
  assert (Hsoft : Forall (fun cw => Forall (in_range (num_vars (formula self2)))
                                      (fst cw)) (soft (formula self2))).
  { rewrite Hso2, Hso, Hn2, Hv.
    eapply Forall_impl; [|apply soft_of_range].
    intros cw [u [-> Hu]]. constructor; [|constructor].
    apply in_range_pos. lia. }
  assert (Hhard : Forall (Forall (in_range (num_vars (formula self2))))
                    (hard (formula self2))).
  { rewrite Hh2, Hh, Hn2, Hv. apply Forall_app. split.
    - eapply Forall_impl; [|apply hard_of_range].
      intros c [u [-> Hu]]. constructor; [|constructor].
      apply in_range_pos. lia.
    - eapply Forall_impl; [|exact Hex].
      intros c (g & v1 & v2 & -> & H1 & H2 & _).
      apply Hg, claims_bound in H1. apply Hg, claims_bound in H2.
      constructor; [|constructor; [|constructor]]; now apply in_range_neg. }
  cbv zeta. destruct fl; [split; auto|].
  unfold with_formula. cbn [formula]. split; cbn [num_vars hard soft]; auto.
  apply Forall_app. split; auto.
  apply Forall_forall. intros c Hc. apply in_map_iff in Hc as [a [<- _]].
  eapply Forall_impl; [|apply agent_clause_range].
  intros i Hi. apply in_range_pos. rewrite Hn2, Hv, <- Ha2. exact Hi.
Qed.

Lemma ranged_add (N : Z) (c : list Z) (w : Z) (f : WCNFFormula) :
  Forall (in_range N) c -> ranged N f -> ranged N (add_clause c w f).
Proof.
  intros Hc [Hn Hr]. split.
  - now rewrite num_vars_add_clause.
  - apply add_clause_in_range; auto. now rewrite Hn.
Qed.

Lemma ranged_empty (N : Z) : ranged N (mkFormula N [] []).
Proof. repeat split; constructor. Qed.

Lemma nodes_item (N i v : Z) :
  Py.item (Py.range (0 + 1) (0 + 1 + N)) i = Ok v -> 1 <= v <= N.
Proof. intros H. apply item_In, range_In in H. lia. Qed.

Lemma unpack2_Ok (e : list Z) (a b : Z) : unpack2 e = Ok (a, b) -> e = [a; b].
Proof.
  destruct e as [|x [|y [|z r]]]; cbn; try discriminate.
  intros H. now inversion H.
Qed.

Lemma min_vertex_cover_in_range (g : Graph) (f : WCNFFormula) :
  min_vertex_cover_formula g = Ok f -> formula_in_range f.
Proof.
  unfold min_vertex_cover_formula. rewrite new_vars_spec.
  cbn [new_formula num_vars hard soft].
  set (N := Z.of_nat (Z.to_nat (n_nodes g))).
  intros H.
  apply (for_each_inv (ranged N)) in H; [apply H| |].
  - intros e t t' _ Ht He.
    apply bind_Ok in He as [[n1 n2] [_ He]].
    apply bind_Ok in He as [a [Ha He]].
    apply bind_Ok in He as [b [Hb He]]. inversion He; subst.
    apply nodes_item in Ha. apply nodes_item in Hb.
    apply ranged_add; auto.
    constructor; [|constructor; [|constructor]]; now apply in_range_pos.
  - apply fold_left_inv; [|apply ranged_empty].
    intros n t Hn Ht. apply range_In in Hn.
    apply ranged_add; auto. constructor; [|constructor].
    apply in_range_neg. lia.
Qed.

Lemma max_cut_in_range (g : Graph) (f : WCNFFormula) :
  max_cut_formula g = Ok f -> formula_in_range f.
Proof.
  unfold max_cut_formula. rewrite new_vars_spec.
  cbn [new_formula num_vars hard soft].
  set (N := Z.of_nat (Z.to_nat (n_nodes g))).
  intros H.
  apply (for_each_inv (ranged N)) in H; [apply H| |apply ranged_empty].
  intros e t t' _ Ht He.
  apply bind_Ok in He as [[n1 n2] [_ He]].
  apply bind_Ok in He as [a [Ha He]].
  apply bind_Ok in He as [b [Hb He]]. inversion He; subst.
  apply nodes_item in Ha. apply nodes_item in Hb.
  apply ranged_add; [|apply ranged_add; auto].
  - constructor; [|constructor; [|constructor]]; now apply in_range_neg.
  - constructor; [|constructor; [|constructor]]; now apply in_range_pos.
Qed.

Lemma add_non_edges_ranged (N n : Z) (matrix : list (list (option Z)))
    (f f' : WCNFFormula) :
  n <= N -> ranged N f -> add_non_edges n matrix f = Ok f' -> ranged N f'.
Proof.
  intros Hn Hf H. unfold add_non_edges in H.
  apply (for_each_inv (ranged N)) in H; auto.
  intros i1 t t' Hi1 Ht Hrow. apply range_In in Hi1.
  apply (for_each_inv (ranged N)) in Hrow; auto.
  intros i2 u u' Hi2 Hu Hcell. apply range_In in Hi2.
  apply bind_Ok in Hcell as [row [_ Hcell]].
  apply bind_Ok in Hcell as [cell [_ Hcell]].
  assert (Hadd : ranged N
                   (add_clause [- (i1 + 1); - (i2 + 1)] TOP_WEIGHT u)).
  { apply ranged_add; auto.
    constructor; [|constructor; [|constructor]]; apply in_range_neg; lia. }
  destruct cell as [[|p|p]|]; try (inversion Hcell; subst; exact Hadd).
  destruct p; inversion Hcell; subst; auto.
Qed.

Lemma max_clique_in_range (g : Graph) (f : WCNFFormula) :
  max_clique_formula g = Ok f -> formula_in_range f.
Proof.
  unfold max_clique_formula. rewrite new_vars_spec.
  cbn [new_formula num_vars hard soft].
  set (N := Z.of_nat (Z.to_nat (n_nodes g))).
  destruct (rev (Py.range (0 + 1) (0 + 1 + N))) as [|n r] eqn:E;
    [discriminate|].
  intros H. apply bind_Ok in H as [matrix [_ H]].
  assert (Hn : In n (Py.range (0 + 1) (0 + 1 + N))).
  { apply in_rev. rewrite E. now left. }
  apply range_In in Hn.
  apply (add_non_edges_ranged N) in H; [apply H | lia |].
  apply fold_left_inv; [|apply ranged_empty].
  intros k t Hk Ht. apply range_In in Hk.
  apply ranged_add; auto. constructor; [|constructor].
  apply in_range_pos. lia.
Qed.

(** C7: every literal of a formula built by one of the four reducers
    (auction, minimum vertex cover, maximum clique, maximum cut) refers
    to a variable of [1 .. num_vars] of that formula. *)
Theorem literals_in_range (f : WCNFFormula) :
  constructed f -> formula_in_range f.
Proof.
  intros [(slv & fl & stream & self & H & ->) | [[g H] | [[g H] | [g H]]]].
  - eapply encode_in_range; eauto.
  - eapply min_vertex_cover_in_range; eauto.
  - eapply max_clique_in_range; eauto.
  - eapply max_cut_in_range; eauto.
Qed.

Lemma flat_map_nil {A B : Type} (F : A -> list B) (l : list A) :
  (forall x, In x l -> F x = []) -> flat_map F l = [].
Proof.
  induction l as [|x r IH]; intros H; cbn [flat_map]; auto.
  rewrite (H x) by now left. rewrite IH; auto.
  intros y Hy. apply H. now right.
Qed.

Lemma agent_clause_nil (self : Auction) (a : string) :
  (forall bid, In bid (auctions self) -> hd_error bid <> Some a) ->
  agent_clause self a = [].
Proof.
  intros H. unfold agent_clause. apply flat_map_nil.
  intros b Hb. destruct b as [|t b]; auto.
  destruct (String.eqb a t) eqn:E; auto.
  apply String.eqb_eq in E. subst t. exfalso. now apply (H _ Hb).
Qed.

Lemma sat_hard_empty_clause (m : list Z) (f : WCNFFormula) :
  In [] (hard f) -> sat_hard m f = false.
Proof.
  intros H. unfold sat_hard.
  destruct (forallb (clause_sat m) (hard f)) eqn:E; auto.
  rewrite forallb_forall in E. specialize (E _ H). discriminate.
Qed.

Lemma infeasible_only (f : WCNFFormula) (r : result solution) :
  (forall m, sat_hard m f = false) -> SolverPort f r -> r = Raise Infeasible.
Proof.
  intros Hun Hr. destruct r as [[opt m]|e]; cbn [SolverPort] in Hr.
  - destruct Hr as (_ & Hs & _). rewrite Hun in Hs. discriminate.
  - destruct e; tauto.
Qed.

(** C9: with the minimum-winning-bids mode enabled, a declared
    auctioneer that owns no bid gets an empty hard clause; the formula
    is then unsatisfiable and a solver honouring its contract ends the
    run with [Infeasible], whatever the bids are. *)
Theorem missing_auctioneer_infeasible (slv : Solver) (stream : list string)
    (self : Auction) (a : string) :
  encode (Auction_init slv false) stream = Ok self ->
  In a (declared_auctioneers stream) ->
  (forall bid, In bid (declared_bids stream) -> hd_error bid <> Some a) ->
  agent_clause self a = [] /\
  In [] (hard (formula self)) /\
  (forall m, sat_hard m (formula self) = false) /\
  (forall r, SolverPort (formula self) r -> r = Raise Infeasible) /\
  (SolverPort (formula self) (slv (formula self)) ->
   parse_input_stream (Auction_init slv false) stream = Raise Infeasible).
Proof.
  intros Henc Ha Hnone.
  destruct (encode_fields _ _ _ _ Henc) as (_ & Hslv & Hbids & Hau & _).
  assert (Hnil : agent_clause self a = []).
  { apply agent_clause_nil. now rewrite Hbids. }
  assert (Hin : In [] (hard (formula self))).
  { pose proof Henc as Hs. apply encode_spec in Hs as (self1 & _ & _ & Hs).
    cbv zeta in Hs. unfold with_formula in Hs.
    assert (Hag : forall x, agent_clause
                    (manage_incompatibilities self1 (goods self1)) x
                  = agent_clause self x).
    { intros x. unfold agent_clause. rewrite Hs. reflexivity. }
    rewrite Hs at 1. cbn [formula hard]. apply in_or_app. right.
    apply in_map_iff. exists a. split.
    - now rewrite Hag.
    - rewrite <- Hau in Ha. rewrite Hs in Ha. exact Ha. }
  assert (Hun : forall m, sat_hard m (formula self) = false)
    by (intros m; now apply sat_hard_empty_clause).
  repeat split; auto.
  - intros r. now apply infeasible_only.
  - intros Hport. rewrite parse_input_stream_encode, Henc. cbn [bind].
    rewrite Hslv. apply infeasible_only in Hport; auto.
    now rewrite Hport.
Qed.

Lemma hard_of_NoDup (bids : list (list string)) :
  forall v, NoDup (hard_of v bids).
Proof.
  induction bids as [|b r IH]; intros v; cbn [hard_of].
  - constructor.
  - destruct (bid_price b) as [w|e]; auto.
    destruct (w =? TOP_WEIGHT); auto.
    constructor; auto. intros Hin.
    pose proof (hard_of_range r (v + 1)) as Hr.
    rewrite Forall_forall in Hr. destruct (Hr _ Hin) as [u [Hu Hb]].
    inversion Hu. lia.
Qed.

Lemma agent_clause_not_negative (self : Auction) (a : string) (v1 v2 : Z) :
  1 <= v1 -> agent_clause self a <> [- v1; - v2].
Proof.
  intros Hv Heq. pose proof (agent_clause_range self a) as Hr.
  rewrite Heq in Hr. inversion Hr; subst. lia.
Qed.

(** The hard clauses of the object handed to the solver: those left by
    [manage_incompatibilities], pairwise distinct, followed in
    minimum-winning-bids mode by the clauses of the auctioneers. *)
Lemma encode_hard (slv : Solver) (fl : bool) (stream : list string)
    (self : Auction) :
  encode (Auction_init slv fl) stream = Ok self ->
  exists hs,
    NoDup hs /\
    hard (formula self) =
      hs ++ (if fl then []
             else map (agent_clause self) (auctioneers self)) /\
    forall g v1 v2,
      claims (declared_bids stream) g v1 ->
      claims (declared_bids stream) g v2 ->
      v1 < v2 -> In [- v1; - v2] hs.
Proof.
  intros Henc.
  destruct (encode_fields _ _ _ _ Henc) as (_ & _ & Hbids & _).
  pose proof Henc as Hs. apply encode_spec in Hs as (self1 & Hrun & Hinv & Hs).
  set (self2 := manage_incompatibilities self1 (goods self1)) in *.
  destruct (manage_incompatibilities_ext self1 (goods self1))
    as (_ & _ & _ & Ha2 & Hau2 & _ & _ & extra & Hh2 & _ & Hnd).
  fold self2 in Ha2, Hau2, Hh2, Hnd.
  assert (Hbids1 : auctions self1 = declared_bids stream).
  { rewrite <- Hbids, Hs. cbv zeta. destruct fl; now rewrite <- Ha2. }
  exists (hard (formula self2)). split; [|split].
  - apply Hnd. rewrite (ri_hard _ Hinv). apply hard_of_NoDup.
  - rewrite Hs at 1. cbv zeta. destruct fl.
    + now rewrite app_nil_r.
    + unfold with_formula. cbn [formula hard]. f_equal.
      assert (Hag : forall x, agent_clause self2 x = agent_clause self x)
        by (intros x; unfold agent_clause; rewrite Hs; reflexivity).
      rewrite Hs at 2. cbn [auctioneers with_formula].
      apply map_ext. exact Hag.
  - intros g v1 v2 H1 H2 Hlt. rewrite <- Hbids1 in H1, H2.
    apply (ri_goods _ Hinv) in H1. apply (ri_goods _ Hinv) in H2.
    eapply manage_incompatibilities_adds; eauto.
Qed.

(** C2: after the auction formula is built, every two bids [v1 < v2]
    that claim a common good are separated by the hard clause
    [[-v1, -v2]], which occurs exactly once; the hard clauses left by
    [manage_incompatibilities] are pairwise distinct (those that follow
    them, if any, are the clauses of the auctioneers). *)
Theorem incompatibility_clauses (slv : Solver) (fl : bool)
    (stream : list string) (self : Auction) :
  encode (Auction_init slv fl) stream = Ok self ->
  (forall g v1 v2,
      claims (declared_bids stream) g v1 ->
      claims (declared_bids stream) g v2 ->
      v1 < v2 ->
      In [- v1; - v2] (hard (formula self)) /\
      count_occ clause_eq_dec (hard (formula self)) [- v1; - v2] = 1%nat) /\
  (exists hs,
      NoDup hs /\
      hard (formula self) =
        hs ++ (if fl then []
               else map (agent_clause self) (auctioneers self))).
Proof.
  intros Henc.
  destruct (encode_hard _ _ _ _ Henc) as (hs & Hnd & Hhard & Hadds).
  split; [|eauto].
  intros g v1 v2 H1 H2 Hlt.
  assert (Hv1 : 1 <= v1) by (destruct H1; auto).
  pose proof (Hadds g v1 v2 H1 H2 Hlt) as Hin.
  rewrite Hhard. split; [apply in_or_app; now left|].
  rewrite count_occ_app.
  rewrite (proj1 (NoDup_count_occ' clause_eq_dec _) Hnd _ Hin).
  replace (count_occ clause_eq_dec
             (if fl then [] else map (agent_clause self) (auctioneers self))
             [- v1; - v2]) with O; [reflexivity|].
  symmetry. apply count_occ_not_In. destruct fl; [tauto|].
  intros Hc. apply in_map_iff in Hc as [a [Ha _]].
  now apply agent_clause_not_negative in Ha.
Qed.

Lemma complete_abs (f : WCNFFormula) (m : list Z) :
  complete f m = true -> map Z.abs m = Py.range 1 (num_vars f + 1).
Proof. unfold complete. apply clause_eqb_eq. Qed.

Lemma positive_literals_range (f : WCNFFormula) (m : list Z) (v : Z) :
  complete f m = true -> In v (positive_literals m) -> 1 <= v <= num_vars f.
Proof.
  intros Hc Hv. unfold positive_literals in Hv.
  apply filter_In in Hv as [Hin Hpos]. apply Z.ltb_lt in Hpos.
  assert (Habs : In (Z.abs v) (map Z.abs m)) by now apply in_map.
  rewrite (complete_abs _ _ Hc) in Habs. apply range_In in Habs. lia.
Qed.

Lemma print_bids_ok (self : Auction) (vs : list Z) :
  Forall (fun b => exists w, bid_price b = Ok w) (auctions self) ->
  Forall (fun v => 1 <= v <= Z.of_nat (List.length (auctions self))) vs ->
  snd (print_bids self vs) = None.
Proof.
  intros Hb. induction vs as [|v r IH]; intros Hvs; cbn [print_bids]; auto.
  inversion Hvs as [|? ? Hv Hr]; subst.
  unfold bid_line.
  destruct (item_in (auctions self) (v - 1) ltac:(lia)) as [b Hit].
  rewrite Hit. cbn [bind].
  rewrite Forall_forall in Hb.
  destruct (Hb b (item_In _ _ _ Hit)) as [w Hw].
  unfold bid_price in Hw. apply bind_Ok in Hw as [p [Hp _]].
  destruct b as [|t b]; [discriminate|].
  rewrite item_0_cons, Hp. cbn [bind].
  specialize (IH Hr). destruct (print_bids self r) as [out e].
  cbn [snd] in *. exact IH.
Qed.

(** The decoder does not fail on the answer of the solver. *)
Lemma print_bids_solver (slv : Solver) (fl : bool) (stream : list string)
    (self : Auction) (model : list Z) :
  encode (Auction_init slv fl) stream = Ok self ->
  complete (formula self) model = true ->
  snd (print_bids self (positive_literals model)) = None.
Proof.
  intros Henc Hc.
  destruct (encode_fields _ _ _ _ Henc) as (_ & _ & _ & _ & Hn & _ & Hb).
  apply print_bids_ok; auto.
  apply Forall_forall. intros v Hv. rewrite <- Hn.
  eapply positive_literals_range; eauto.
Qed.


Lemma gain_cost (model : list Z) (f : WCNFFormula) :
  sum_soft_weights f - cost model f = gain model (soft f).
Proof.
  unfold sum_soft_weights, cost, gain.
  induction (soft f) as [|cw l IH]; cbn [fold_right]; [reflexivity|].
  destruct (clause_sat model (fst cw)); lia.
Qed.

Lemma existsb_eqb_above (x lo : Z) (ms : list Z) :
  map Z.abs ms = Py.range lo (lo + Z.of_nat (List.length ms)) ->
  0 <= x < lo -> existsb (Z.eqb x) ms = false.
Proof.
  intros Habs Hx. destruct (existsb (Z.eqb x) ms) eqn:E; auto.
  apply existsb_exists in E as [y [Hy Heq]]. apply Z.eqb_eq in Heq. subst y.
  assert (Hin : In (Z.abs x) (map Z.abs ms)) by now apply in_map.
  rewrite Habs in Hin. apply range_In in Hin. lia.
Qed.

Lemma abs_range_cons (m : Z) (ms : list Z) (v : Z) :
  map Z.abs (m :: ms) = Py.range v (v + Z.of_nat (List.length (m :: ms))) ->
  Z.abs m = v /\
  map Z.abs ms = Py.range (v + 1) (v + 1 + Z.of_nat (List.length ms)).
Proof.
  cbn [map List.length]. rewrite range_cons by lia.
  intros H. inversion H as [[H1 H2]]. split; auto.
  rewrite H2. f_equal. lia.
Qed.

(** In a complete model the literal [v + j] holds exactly when the
    entry at its index is positive. *)
Lemma lit_true_suffix (ms : list Z) :
  forall v j,
    1 <= v ->
    map Z.abs ms = Py.range v (v + Z.of_nat (List.length ms)) ->
    (j < List.length ms)%nat ->
    existsb (Z.eqb (v + Z.of_nat j)) ms = (0 <? nth j ms 0).
Proof.
  induction ms as [|m ms IH]; intros v j Hv Habs Hj; [cbn in Hj; lia|].
  apply abs_range_cons in Habs as [Hm Hrest]. cbn [existsb nth].
  destruct j as [|j].
  - rewrite (existsb_eqb_above _ (v + 1) ms) by (auto; lia).
    rewrite orb_false_r.
    destruct (0 <? m) eqn:E.
    + apply Z.ltb_lt in E. apply Z.eqb_eq. lia.
    + apply Z.ltb_ge in E. apply Z.eqb_neq. lia.
  - assert (E : (v + Z.of_nat (S j) =? m) = false) by (apply Z.eqb_neq; lia).
    rewrite E. cbn [orb].
    replace (v + Z.of_nat (S j)) with (v + 1 + Z.of_nat j) by lia.
    apply IH; auto; [lia | cbn in Hj; lia].
Qed.

Lemma gain_soft_of (model : list Z) (bids : list (list string)) :
  forall v ms,
    List.length ms = List.length bids ->
    (forall j, (j < List.length ms)%nat ->
               clause_sat model [v + Z.of_nat j] = (0 <? nth j ms 0)) ->
    Forall (fun b => exists w, bid_price b = Ok w) bids ->
    Forall (fun b => bid_price b = Ok TOP_WEIGHT -> TOP_WEIGHT = 0) bids ->
    gain model (soft_of v bids) = won ms bids.
Proof.
  induction bids as [|b r IH]; intros v ms Hlen Hsat Hp Hnt.
  - destruct ms; [reflexivity | discriminate].
  - destruct ms as [|m ms]; [discriminate|].
    inversion Hp as [|? ? [w Hw] Hp']; subst.
    inversion Hnt as [|? ? Hnw Hnt']; subst.
    assert (Hr : gain model (soft_of (v + 1) r) = won ms r).
    { apply IH; auto.
      intros j Hj. specialize (Hsat (S j) ltac:(cbn; lia)).
      cbn [nth] in Hsat. rewrite <- Hsat. do 2 f_equal. lia. }
    cbn [soft_of won]. unfold price_or_0. rewrite Hw.
    destruct (w =? TOP_WEIGHT) eqn:E.
    + apply Z.eqb_eq in E. subst w. rewrite (Hnw Hw), Hr.
      now destruct (0 <? m).
    + cbn [gain fold_right fst snd].
      pose proof (Hsat O ltac:(cbn; lia)) as H0.
      replace (v + Z.of_nat 0) with v in H0 by lia. cbn [nth] in H0.
      rewrite H0. f_equal. exact Hr.
Qed.

Lemma price_of_nth (self : Auction) (v : Z) (b : list string) (w : Z) :
  1 <= v -> nth_error (auctions self) (Z.to_nat (v - 1)) = Some b ->
  bid_price b = Ok w -> price_of self v = Ok w.
Proof.
  intros Hv Hn Hw. unfold price_of. rewrite item_nonneg by lia.
  rewrite Hn. cbn [bind]. exact Hw.
Qed.

Lemma sum_prices_won (self : Auction) (bids : list (list string)) :
  forall v ms,
    1 <= v ->
    map Z.abs ms = Py.range v (v + Z.of_nat (List.length ms)) ->
    List.length ms = List.length bids ->
    (forall j b, nth_error bids j = Some b ->
                 price_of self (v + Z.of_nat j) = Ok (price_or_0 b)) ->
    sum_prices self (positive_literals ms) = Ok (won ms bids).
Proof.
  induction bids as [|b r IH]; intros v ms Hv Habs Hlen Hprice.
  - destruct ms; [reflexivity | discriminate].
  - destruct ms as [|m ms]; [discriminate|].
    apply abs_range_cons in Habs as [Hm Hrest].
    assert (Hr : sum_prices self (positive_literals ms) = Ok (won ms r)).
    { apply (IH (v + 1)); auto; [lia|].
      intros j c Hj. specialize (Hprice (S j) c Hj).
      rewrite <- Hprice. f_equal. lia. }
    cbn [positive_literals filter won]. fold (positive_literals ms).
    destruct (0 <? m) eqn:E.
    + apply Z.ltb_lt in E. assert (m = v) by lia. subst m.
      cbn [sum_prices].
      specialize (Hprice O b eq_refl).
      replace (v + Z.of_nat 0) with v in Hprice by lia.
      rewrite Hprice, Hr. reflexivity.
    + rewrite Hr. reflexivity.
Qed.

Lemma print_solution_head (self : Auction) (opt : Z) (bids : list Z) :
  hd_error (fst (print_solution self (opt, bids))) =
    Some ("Benefit: " ++ Py.str (benefit self opt))%string.
Proof.
  unfold print_solution.
  destruct (print_bids self (positive_literals bids)) as [out [e|]];
    [reflexivity|].
  now destruct (_ <? _).
Qed.

Lemma nth_error_last {A : Type} (x : A) (r : list A) (d : A) :
  nth_error (x :: r) (List.length r) = Some (last (x :: r) d).
Proof.
  revert x. induction r as [|y r IH]; intros x; [reflexivity|].
  cbn [List.length nth_error]. now rewrite IH.
Qed.

Lemma item_last {A : Type} (x : A) (r : list A) (d : A) :
  Py.item (x :: r) (-1) = Ok (last (x :: r) d).
Proof.
  assert (E1 : (Z.of_nat (List.length r) <? 0) = false)
    by (apply Z.ltb_ge; lia).
  assert (E2 : (Z.of_nat (List.length (x :: r)) <=? Z.of_nat (List.length r))
               = false)
    by (apply Z.leb_gt; cbn [List.length]; lia).
  unfold Py.item. cbv zeta.
  change (-1 <? 0) with true. cbv iota.
  replace (-1 + Z.of_nat (List.length (x :: r)))
    with (Z.of_nat (List.length r)) by (cbn [List.length]; lia).
  rewrite E1, E2. cbn [orb]. rewrite Nat2Z.id.
  now rewrite (nth_error_last x r d).
Qed.

(** The line printed for a winning variable is the line of the record
    found at its 1-based position. *)
Lemma bid_line_row (self : Auction) (v : Z) (bid : list string) :
  Py.item (auctions self) (v - 1) = Ok bid -> bid <> [] ->
  bid_line self v = Ok (report_line bid).
Proof.
  intros Hit Hne. unfold bid_line. rewrite Hit. cbn [bind].
  destruct bid as [|t r]; [contradiction|].
  rewrite item_0_cons, (item_last t r ""). cbn [bind]. reflexivity.
Qed.

Lemma print_bids_rows (self : Auction) (vs : list Z)
    (rows : list (list string)) :
  Forall2 (fun v bid => Py.item (auctions self) (v - 1) = Ok bid) vs rows ->
  Forall (fun bid => bid <> []) rows ->
  print_bids self vs = (map report_line rows, None).
Proof.
  induction 1 as [|v bid vs rows Hit Hrest IH]; intros Hne; [reflexivity|].
  inversion Hne as [|? ? Hb Hne']; subst.
  cbn [print_bids map]. rewrite (bid_line_row self v bid Hit Hb).
  now rewrite (IH Hne').
Qed.

Lemma print_solution_rows (self : Auction) (opt : Z) (bids : list Z)
    (out : list string) :
  print_bids self (positive_literals bids) = (out, None) ->
  exists verdict,
    (verdict = "Valid solution" \/ verdict = "Invalid solution") /\
    print_solution self (opt, bids) =
      (("Benefit: " ++ Py.str (benefit self opt))%string
         :: out ++ [verdict], None).
Proof.
  intros H. unfold print_solution. rewrite H.
  destruct (_ <? _).
  - exists "Invalid solution". split; [now right | reflexivity].
  - exists "Valid solution". split; [now left | reflexivity].
Qed.

Lemma rows_exist {A : Type} (l : list A) (vs : list Z) :
  Forall (fun v => 1 <= v <= Z.of_nat (List.length l)) vs ->
  exists rows,
    Forall2 (fun v b => Py.item l (v - 1) = Ok b) vs rows /\
    Forall (fun b => In b l) rows.
Proof.
  induction 1 as [|v vs Hv Hvs (rows & Hrows & Hin)].
  - exists []. split; constructor.
  - destruct (item_in l (v - 1) ltac:(lia)) as [b Hb].
    exists (b :: rows). split; constructor; auto.
    eapply item_In; eauto.
Qed.

Lemma sum_prices_rows (self : Auction) (vs : list Z)
    (rows : list (list string)) :
  Forall2 (fun v bid => Py.item (auctions self) (v - 1) = Ok bid) vs rows ->
  Forall (fun bid => exists w, bid_price bid = Ok w) rows ->
  sum_prices self vs = Ok (zsum (map price_or_0 rows)).
Proof.
  induction 1 as [|v bid vs rows Hit Hrest IH]; intros Hp; [reflexivity|].
  inversion Hp as [|? ? [w Hw] Hp']; subst.
  cbn [sum_prices map zsum fold_right]. unfold price_of. rewrite Hit.
  cbn [bind]. unfold price_or_0 at 1. rewrite Hw. cbn [bind].
  rewrite (IH Hp'). reflexivity.
Qed.

(** C1: for an auction and a solver answer [(opt, model)] honouring the
    contract, the benefit computed by the decoder,
    [sum_soft_weights - opt], is the total price of the winning bids,
    the bids whose variable is positive in the model, each looked up at
    its 1-based position among the bids in declaration order.  The
    decoder prints the benefit, then, for each winning variable [v] in
    the order of the model, the line of the record at position [v] of
    the declared bids, then the verdict, and the benefit is the sum of
    the prices of exactly these records.  A bid priced at the sentinel
    weight gets a hard clause instead of a soft one, which leaves the
    sums unchanged only if that weight is 0: no bid is priced at a
    sentinel weight other than 0. *)
Theorem benefit_is_revenue (slv : Solver) (fl : bool) (stream : list string)
    (self : Auction) (opt : Z) (model : list Z) :
  encode (Auction_init slv fl) stream = Ok self ->
  SolverPort (formula self) (Ok (opt, model)) ->
  Forall (fun b => bid_price b = Ok TOP_WEIGHT -> TOP_WEIGHT = 0)
    (declared_bids stream) ->
  auctions self = declared_bids stream /\
  hd_error (fst (print_solution self (opt, model))) =
    Some ("Benefit: " ++ Py.str (sum_soft_weights (formula self) - opt))%string /\
  benefit self opt = sum_soft_weights (formula self) - opt /\
  sum_prices self (positive_literals model) = Ok (benefit self opt) /\
  (forall v, In v (positive_literals model) ->
     exists bid, Py.item (declared_bids stream) (v - 1) = Ok bid /\
                 price_of self v = bid_price bid /\
                 bid_line self v = Ok (report_line bid)) /\
  exists rows verdict,
    Forall2 (fun v bid => Py.item (declared_bids stream) (v - 1) = Ok bid)
      (positive_literals model) rows /\
    print_solution self (opt, model) =
      (("Benefit: " ++ Py.str (benefit self opt))%string
         :: map report_line rows ++ [verdict], None) /\
    benefit self opt = zsum (map price_or_0 rows).
Proof.
  intros Henc (Hc & _ & Hopt & _) Hnt.
  destruct (encode_fields _ _ _ _ Henc) as (_ & _ & Hbids & _ & Hn & Hso & Hb).
  rewrite <- Hbids in Hnt |- *.
  assert (Habs : map Z.abs model =
                 Py.range 1 (1 + Z.of_nat (List.length model))).
  { pose proof (complete_abs _ _ Hc) as Ha.
    assert (Hl : List.length model = Z.to_nat (num_vars (formula self) + 1 - 1)).
    { rewrite <- (length_map Z.abs), Ha. apply range_length. }
    rewrite Ha. f_equal. lia. }
  assert (Hlen : List.length model = List.length (auctions self)).
  { pose proof (complete_abs _ _ Hc) as Ha.
    apply (f_equal (@List.length Z)) in Ha.
    rewrite length_map, range_length in Ha. lia. }
  assert (Hwon : benefit self opt = won model (auctions self)).
  { unfold benefit. rewrite Hopt, gain_cost, Hso.
    apply gain_soft_of; auto.
    intros j Hj. cbn [clause_sat existsb]. rewrite orb_false_r.
    unfold lit_true, Py.mem. apply lit_true_suffix; auto. lia. }
  assert (Hsum : sum_prices self (positive_literals model)
                 = Ok (benefit self opt)).
  { rewrite Hwon. apply (sum_prices_won self (auctions self) 1); auto; [lia|].
    intros j b Hj.
    assert (Hin : In b (auctions self)) by (eapply nth_error_In; eauto).
    rewrite Forall_forall in Hb. destruct (Hb b Hin) as [w Hw].
    unfold price_or_0. rewrite Hw.
    apply (price_of_nth self _ b); auto; [lia|].
    replace (Z.to_nat (1 + Z.of_nat j - 1)) with j by lia. exact Hj. }
  split; [reflexivity|]. split; [apply print_solution_head|].
  split; [reflexivity|]. split; [exact Hsum|]. split.
  - intros v Hv.
    pose proof (positive_literals_range _ _ _ Hc Hv) as Hr.
    destruct (item_in (auctions self) (v - 1) ltac:(lia)) as [bid Hit].
    exists bid. split; [exact Hit|]. split.
    + unfold price_of. now rewrite Hit.
    + apply bid_line_row; auto.
      rewrite Forall_forall in Hb.
      destruct (Hb bid (item_In _ _ _ Hit)) as [w Hw].
      eapply bid_price_nonempty; eauto.
  - assert (Hrange : Forall (fun v => 1 <= v
                                      <= Z.of_nat (List.length (auctions self)))
                       (positive_literals model)).
    { apply Forall_forall. intros v Hv.
      pose proof (positive_literals_range _ _ _ Hc Hv). lia. }
    destruct (rows_exist (auctions self) _ Hrange) as (rows & Hrows & Hin).
    assert (Hprices : Forall (fun bid => exists w, bid_price bid = Ok w) rows).
    { rewrite Forall_forall in Hb, Hin |- *. intros b Hr. auto. }
    assert (Hne : Forall (fun bid => bid <> []) rows).
    { rewrite Forall_forall in Hprices |- *. intros b Hr.
      destruct (Hprices b Hr) as [w Hw]. eapply bid_price_nonempty; eauto. }
    destruct (print_solution_rows self opt model _
                (print_bids_rows self _ rows Hrows Hne))
      as (verdict & _ & Hout).
    exists rows, verdict. split; [exact Hrows|]. split; [exact Hout|].
    rewrite (sum_prices_rows self _ rows Hrows Hprices) in Hsum.
    now injection Hsum as <-.
Qed.

Lemma fold_soft (c : Z -> list Z) (w : Z) :
  w <> TOP_WEIGHT ->
  forall (l : list Z) (f : WCNFFormula),
    fold_left (fun f n => add_clause (c n) w f) l f =
      mkFormula (num_vars f) (hard f) (soft f ++ map (fun n => (c n, w)) l).
Proof.
  intros Hw. induction l as [|n l IH]; intros f; cbn [fold_left map].
  - rewrite app_nil_r. now destruct f.
  - rewrite IH, add_clause_soft by auto. cbn [num_vars hard soft].
    now rewrite <- app_assoc.
Qed.

Lemma nodes_range (n : Z) :
  Py.range (0 + 1) (0 + 1 + Z.of_nat (Z.to_nat n)) = Py.range 1 (n + 1).
Proof.
  unfold Py.range.
  replace (Z.to_nat (0 + 1 + Z.of_nat (Z.to_nat n) - (0 + 1)))
    with (Z.to_nat (n + 1 - 1)) by lia.
  reflexivity.
Qed.

Lemma range_item (a b i : Z) :
  0 <= i < b - a -> Py.item (Py.range a b) i = Ok (a + i).
Proof.
  intros Hi. rewrite item_nonneg by lia. unfold Py.range.
  rewrite nth_error_map.
  rewrite (nth_error_nth' _ O) by (rewrite length_seq; lia).
  rewrite seq_nth by lia. cbn [option_map]. f_equal. lia.
Qed.

Lemma node_item (n a : Z) :
  1 <= a <= n -> Py.item (Py.range 1 (n + 1)) (a - 1) = Ok a.
Proof.
  intros Ha. rewrite range_item by lia. f_equal. lia.
Qed.

Lemma well_formed_edge (g : Graph) (e : list Z) :
  well_formed g = true -> In e (edges g) ->
  exists a b, e = [a; b] /\ 1 <= a <= n_nodes g /\ 1 <= b <= n_nodes g /\
              a <> b.
Proof.
  unfold well_formed. rewrite forallb_forall. intros H Hin.
  specialize (H e Hin). destruct e as [|a [|b [|c r]]]; try discriminate.
  repeat (apply andb_true_iff in H as [H ?]).
  exists a, b. repeat split; lia.
Qed.

Lemma vertex_cover_edges (n : Z) (es : list (list Z)) :
  Forall (fun e => exists a b, e = [a; b] /\ 1 <= a <= n /\ 1 <= b <= n) es ->
  forall f,
    for_each
      (fun e f =>
         '(n1, n2) <- unpack2 e ;;
         a <- Py.item (Py.range 1 (n + 1)) (n1 - 1) ;;
         b <- Py.item (Py.range 1 (n + 1)) (n2 - 1) ;;
         Ok (add_clause [a; b] TOP_WEIGHT f))
      es f =
    Ok (mkFormula (num_vars f) (hard f ++ es) (soft f)).
Proof.
  induction 1 as [|e es (a & b & -> & Ha & Hb) Hes IH]; intros f;
    cbn [for_each].
  - rewrite app_nil_r. now destruct f.
  - cbn [unpack2 bind]. rewrite !node_item by auto. cbn [bind].
    rewrite IH, add_clause_hard. cbn [num_vars hard soft].
    now rewrite <- app_assoc.
Qed.

Lemma well_formed_Forall (g : Graph) :
  well_formed g = true ->
  Forall (fun e => exists a b, e = [a; b] /\ 1 <= a <= n_nodes g /\
                               1 <= b <= n_nodes g) (edges g).
Proof.
  intros H. apply Forall_forall. intros e He.
  destruct (well_formed_edge g e H He) as (a & b & ? & ? & ? & _). eauto.
Qed.

(** C5: the minimum-vertex-cover formula of a graph has one variable per
    node, exactly the soft clauses [[-node]] of weight 1, one per node,
    and exactly the hard clauses [[node_a, node_b]], one per edge; the
    cover returned is the list of the positive literals of the model: a
    node is in the cover exactly when it occurs in the model as a
    literal greater than 0, and the cover keeps the order of the
    model. *)
Theorem min_vertex_cover_spec (g : Graph) :
  well_formed g = true ->
  TOP_WEIGHT <> 1 ->
  exists f,
    min_vertex_cover_formula g = Ok f /\
    num_vars f = Z.max 0 (n_nodes g) /\
    soft f = map (fun node => ([- node], 1)) (Py.range 1 (n_nodes g + 1)) /\
    hard f = edges g /\
    forall (slv : Solver) (opt : Z) (model : list Z),
      slv f = Ok (opt, model) ->
      exists cover,
        min_vertex_cover g slv = Ok cover /\
        cover = filter (fun n => 0 <? n) model /\
        forall v, In v cover <-> In v model /\ 0 < v.
Proof.
  intros Hwf Htop. unfold min_vertex_cover, min_vertex_cover_formula.
  rewrite new_vars_spec, nodes_range.
  cbn [new_formula num_vars hard soft].
  rewrite fold_soft by auto. cbn [num_vars hard soft app].
  rewrite vertex_cover_edges by now apply well_formed_Forall.
  cbn [num_vars hard soft app].
  eexists. split; [reflexivity|]. cbn [num_vars hard soft].
  split; [lia|]. split; [reflexivity|]. split; [reflexivity|].
  intros slv opt model Hs. exists (filter (fun n => 0 <? n) model).
  split; [cbn [bind]; now rewrite Hs|]. split; [reflexivity|].
  intros v. rewrite filter_In, Z.ltb_lt. tauto.
Qed.

Lemma existsb_eqb_abs (x lo : Z) (ms : list Z) :
  map Z.abs ms = Py.range lo (lo + Z.of_nat (List.length ms)) ->
  Z.abs x < lo -> existsb (Z.eqb x) ms = false.
Proof.
  intros Habs Hx. destruct (existsb (Z.eqb x) ms) eqn:E; auto.
  apply existsb_exists in E as [y [Hy Heq]]. apply Z.eqb_eq in Heq. subst y.
  assert (Hin : In (Z.abs x) (map Z.abs ms)) by now apply in_map.
  rewrite Habs in Hin. apply range_In in Hin. lia.
Qed.

Lemma lit_neg_suffix (ms : list Z) :
  forall v j,
    1 <= v ->
    map Z.abs ms = Py.range v (v + Z.of_nat (List.length ms)) ->
    (j < List.length ms)%nat ->
    existsb (Z.eqb (- (v + Z.of_nat j))) ms =
      negb (existsb (Z.eqb (v + Z.of_nat j)) ms).
Proof.
  induction ms as [|m ms IH]; intros v j Hv Habs Hj; [cbn in Hj; lia|].
  apply abs_range_cons in Habs as [Hm Hrest]. cbn [existsb].
  destruct j as [|j].
  - rewrite !(existsb_eqb_abs _ (v + 1) ms) by (auto; lia).
    rewrite !orb_false_r.
    destruct (Z.eqb_spec (- (v + Z.of_nat 0)) m),
             (Z.eqb_spec (v + Z.of_nat 0) m); cbn [negb]; auto; lia.
  - assert (E1 : (- (v + Z.of_nat (S j)) =? m) = false)
      by (apply Z.eqb_neq; lia).
    assert (E2 : (v + Z.of_nat (S j) =? m) = false)
      by (apply Z.eqb_neq; lia).
    rewrite E1, E2. cbn [orb].
    replace (v + Z.of_nat (S j)) with (v + 1 + Z.of_nat j) by lia.
    apply IH; auto; [lia | cbn in Hj; lia].
Qed.

(** In a complete model a variable and its negation have opposite
    truth values. *)
Lemma lit_true_neg (f : WCNFFormula) (m : list Z) (a : Z) :
  complete f m = true -> 1 <= a <= num_vars f ->
  lit_true m (- a) = negb (lit_true m a).
Proof.
  intros Hc Ha. pose proof (complete_abs _ _ Hc) as Habs.
  assert (Hl : List.length m = Z.to_nat (num_vars f)).
  { rewrite <- (length_map Z.abs), Habs, range_length. lia. }
  unfold lit_true, Py.mem.
  replace a with (1 + Z.of_nat (Z.to_nat (a - 1))) by lia.
  apply lit_neg_suffix; [lia | | lia].
  rewrite Habs. f_equal. lia.
Qed.

Lemma cost_app (m : list Z) (n1 n2 n : Z) (h1 h2 h : list (list Z))
    (l1 l2 : list (list Z * Z)) :
  cost m (mkFormula n h (l1 ++ l2)) =
    cost m (mkFormula n1 h1 l1) + cost m (mkFormula n2 h2 l2).
Proof.
  unfold cost. cbn [soft].
  induction l1 as [|cw l1 IH]; cbn [app fold_right]; [lia|].
  destruct (clause_sat m (fst cw)); lia.
Qed.

Lemma cost_flat_map (m : list Z) (n : Z) (h : list (list Z))
    (es : list (list Z)) :
  cost m (mkFormula n h (flat_map edge_clauses es)) =
    zsum (map (edge_cost m) es).
Proof.
  induction es as [|e es IH]; cbn [flat_map map zsum fold_right].
  - reflexivity.
  - rewrite (cost_app m 0 n n [] h h), IH. reflexivity.
Qed.

Lemma max_cut_edges (n : Z) (es : list (list Z)) :
  TOP_WEIGHT <> 1 ->
  Forall (fun e => exists a b, e = [a; b] /\ 1 <= a <= n /\ 1 <= b <= n) es ->
  forall f,
    for_each
      (fun e f =>
         '(e1, e2) <- unpack2 e ;;
         v1 <- Py.item (Py.range 1 (n + 1)) (e1 - 1) ;;
         v2 <- Py.item (Py.range 1 (n + 1)) (e2 - 1) ;;
         Ok (add_clause [- v1; - v2] 1 (add_clause [v1; v2] 1 f)))
      es f =
    Ok (mkFormula (num_vars f) (hard f) (soft f ++ flat_map edge_clauses es)).
Proof.
  intros Htop.
  induction 1 as [|e es (a & b & -> & Ha & Hb) Hes IH]; intros f;
    cbn [for_each].
  - cbn [flat_map]. rewrite app_nil_r. now destruct f.
  - cbn [unpack2 bind]. rewrite !node_item by auto. cbn [bind].
    rewrite IH, !add_clause_soft by auto. cbn [num_vars hard soft].
    cbn [flat_map edge_clauses]. now rewrite <- !app_assoc.
Qed.

(** C6, as the code has it: the maximum-cut formula of a graph has no
    hard clause and exactly the two soft clauses [[node_a, node_b]] and
    [[-node_a, -node_b]] of weight 1 for each edge; under a complete
    model an edge costs 0 when its endpoints differ in truth value and 1
    when they agree, and the cost of the model is the sum over the
    edges. *)
Theorem max_cut_spec (g : Graph) :
  well_formed g = true ->
  TOP_WEIGHT <> 1 ->
  exists f,
    max_cut_formula g = Ok f /\
    num_vars f = Z.max 0 (n_nodes g) /\
    hard f = [] /\
    soft f = flat_map edge_clauses (edges g) /\
    (forall model, cost model f = zsum (map (edge_cost model) (edges g))) /\
    (forall model a b,
        complete f model = true -> In [a; b] (edges g) ->
        edge_cost model [a; b] =
          if Bool.eqb (lit_true model a) (lit_true model b) then 1 else 0) /\
    forall (slv : Solver) (opt : Z) (model : list Z),
      slv f = Ok (opt, model) ->
      max_cut g slv = Ok (positive_literals model).
Proof.
  intros Hwf Htop. unfold max_cut, max_cut_formula.
  rewrite new_vars_spec, nodes_range.
  cbn [new_formula num_vars hard soft].
  rewrite max_cut_edges by (auto; now apply well_formed_Forall).
  cbn [num_vars hard soft app].
  eexists. split; [reflexivity|]. cbn [num_vars hard soft].
  split; [lia|]. split; [reflexivity|]. split; [reflexivity|].
  split; [|split].
  - intros model. apply cost_flat_map.
  - intros model a b Hc Hin.
    destruct (well_formed_edge g _ Hwf Hin) as (a' & b' & Heq & Ha & Hb & _).
    inversion Heq; subst a' b'.
    unfold edge_cost, cost. cbn [soft edge_clauses fold_right fst snd].
    cbn [clause_sat existsb].
    rewrite !(lit_true_neg _ _ _ Hc) by (cbn [num_vars]; lia).
    destruct (lit_true model a), (lit_true model b); reflexivity.
  - intros slv opt model Hs. cbn [bind]. now rewrite Hs.
Qed.

Lemma for_each_fails {A S : Type} (body : A -> S -> result S) (l : list A)
    (x : A) :
  In x l ->
  (forall s, exists e, body x s = Raise e) ->
  forall s, exists e, for_each body l s = Raise e.
Proof.
  intros Hin Hx. induction l as [|y r IH]; [contradiction|].
  intros s. cbn [for_each]. destruct Hin as [-> | Hin].
  - destruct (Hx s) as [e He]. rewrite He. cbn [bind]. eauto.
  - destruct (body y s) as [s'|e]; cbn [bind]; eauto.
Qed.

Lemma for_each_reach {A S : Type} (Q : S -> Prop) (body : A -> S -> result S)
    (l : list A) (x : A) :
  In x l ->
  (forall t t', body x t = Ok t' -> Q t') ->
  (forall y t t', Q t -> body y t = Ok t' -> Q t') ->
  forall s s', for_each body l s = Ok s' -> Q s'.
Proof.
  intros Hin Hx Hmono. induction l as [|y r IH]; [contradiction|].
  intros s s' H. cbn [for_each] in H. apply bind_Ok in H as [t [Hy H]].
  destruct Hin as [-> | Hin].
  - apply (for_each_inv Q body r t s'); eauto.
  - eapply IH; eauto.
Qed.

Lemma unpack2_cases (e : list Z) :
  (exists a b, e = [a; b]) \/ unpack2 e = Raise ValueError.
Proof. destruct e as [|a [|b [|c r]]]; cbn; eauto. Qed.

(** A loop over the edges that unpacks each of them stops with the
    unpacking error as soon as the edges before the first ill-shaped
    tuple are processed without error. *)
Lemma for_each_unpack {S : Type} (I : S -> Prop)
    (body : list Z -> S -> result S) (es : list (list Z)) :
  (forall e s, unpack2 e = Raise ValueError -> body e s = Raise ValueError) ->
  (forall a b s, In [a; b] es -> I s ->
                 exists s', body [a; b] s = Ok s' /\ I s') ->
  (exists e, In e es /\ unpack2 e = Raise ValueError) ->
  forall s, I s -> for_each body es s = Raise ValueError.
Proof.
  intros Hbad Hgood. induction es as [|e es IH]; intros [x [Hin Hx]] s Hs.
  - contradiction.
  - cbn [for_each]. destruct (unpack2_cases e) as [(a & b & ->) | He].
    + destruct (Hgood a b s ltac:(now left) Hs) as [s' [Hb Hs']].
      rewrite Hb. cbn [bind]. apply IH; auto.
      * intros a' b' t Hin' Ht. apply Hgood; auto. now right.
      * destruct Hin as [<- | Hin]; [discriminate|]. eauto.
    + rewrite (Hbad e s He). reflexivity.
Qed.

Lemma pairs_in_range_edge (g : Graph) (a b : Z) :
  pairs_in_range g = true -> In [a; b] (edges g) ->
  1 <= a <= n_nodes g /\ 1 <= b <= n_nodes g.
Proof.
  unfold pairs_in_range. rewrite forallb_forall. intros H Hin.
  specialize (H _ Hin). cbn in H. lia.
Qed.

Lemma clause_set_add_In (x y : list Z) (s : list (list Z)) :
  In y (Py.set_add clause_eqb x s) <-> In y s \/ y = x.
Proof.
  unfold Py.set_add. destruct (Py.mem clause_eqb x s) eqn:E.
  - apply mem_clause_In in E. split; [auto | intros [H | ->]; auto].
  - rewrite in_app_iff. cbn [In]. intuition.
Qed.

Lemma item_1 {A : Type} (x y : A) (r : list A) : Py.item (x :: y :: r) 1 = Ok y.
Proof. now rewrite item_nonneg by lia. Qed.

Lemma item_2 {A : Type} (x y z : A) (r : list A) :
  Py.item (x :: y :: z :: r) 2 = Ok z.
Proof. now rewrite item_nonneg by lia. Qed.

Lemma read_line_keeps (c : list Z) (line : string) (s s' : read_state) :
  In c (rs_edges s) -> read_line line s = Ok s' -> In c (rs_edges s').
Proof.
  intros Hin H. unfold read_line in H.
  apply bind_Ok in H as [l0 [_ H]].
  destruct (String.eqb l0 "p").
  - apply bind_Ok in H as [t2 [_ H]]. apply bind_Ok in H as [n [_ H]].
    apply bind_Ok in H as [t3 [_ H]]. apply bind_Ok in H as [m [_ H]].
    now inversion H; subst.
  - destruct (String.eqb l0 "c"); [now inversion H; subst|].
    apply bind_Ok in H as [t1 [_ H]]. apply bind_Ok in H as [a [_ H]].
    apply bind_Ok in H as [t2 [_ H]]. apply bind_Ok in H as [b [_ H]].
    inversion H; subst. cbn [rs_edges]. apply clause_set_add_In. now left.
Qed.

Lemma read_line_self_loop (line t x : string) (rest : list string)
    (s s' : read_state) :
  Py.split line = t :: x :: x :: rest -> t <> "p" -> t <> "c" ->
  read_line line s = Ok s' ->
  exists v, Py.int x = Ok v /\ In [v] (rs_edges s').
Proof.
  intros El Hp Hc H. unfold read_line in H. rewrite El in H.
  rewrite item_0_cons, item_1, item_2 in H. cbn [bind] in H.
  apply String.eqb_neq in Hp, Hc. rewrite Hp, Hc in H.
  destruct (Py.int x) as [v|e] eqn:Ev; cbn [bind] in H; [|discriminate].
  inversion H; subst. exists v. split; auto. cbn [rs_edges].
  apply clause_set_add_In. right. unfold frozenset2. now rewrite Z.eqb_refl.
Qed.

Lemma set_order_singleton {A : Type} (x : A) : set_order A [x] = [x].
Proof.
  apply Permutation_length_1_inv. apply Permutation_sym, set_order_perm.
Qed.

(** A self-loop line leaves a one-element tuple among the edges. *)
Lemma read_stream_self_loop (self g : Graph) (out : list string)
    (stream : list string) (t x : string) (rest : list string) :
  read_stream self stream = Ok (g, out) ->
  In (t :: x :: x :: rest) (token_lines stream) -> t <> "p" -> t <> "c" ->
  exists v, Py.int x = Ok v /\ In [v] (edges g).
Proof.
  intros H Hin Hp Hc. unfold read_stream in H.
  apply bind_Ok in H as [s [Hrun H]]. inversion H; subst. cbn [edges].
  unfold token_lines in Hin. apply in_map_iff in Hin as [line [El Hline]].
  destruct (Py.int x) as [v|e] eqn:Ev.
  - exists v. split; auto.
    assert (Hs : In [v] (rs_edges s)).
    { apply (for_each_reach (fun s => In [v] (rs_edges s)) read_line
               (reader stream) line Hline) with (s := mkRead (n_nodes self) (-1) []);
        auto.
      - intros u u' Hu.
        destruct (read_line_self_loop _ _ _ _ _ _ El Hp Hc Hu) as [w [Hw Hi]].
        congruence.
      - intros y u u' Hu Hy. eapply read_line_keeps; eauto. }
    apply in_map_iff. exists [v]. split; [apply set_order_singleton|].
    eapply Permutation_in; [apply Permutation_sym, set_order_perm | exact Hs].
  - exfalso.
    apply (for_each_reach (fun _ => False) read_line (reader stream) line Hline)
      with (s := mkRead (n_nodes self) (-1) []) (s' := s); auto.
    intros u u' Hu.
    destruct (read_line_self_loop _ _ _ _ _ _ El Hp Hc Hu) as [w [Hw _]].
    congruence.
Qed.

Lemma update_length {A : Type} (l : list A) (i : nat) (v : A) :
  List.length (Py.update l i v) = List.length l.
Proof.
  revert i. induction l as [|x r IH]; intros i; destruct i; cbn; auto.
Qed.

Lemma update_Forall {A : Type} (P : A -> Prop) (l : list A) (i : nat) (v : A) :
  Forall P l -> P v -> Forall P (Py.update l i v).
Proof.
  intros Hl Hv. revert i.
  induction Hl as [|x r Hx Hr IH]; intros i; destruct i; cbn [Py.update];
    constructor; auto.
Qed.

Lemma setitem_ok {A : Type} (l : list A) (i : Z) (v : A) :
  0 <= i < Z.of_nat (List.length l) ->
  Py.setitem l i v = Ok (Py.update l (Z.to_nat i) v).
Proof.
  intros Hi. unfold Py.setitem.
  destruct (i <? 0) eqn:E1; [lia|].
  destruct ((i <? 0) || (Z.of_nat (List.length l) <=? i)) eqn:E2; [lia|].
  reflexivity.
Qed.

Lemma square_repeat (n : Z) :
  0 <= n ->
  square n (repeat (repeat (@None Z) (Z.to_nat n)) (Z.to_nat n)).
Proof.
  intros Hn. split.
  - rewrite repeat_length. lia.
  - apply Forall_forall. intros row Hrow. apply repeat_spec in Hrow.
    subst row. rewrite repeat_length. lia.
Qed.

Lemma mark_edge_ok (n a b : Z) (matrix : list (list (option Z))) :
  1 <= a <= n -> 1 <= b <= n -> square n matrix ->
  exists matrix',
    mark_edge (Py.range 1 (n + 1)) [a; b] matrix = Ok matrix' /\
    square n matrix'.
Proof.
  intros Ha Hb [Hlen Hrows]. unfold mark_edge. cbn [unpack2 bind].
  rewrite !node_item by auto. cbn [bind].
  assert (Hgo : forall v1 v2, 1 <= v1 <= n -> 1 <= v2 <= n ->
            exists matrix',
              (row <- Py.item matrix (v1 - 1) ;;
               row' <- Py.setitem row (v2 - 1) (Some 1) ;;
               Py.setitem matrix (v1 - 1) row') = Ok matrix' /\
              square n matrix').
  { intros v1 v2 H1 H2.
    destruct (item_in matrix (v1 - 1) ltac:(lia)) as [row Hrow].
    rewrite Hrow. cbn [bind].
    assert (Hr : Z.of_nat (List.length row) = n).
    { rewrite Forall_forall in Hrows. apply Hrows. eapply item_In; eauto. }
    rewrite setitem_ok by lia. cbn [bind]. rewrite setitem_ok by lia.
    eexists. split; [reflexivity|]. split.
    - now rewrite update_length.
    - apply update_Forall; auto. now rewrite update_length. }
  destruct (b <? a); auto.
Qed.

Lemma rev_nodes (n : Z) :
  1 <= n -> rev (Py.range 1 (n + 1)) = n :: rev (Py.range 1 n).
Proof.
  intros Hn. rewrite range_snoc by lia. now rewrite rev_app_distr.
Qed.

Lemma max_clique_unbound (g : Graph) :
  n_nodes g <= 0 -> max_clique_formula g = Raise UnboundLocalError.
Proof.
  intros Hn. unfold max_clique_formula.
  rewrite new_vars_spec, nodes_range. rewrite range_nil by lia. reflexivity.
Qed.

Lemma self_loop_fails (g : Graph) (v : Z) :
  In [v] (edges g) ->
  (exists e, min_vertex_cover_formula g = Raise e) /\
  (exists e, max_clique_formula g = Raise e) /\
  (exists e, max_cut_formula g = Raise e).
Proof.
  intros Hin. repeat split.
  - unfold min_vertex_cover_formula. rewrite new_vars_spec.
    apply (for_each_fails _ _ [v]); auto. intros s. cbn. eauto.
  - unfold max_clique_formula. rewrite new_vars_spec.
    destruct (rev _) as [|n r]; [eauto|].
    destruct (for_each_fails
                (mark_edge
                   (Py.range (num_vars new_formula + 1)
                      (num_vars new_formula + 1
                       + Z.of_nat (Z.to_nat (n_nodes g)))))
                (edges g) [v] Hin
                ltac:(intros s; cbn; eauto)
                (repeat (repeat None (Z.to_nat n)) (Z.to_nat n)))
      as [e He].
    rewrite He. cbn [bind]. eauto.
  - unfold max_cut_formula. rewrite new_vars_spec.
    apply (for_each_fails _ _ [v]); auto. intros s. cbn. eauto.
Qed.

Lemma self_loop_unpack_error (g : Graph) (v : Z) :
  In [v] (edges g) -> pairs_in_range g = true ->
  min_vertex_cover_formula g = Raise ValueError /\
  max_cut_formula g = Raise ValueError /\
  (1 <= n_nodes g -> max_clique_formula g = Raise ValueError).
Proof.
  intros Hin Hr.
  assert (Hbad : exists e, In e (edges g) /\ unpack2 e = Raise ValueError)
    by (exists [v]; auto).
  repeat split.
  - unfold min_vertex_cover_formula. rewrite new_vars_spec, nodes_range.
    apply (for_each_unpack (fun _ => True)); auto.
    + intros e s He. now rewrite He.
    + intros a b s Hab _. destruct (pairs_in_range_edge g a b Hr Hab).
      cbn [unpack2 bind]. rewrite !node_item by auto. cbn [bind]. eauto.
  - unfold max_cut_formula. rewrite new_vars_spec, nodes_range.
    apply (for_each_unpack (fun _ => True)); auto.
    + intros e s He. now rewrite He.
    + intros a b s Hab _. destruct (pairs_in_range_edge g a b Hr Hab).
      cbn [unpack2 bind]. rewrite !node_item by auto. cbn [bind]. eauto.
  - intros Hn. unfold max_clique_formula.
    rewrite new_vars_spec, nodes_range, rev_nodes by auto.
    rewrite (for_each_unpack (square (n_nodes g))); auto.
    + intros e s He. unfold mark_edge. now rewrite He.
    + intros a b s Hab Hs. destruct (pairs_in_range_edge g a b Hr Hab).
      now apply mark_edge_ok.
    + apply square_repeat. lia.
Qed.

Lemma solve_after_failure (slv : Solver) (r : result WCNFFormula) (e : exn) :
  r = Raise e ->
  (formula <- r ;; '(_, model) <- slv formula ;; Ok (positive_literals model))
  = Raise e.
Proof. now intros ->. Qed.

(** C10, as the code has it: when an input that is read without error
    has an edge line with twice the same node token, the graph holds a
    one-element edge tuple and each of the three operations raises an
    exception instead of calling the solver.  The exception is the
    unpacking error ([ValueError]) when the two-endpoint edges have
    their endpoints in [1 .. n_nodes], for [max_clique] provided there
    is a node; without nodes [max_clique] stops earlier, on the unbound
    name [n]. *)
Theorem self_loop_breaks_operations (self g : Graph) (out : list string)
    (stream : list string) (t x : string) (rest : list string) :
  read_stream self stream = Ok (g, out) ->
  In (t :: x :: x :: rest) (token_lines stream) -> t <> "p" -> t <> "c" ->
  (exists v, Py.int x = Ok v /\ In [v] (edges g)) /\
  (forall slv,
      (exists e, min_vertex_cover g slv = Raise e) /\
      (exists e, max_clique g slv = Raise e) /\
      (exists e, max_cut g slv = Raise e)) /\
  (pairs_in_range g = true ->
   forall slv,
     min_vertex_cover g slv = Raise ValueError /\
     max_cut g slv = Raise ValueError /\
     (1 <= n_nodes g -> max_clique g slv = Raise ValueError) /\
     (n_nodes g <= 0 -> max_clique g slv = Raise UnboundLocalError)).
Proof.
  intros Hread Hin Hp Hc.
  destruct (read_stream_self_loop _ _ _ _ _ _ _ Hread Hin Hp Hc) as [v [Hv Hg]].
  split; [eauto|]. split.
  - intros slv.
    destruct (self_loop_fails g v Hg) as ([e1 H1] & [e2 H2] & [e3 H3]).
    repeat split; eexists; apply solve_after_failure; eauto.
  - intros Hr slv.
    destruct (self_loop_unpack_error g v Hg Hr) as (H1 & H2 & H3).
    split; [|split; [|split]].
    + now apply solve_after_failure.
    + now apply solve_after_failure.
    + intros Hn. apply solve_after_failure. auto.
    + intros Hn. apply solve_after_failure. now apply max_clique_unbound.
Qed.

Lemma set_order_nil {A : Type} : set_order A [] = [].
Proof. apply Permutation_nil. apply Permutation_sym, set_order_perm. Qed.

(** C4, the graph without nodes: [max_clique] reads the name [n] that
    its first loop never bound and stops with [UnboundLocalError], where
    the two sibling operations build the empty formula. *)
Theorem max_clique_empty_graph :
  read_stream Graph_init ["p edge 0 0"] = Ok (mkGraph [] 0, []) /\
  well_formed (mkGraph [] 0) = true /\
  max_clique_formula (mkGraph [] 0) = Raise UnboundLocalError /\
  (forall slv, max_clique (mkGraph [] 0) slv = Raise UnboundLocalError) /\
  min_vertex_cover_formula (mkGraph [] 0) = Ok new_formula /\
  max_cut_formula (mkGraph [] 0) = Ok new_formula.
Proof.
  split; [|repeat split].
  unfold read_stream.
  assert (E : for_each read_line (reader ["p edge 0 0"])
                (mkRead (n_nodes Graph_init) (-1) []) = Ok (mkRead 0 0 []))
    by (vm_compute; reflexivity).
  rewrite E. cbn [bind rs_edges rs_n_nodes rs_n_edges].
  rewrite set_order_nil. reflexivity.
Qed.

(** C3, two identical bid rows of one auctioneer: the clause built for
    the auctioneer repeats the id of the first row, [[1, 1]], and the id
    2 of the second row is in no clause of positive literals. *)
Theorem duplicate_bids_clause (slv : Solver) (self : Auction) :
  encode (Auction_init slv false) ["a A"; "A g1 10"; "A g1 10"] = Ok self ->
  auctioneers self = ["A"] /\
  auctions self = [["A"; "g1"; "10"]; ["A"; "g1"; "10"]] /\
  agent_clause self "A" = [1; 1] /\
  In [1; 1] (hard (formula self)) /\
  ~ In [1; 2] (hard (formula self)).
Proof.
  intros Henc.
  destruct (encode_fields _ _ _ _ Henc) as (_ & _ & Hbids & Hau & _).
  change (declared_bids ["a A"; "A g1 10"; "A g1 10"])
    with [["A"; "g1"; "10"]; ["A"; "g1"; "10"]] in Hbids.
  change (declared_auctioneers ["a A"; "A g1 10"; "A g1 10"])
    with ["A"] in Hau.
  assert (Hag : agent_clause self "A" = [1; 1])
    by (unfold agent_clause; rewrite Hbids; reflexivity).
  apply encode_spec in Henc as (self1 & Hrun & Hinv & Hs). cbv zeta in Hs.
  set (self2 := manage_incompatibilities self1 (goods self1)) in *.
  destruct (manage_incompatibilities_ext self1 (goods self1))
    as (_ & _ & _ & Ha2 & Hau2 & _ & _ & extra & Hh2 & Hex & _).
  fold self2 in Ha2, Hau2, Hh2.
  assert (Hhard : hard (formula self) =
                  (hard_of 1 (auctions self1) ++ extra) ++ [[1; 1]]).
  { rewrite Hs at 1. unfold with_formula. cbn [formula hard].
    rewrite Hh2, (ri_hard _ Hinv). f_equal.
    assert (Hag2 : agent_clause self2 "A" = [1; 1])
      by (rewrite <- Hag; unfold agent_clause; rewrite Hs; reflexivity).
    assert (Hau' : auctioneers self2 = ["A"])
      by (rewrite <- Hau, Hs; reflexivity).
    rewrite Hau'. cbn [map]. now rewrite Hag2. }
  repeat split; auto.
  - rewrite Hhard. apply in_or_app. right. now left.
  - rewrite Hhard. intros Hin.
    apply in_app_or in Hin as [Hin | [Hin | []]]; [|discriminate].
    apply in_app_or in Hin as [Hin | Hin].
    + pose proof (hard_of_range (auctions self1) 1) as Hr.
      rewrite Forall_forall in Hr. destruct (Hr _ Hin) as [u [Hu _]].
      discriminate.
    + rewrite Forall_forall in Hex.
      destruct (Hex _ Hin) as (g & v1 & v2 & Heq & H1 & _).
      apply (ri_goods _ Hinv) in H1. destruct H1 as [Hv1 _].
      inversion Heq. lia.
Qed.

Lemma index_nodup (l : list (list string)) :
  NoDup l ->
  forall j b, nth_error l j = Some b ->
              Py.index bid_eqb l b = Ok (Z.of_nat j).
Proof.
  induction 1 as [|x l Hx Hl IH]; intros j b Hj.
  - destruct j; discriminate.
  - cbn [Py.index]. destruct j as [|j]; cbn [nth_error] in Hj.
    + inversion Hj; subst.
      assert (E : bid_eqb b b = true) by now apply bid_eqb_eq.
      now rewrite E.
    + destruct (bid_eqb x b) eqn:E.
      * apply bid_eqb_eq in E. subst x. exfalso. apply Hx.
        eapply nth_error_In; eauto.
      * rewrite (IH _ _ Hj). cbn [bind]. f_equal. lia.
Qed.

Lemma flat_map_positions {A B : Type} (F : A -> list B)
    (G : Z * A -> list B) (l : list A) :
  forall k,
    (forall j b, nth_error l j = Some b -> F b = G (k + Z.of_nat j, b)) ->
    flat_map F l =
      flat_map G (combine (Py.range k (k + Z.of_nat (List.length l))) l).
Proof.
  induction l as [|x r IH]; intros k H; [now rewrite combine_nil|].
  cbn [List.length]. rewrite range_cons by lia. cbn [combine flat_map].
  rewrite (H O x eq_refl). replace (k + Z.of_nat 0) with k by lia. f_equal.
  replace (k + Z.of_nat (S (List.length r)))
    with (k + 1 + Z.of_nat (List.length r)) by lia.
  apply IH. intros j b Hj. rewrite (H (S j) b Hj). do 2 f_equal. lia.
Qed.

(** When no two bid rows are equal, the clause of an auctioneer lists
    the ids of all its bids. *)
Lemma agent_clause_distinct (self : Auction) (a : string) :
  NoDup (auctions self) -> agent_clause self a = bids_of (auctions self) a.
Proof.
  intros Hnd. unfold agent_clause, bids_of.
  apply flat_map_positions. intros j b Hj. cbn [fst snd].
  destruct b as [|t b]; auto. destruct (String.eqb a t); auto.
  rewrite (index_nodup _ Hnd _ _ Hj). f_equal. lia.
Qed.

Lemma clause_sat_In (m c : list Z) :
  clause_sat m c = true <-> exists l, In l c /\ lit_true m l = true.
Proof. unfold clause_sat. apply existsb_exists. Qed.

(** X9: In minimum-winning-bids mode, for an input without repeated bid
    rows, the hard clauses end with one clause per declared auctioneer,
    made of the ids of all the bids of that auctioneer, so that a model
    satisfying the hard clauses selects one of them. *)
Theorem auctioneer_clauses_distinct_bids (slv : Solver)
    (stream : list string) (self : Auction) :
  encode (Auction_init slv false) stream = Ok self ->
  NoDup (declared_bids stream) ->
  (exists hs,
      hard (formula self) =
        hs ++ map (bids_of (declared_bids stream))
                (declared_auctioneers stream)) /\
  forall m a,
    sat_hard m (formula self) = true ->
    In a (declared_auctioneers stream) ->
    exists v, In v (bids_of (declared_bids stream) a) /\ lit_true m v = true.
Proof.
  intros Henc Hnd.
  destruct (encode_fields _ _ _ _ Henc) as (_ & _ & Hbids & Hau & _).
  destruct (encode_hard _ _ _ _ Henc) as (hs & _ & Hh & _).
  assert (Hmap : map (agent_clause self) (auctioneers self) =
                 map (bids_of (declared_bids stream))
                   (declared_auctioneers stream)).
  { rewrite Hau. apply map_ext. intros a. rewrite <- Hbids.
    apply agent_clause_distinct. now rewrite Hbids. }
  rewrite Hmap in Hh. split; [eauto|].
  intros m a Hsat Ha. unfold sat_hard in Hsat.
  rewrite forallb_forall in Hsat. apply clause_sat_In. apply Hsat.
  rewrite Hh. apply in_or_app. right. now apply in_map.
Qed.

Lemma nth_update {A : Type} (l : list A) (v d : A) :
  forall i i', (i < List.length l)%nat ->
               nth i' (Py.update l i v) d =
                 if (i =? i')%nat then v else nth i' l d.
Proof.
  induction l as [|x r IH]; intros i i' Hi; [cbn in Hi; lia|].
  destruct i as [|i], i' as [|i']; cbn [Py.update nth Nat.eqb]; auto.
  apply IH. cbn in Hi. lia.
Qed.

Lemma item_nth {A : Type} (l : list A) (i : Z) (d : A) :
  0 <= i < Z.of_nat (List.length l) ->
  Py.item l i = Ok (nth (Z.to_nat i) l d).
Proof.
  intros Hi. rewrite item_nonneg by lia.
  now rewrite (nth_error_nth' l d) by lia.
Qed.

Lemma square_row (n : Z) (matrix : list (list (option Z))) (i : nat) :
  square n matrix -> Z.of_nat i < n ->
  Z.of_nat (List.length (nth i matrix [])) = n.
Proof.
  intros [Hlen Hrows] Hi. rewrite Forall_forall in Hrows.
  apply Hrows. apply nth_In. lia.
Qed.

Lemma square_set_cell (n : Z) (matrix : list (list (option Z))) (i j : nat) :
  square n matrix -> Z.of_nat i < n -> square n (set_cell matrix i j).
Proof.
  intros Hsq Hi. pose proof (square_row n matrix i Hsq Hi) as Hr.
  destruct Hsq as [Hlen Hrows]. unfold set_cell. split.
  - now rewrite update_length.
  - apply update_Forall; auto. now rewrite update_length.
Qed.

Lemma cell_set_cell (n : Z) (matrix : list (list (option Z)))
    (i j i' j' : nat) :
  square n matrix -> Z.of_nat i < n -> Z.of_nat j < n ->
  cell (set_cell matrix i j) i' j' =
    if (i =? i')%nat && (j =? j')%nat then Some 1 else cell matrix i' j'.
Proof.
  intros Hsq Hi Hj. pose proof (square_row n matrix i Hsq Hi) as Hr.
  destruct Hsq as [Hlen _]. unfold cell, set_cell.
  rewrite nth_update by lia.
  destruct (i =? i')%nat eqn:E; cbn [andb]; auto.
  apply Nat.eqb_eq in E. subst i'. apply nth_update. lia.
Qed.

Lemma mark_edge_spec (n a b : Z) (matrix : list (list (option Z))) :
  1 <= a <= n -> 1 <= b <= n -> square n matrix ->
  mark_edge (Py.range 1 (n + 1)) [a; b] matrix =
    Ok (set_cell matrix (Z.to_nat (Z.min a b - 1)) (Z.to_nat (Z.max a b - 1))).
Proof.
  intros Ha Hb Hsq. unfold mark_edge. cbn [unpack2 bind].
  rewrite !node_item by auto. cbn [bind].
  assert (Hgo : forall v1 v2, 1 <= v1 <= n -> 1 <= v2 <= n ->
            (row <- Py.item matrix (v1 - 1) ;;
             row' <- Py.setitem row (v2 - 1) (Some 1) ;;
             Py.setitem matrix (v1 - 1) row') =
            Ok (set_cell matrix (Z.to_nat (v1 - 1)) (Z.to_nat (v2 - 1)))).
  { intros v1 v2 H1 H2.
    pose proof (square_row n matrix (Z.to_nat (v1 - 1)) Hsq ltac:(lia)) as Hr.
    destruct Hsq as [Hlen _].
    rewrite (item_nth matrix (v1 - 1) []) by lia. cbn [bind].
    rewrite setitem_ok by lia. cbn [bind]. rewrite setitem_ok by lia.
    reflexivity. }
  destruct (b <? a) eqn:E.
  - apply Z.ltb_lt in E. rewrite Z.min_r, Z.max_l by lia. now apply Hgo.
  - apply Z.ltb_ge in E. rewrite Z.min_l, Z.max_r by lia. now apply Hgo.
Qed.

Lemma mark_loop (n : Z) (es : list (list Z)) :
  Forall (fun e => exists a b, e = [a; b] /\ 1 <= a <= n /\ 1 <= b <= n) es ->
  forall matrix,
    square n matrix ->
    for_each (mark_edge (Py.range 1 (n + 1))) es matrix
    = Ok (mark_all es matrix) /\
    square n (mark_all es matrix).
Proof.
  induction 1 as [|e es (a & b & -> & Ha & Hb) Hes IH]; intros matrix Hsq.
  - split; [reflexivity | exact Hsq].
  - cbn [for_each]. rewrite mark_edge_spec by auto. cbn [bind].
    unfold mark_all. cbn [fold_left]. apply IH.
    apply square_set_cell; auto. lia.
Qed.

(** After the marking loop an entry holds 1 exactly when it held 1
    before or an edge joins the two nodes, smaller node first. *)
Lemma mark_all_cell (n : Z) (es : list (list Z)) :
  Forall (fun e => exists a b, e = [a; b] /\ 1 <= a <= n /\ 1 <= b <= n) es ->
  forall matrix i j,
    square n matrix ->
    (cell (mark_all es matrix) i j = Some 1 <->
     cell matrix i j = Some 1 \/
     exists a b, In [a; b] es /\ Z.to_nat (Z.min a b - 1) = i /\
                 Z.to_nat (Z.max a b - 1) = j).
Proof.
  induction 1 as [|e es (a & b & -> & Ha & Hb) Hes IH]; intros matrix i j Hsq.
  - unfold mark_all. cbn [fold_left In]. split; [auto|].
    intros [H | (a & b & [] & _)]. exact H.
  - unfold mark_all. cbn [fold_left]. fold (mark_all es).
    rewrite IH by (apply square_set_cell; auto; lia).
    rewrite (cell_set_cell n) by (auto; lia).
    destruct ((Z.to_nat (Z.min a b - 1) =? i)%nat
              && (Z.to_nat (Z.max a b - 1) =? j)%nat) eqn:E.
    + apply andb_true_iff in E as [E1 E2].
      apply Nat.eqb_eq in E1, E2. split; intros _.
      * right. exists a, b. split; [now left | auto].
      * now left.
    + split.
      * intros [H | (a' & b' & Hin & Hi & Hj)]; [now left|].
        right. exists a', b'. split; [now right | auto].
      * intros [H | (a' & b' & [Heq | Hin] & Hi & Hj)]; [now left | |].
        { inversion Heq; subst a' b'. subst i j.
          rewrite !Nat.eqb_refl in E. discriminate. }
        right. exists a', b'. auto.
Qed.

Lemma for_each_hard {A : Type} (body : A -> WCNFFormula -> result WCNFFormula)
    (K : A -> list (list Z)) (l : list A) :
  (forall x f, In x l ->
     body x f = Ok (mkFormula (num_vars f) (hard f ++ K x) (soft f))) ->
  forall f,
    for_each body l f =
      Ok (mkFormula (num_vars f) (hard f ++ flat_map K l) (soft f)).
Proof.
  induction l as [|x r IH]; intros H f; cbn [for_each flat_map].
  - rewrite app_nil_r. now destruct f.
  - rewrite (H x f) by now left. cbn [bind].
    rewrite IH by (intros y t Hy; apply H; now right).
    cbn [num_vars hard soft]. now rewrite <- app_assoc.
Qed.

Lemma flat_map_ext_in {A B : Type} (F G : A -> list B) (l : list A) :
  (forall x, In x l -> F x = G x) -> flat_map F l = flat_map G l.
Proof.
  induction l as [|x r IH]; intros H; cbn [flat_map]; auto.
  rewrite (H x) by now left. rewrite IH; auto.
  intros y Hy. apply H. now right.
Qed.

Lemma flat_map_shift {B : Type} (F : Z -> list B) (a b : Z) :
  flat_map F (Py.range (a + 1) (b + 1)) =
    flat_map (fun i => F (i + 1)) (Py.range a b).
Proof.
  unfold Py.range. replace (b + 1 - (a + 1)) with (b - a) by lia.
  induction (seq 0 (Z.to_nat (b - a))) as [|k r IH]; cbn [map flat_map]; auto.
  rewrite IH. f_equal. f_equal. lia.
Qed.

(** The traversal of the upper triangle adds one clause per entry that
    is not marked. *)
Lemma add_non_edges_spec (n : Z) (matrix : list (list (option Z)))
    (f : WCNFFormula) :
  square n matrix ->
  add_non_edges n matrix f =
    Ok (mkFormula (num_vars f)
          (hard f ++
           flat_map
             (fun i1 =>
                flat_map
                  (fun i2 =>
                     match cell matrix (Z.to_nat i1) (Z.to_nat i2) with
                     | Some 1 => []
                     | _ => [[- (i1 + 1); - (i2 + 1)]]
                     end)
                  (Py.range (i1 + 1) n))
             (Py.range 0 n))
          (soft f)).
Proof.
  intros Hsq. unfold add_non_edges.
  apply for_each_hard. intros i1 t Hi1. apply range_In in Hi1.
  apply for_each_hard. intros i2 u Hi2. apply range_In in Hi2.
  pose proof (square_row n matrix (Z.to_nat i1) Hsq ltac:(lia)) as Hr.
  destruct Hsq as [Hlen _].
  rewrite (item_nth matrix i1 []) by lia. cbn [bind].
  rewrite (item_nth _ i2 None) by lia. cbn [bind].
  fold (cell matrix (Z.to_nat i1) (Z.to_nat i2)).
  destruct (cell matrix (Z.to_nat i1) (Z.to_nat i2)) as [[|[p|p|]|p]|];
    try (now rewrite add_clause_hard).
  rewrite app_nil_r. now destruct u.
Qed.

Lemma cell_blank (n i j : nat) :
  cell (repeat (repeat (@None Z) n) n) i j = None.
Proof.
  unfold cell.
  destruct (nth_in_or_default i (repeat (repeat (@None Z) n) n) [])
    as [Hin | ->]; [|now destruct j].
  apply repeat_spec in Hin. rewrite Hin.
  destruct (nth_in_or_default j (repeat (@None Z) n) None) as [Hj | ->]; auto.
  now apply repeat_spec in Hj.
Qed.

Lemma adjacent_spec (g : Graph) (a b : Z) :
  a < b ->
  (adjacent g a b = true <->
   exists a' b', In [a'; b'] (edges g) /\ Z.min a' b' = a /\ Z.max a' b' = b).
Proof.
  intros Hlt. unfold adjacent. rewrite existsb_exists. split.
  - intros [e [Hin He]]. apply orb_true_iff in He as [He | He];
      apply clause_eqb_eq in He; subst e.
    + exists a, b. repeat split; auto; lia.
    + exists b, a. repeat split; auto; lia.
  - intros (a' & b' & Hin & Hmin & Hmax). exists [a'; b']. split; auto.
    apply orb_true_iff.
    destruct (Z_lt_le_dec b' a').
    + right. apply clause_eqb_eq. f_equal; [|f_equal]; lia.
    + left. apply clause_eqb_eq. f_equal; [|f_equal]; lia.
Qed.

Lemma non_edge_clauses_In (g : Graph) (c : list Z) :
  In c (non_edge_clauses g) <->
  exists a b, c = [- a; - b] /\ 1 <= a /\ a < b <= n_nodes g /\
              adjacent g a b = false.
Proof.
  unfold non_edge_clauses. rewrite in_flat_map. split.
  - intros [a [Ha Hc]]. apply in_flat_map in Hc as [b [Hb Hc]].
    apply range_In in Ha, Hb.
    destruct (adjacent g a b) eqn:E; [contradiction|].
    destruct Hc as [<- | []]. exists a, b. repeat split; auto; lia.
  - intros (a & b & -> & Ha & Hb & Hadj). exists a.
    split; [apply range_In; lia|]. apply in_flat_map. exists b.
    split; [apply range_In; lia|]. rewrite Hadj. now left.
Qed.

Lemma max_clique_formula_eq (g : Graph) :
  well_formed g = true -> 1 <= n_nodes g -> TOP_WEIGHT <> 1 ->
  max_clique_formula g =
    Ok (mkFormula (Z.of_nat (Z.to_nat (n_nodes g))) (non_edge_clauses g)
          (map (fun node => ([node], 1)) (Py.range 1 (n_nodes g + 1)))).
Proof.
  intros Hwf Hn Htop.
  pose proof (well_formed_Forall g Hwf) as Hes.
  unfold max_clique_formula.
  rewrite new_vars_spec, nodes_range, rev_nodes by auto.
  cbn [new_formula num_vars hard soft].
  rewrite fold_soft by auto. cbn [num_vars hard soft app].
  assert (Hsq0 : square (n_nodes g)
                   (repeat (repeat None (Z.to_nat (n_nodes g)))
                      (Z.to_nat (n_nodes g))))
    by (apply square_repeat; lia).
  destruct (mark_loop (n_nodes g) (edges g) Hes _ Hsq0) as [Hrun Hsq].
  rewrite Hrun. cbn [bind].
  rewrite (add_non_edges_spec (n_nodes g)) by auto.
  cbn [num_vars hard soft app].
  assert (Hclauses :
    flat_map
      (fun i1 =>
         flat_map
           (fun i2 =>
              match
                cell (mark_all (edges g)
                        (repeat (repeat None (Z.to_nat (n_nodes g)))
                           (Z.to_nat (n_nodes g))))
                  (Z.to_nat i1) (Z.to_nat i2)
              with
              | Some 1 => []
              | _ => [[- (i1 + 1); - (i2 + 1)]]
              end)
           (Py.range (i1 + 1) (n_nodes g)))
      (Py.range 0 (n_nodes g)) = non_edge_clauses g).
  { unfold non_edge_clauses. rewrite (flat_map_shift _ 0 (n_nodes g)).
    apply flat_map_ext_in. intros i1 Hi1. apply range_In in Hi1.
    rewrite (flat_map_shift _ (i1 + 1) (n_nodes g)).
    apply flat_map_ext_in. intros i2 Hi2. apply range_In in Hi2.
    pose proof (mark_all_cell (n_nodes g) (edges g) Hes _
                  (Z.to_nat i1) (Z.to_nat i2) Hsq0) as Hcell.
    rewrite cell_blank in Hcell.
    pose proof (adjacent_spec g (i1 + 1) (i2 + 1) ltac:(lia)) as Hadj.
    destruct (adjacent g (i1 + 1) (i2 + 1)) eqn:E.
    - destruct (proj1 Hadj eq_refl) as (a & b & Hin & Hmin & Hmax).
      rewrite (proj2 Hcell); [reflexivity|].
      right. exists a, b. split; auto. split; lia.
    - assert (Hne : cell (mark_all (edges g)
                            (repeat (repeat None (Z.to_nat (n_nodes g)))
                               (Z.to_nat (n_nodes g))))
                      (Z.to_nat i1) (Z.to_nat i2) <> Some 1).
      { intros Hc. apply Hcell in Hc as [Hc | (a & b & Hin & Hi & Hj)];
          [discriminate|].
        destruct (well_formed_edge g _ Hwf Hin) as (a' & b' & Heq & Ha & Hb & _).
        inversion Heq; subst a' b'.
        assert (Hft : false = true); [|discriminate].
        apply Hadj. exists a, b.
        split; auto. split; lia. }
      destruct (cell _ _ _) as [[|[p|p|]|p]|]; try reflexivity.
      now contradiction Hne. }
  rewrite Hclauses. reflexivity.
Qed.

(** X16: For a graph with at least one node, the maximum-clique formula has
    the soft clauses [[node]] of weight 1,
    one per node, and as hard clauses exactly the clauses
    [[-node_a, -node_b]] of the pairs [node_a < node_b] that no edge
    joins; the clique returned is the list of the positive literals of
    the model. *)
Theorem max_clique_spec (g : Graph) :
  well_formed g = true ->
  1 <= n_nodes g ->
  TOP_WEIGHT <> 1 ->
  exists f,
    max_clique_formula g = Ok f /\
    num_vars f = n_nodes g /\
    soft f = map (fun node => ([node], 1)) (Py.range 1 (n_nodes g + 1)) /\
    hard f = non_edge_clauses g /\
    (forall c, In c (hard f) <->
               exists a b, c = [- a; - b] /\ 1 <= a /\ a < b <= n_nodes g /\
                           adjacent g a b = false) /\
    forall (slv : Solver) (opt : Z) (model : list Z),
      slv f = Ok (opt, model) ->
      max_clique g slv = Ok (positive_literals model).
Proof.
  intros Hwf Hn Htop. unfold max_clique.
  rewrite (max_clique_formula_eq g Hwf Hn Htop).
  eexists. split; [reflexivity|]. cbn [num_vars hard soft].
  split; [lia|]. split; [reflexivity|]. split; [reflexivity|].
  split; [apply non_edge_clauses_In|].
  intros slv opt model Hs. cbn [bind]. now rewrite Hs.
Qed.

(** ** Reading the auction: what can go wrong *)

Lemma split_aux_pending (l cur : list ascii) :
  cur <> [] -> Py.split_aux l cur <> [].
Proof.
  revert cur. induction l as [|c r IH]; intros cur Hcur; cbn [Py.split_aux].
  - destruct cur; [contradiction | discriminate].
  - destruct (Py.isspace c).
    + destruct cur; [contradiction | discriminate].
    + apply IH. discriminate.
Qed.

Lemma split_aux_nonempty (l cur : list ascii) :
  (exists c, In c l /\ Py.isspace c = false) -> Py.split_aux l cur <> [].
Proof.
  revert cur. induction l as [|c r IH]; intros cur [x [Hin Hx]];
    [contradiction|].
  cbn [Py.split_aux]. destruct (Py.isspace c) eqn:E.
  - destruct Hin as [-> | Hin]; [congruence|].
    destruct cur; [apply IH; eauto | discriminate].
  - apply split_aux_pending. discriminate.
Qed.

Lemma lstrip_head (l : list ascii) :
  Py.lstrip l = [] \/ exists c r, Py.lstrip l = c :: r /\ Py.isspace c = false.
Proof.
  induction l as [|c r IH]; cbn [Py.lstrip]; auto.
  destruct (Py.isspace c) eqn:E; auto. right. eauto.
Qed.

(** A line kept by the reader has at least one token. *)
Lemma reader_tokens (stream : list string) (line : string) :
  In line (reader stream) -> Py.split line <> [].
Proof.
  unfold reader. intros Hin. apply filter_In in Hin as [Hin Hne].
  apply in_map_iff in Hin as [s [<- _]].
  apply negb_true_iff, String.eqb_neq in Hne.
  unfold Py.split, Py.strip in *.
  rewrite list_ascii_of_string_of_list_ascii.
  set (X := Py.lstrip (list_ascii_of_string s)) in *.
  destruct (lstrip_head (rev X)) as [E | (c & r & E & Hc)].
  - rewrite E in Hne. cbn in Hne. contradiction.
  - rewrite E. apply split_aux_nonempty. exists c. split; auto.
    cbn [rev]. apply in_or_app. right. now left.
Qed.

Lemma digits_error (s : string) :
  forall acc b e, Py.digits s acc b = Raise e -> e = ValueError.
Proof.
  induction s as [|c r IH]; intros acc b e; cbn [Py.digits].
  - destruct b; [discriminate | now intros [= <-]].
  - destruct (Py.isdigit c); [apply IH|].
    destruct (Ascii.eqb c "_" && b); [apply IH | now intros [= <-]].
Qed.

Lemma int_error (s : string) (e : exn) : Py.int s = Raise e -> e = ValueError.
Proof.
  unfold Py.int. intros H.
  assert (Hd : forall r, (n <- Py.digits r 0 false ;; Ok (- n)) = Raise e ->
                         e = ValueError).
  { intros r Hr. destruct (Py.digits r 0 false) as [n|e'] eqn:E;
      [discriminate|]. cbn in Hr. injection Hr as <-.
    eapply digits_error; eauto. }
  destruct s as [|c r]; [eapply digits_error; eauto|].
  destruct c as [[] [] [] [] [] [] [] []];
    try (eapply digits_error; eassumption); eauto.
Qed.

Lemma item_last_cons {A : Type} (x : A) (r : list A) :
  exists y, Py.item (x :: r) (-1) = Ok y.
Proof.
  unfold Py.item. cbn [Z.ltb Z.compare].
  set (len := Z.of_nat (List.length (x :: r))).
  assert (Hlen : 1 <= len) by (subst len; cbn [List.length]; lia).
  destruct ((-1 + len <? 0) || (len <=? -1 + len)) eqn:E; [lia|].
  destruct (nth_error (x :: r) (Z.to_nat (-1 + len))) eqn:En; eauto.
  apply nth_error_None in En. subst len. lia.
Qed.

Lemma bid_price_error (b : list string) (e : exn) :
  b <> [] -> bid_price b = Raise e -> e = ValueError.
Proof.
  intros Hb. destruct b as [|x r]; [contradiction|].
  unfold bid_price. destruct (item_last_cons x r) as [y ->]. cbn [bind].
  apply int_error.
Qed.

(** One line of the auction input: it is accepted unless it is a bid
    whose last token is no integer. *)
Lemma parse_line_cases (line : string) (self : Auction) :
  Py.split line <> [] ->
  (exists self', parse_line line self = Ok self') \/
  (parse_line line self = Raise ValueError /\
   is_bid (Py.split line) = true /\
   bid_price (Py.split line) = Raise ValueError).
Proof.
  intros Hne. unfold parse_line.
  destruct (Py.split line) as [|t r] eqn:El; [contradiction|].
  rewrite item_0_cons. cbn [bind is_bid].
  destruct (String.eqb t "a") eqn:Ea.
  - apply String.eqb_eq in Ea. subst t. cbn. eauto.
  - destruct (String.eqb t "g") eqn:Eg; cbn [negb andb]; [eauto|].
    unfold manage_auction. cbn [auctions formula flag solver goods auctioneers].
    destruct (bid_price (t :: r)) as [w|e] eqn:Ep.
    + left. unfold bid_price in Ep.
      destruct (Py.item (t :: r) (-1)) as [p|]; [|discriminate].
      cbn [bind] in Ep |- *. rewrite Ep. cbn [bind new_var]. eauto.
    + right. assert (e = ValueError)
        by (eapply bid_price_error; [|exact Ep]; discriminate).
      subst e. repeat split; auto. unfold bid_price in Ep.
      destruct (Py.item (t :: r) (-1)) as [p|e'] eqn:Ei.
      * cbn [bind] in Ep |- *. now rewrite Ep.
      * destruct (item_last_cons t r) as [y Hy]. congruence.
Qed.

Lemma parse_line_accepts (line : string) (self : Auction) :
  Py.split line <> [] ->
  (is_bid (Py.split line) = true ->
   exists w, bid_price (Py.split line) = Ok w) ->
  exists self', parse_line line self = Ok self'.
Proof.
  intros Hne Hp.
  destruct (parse_line_cases line self Hne) as [H | (_ & Hb & He)]; auto.
  destruct (Hp Hb) as [w Hw]. congruence.
Qed.

Lemma read_loop_cases (ls : list string) :
  (forall line, In line ls -> Py.split line <> []) ->
  forall self,
    (exists self', for_each parse_line ls self = Ok self') \/
    (for_each parse_line ls self = Raise ValueError /\
     exists line, In line ls /\ is_bid (Py.split line) = true /\
                  bid_price (Py.split line) = Raise ValueError).
Proof.
  induction ls as [|line ls IH]; intros Hne self; cbn [for_each].
  - left. eauto.
  - destruct (parse_line_cases line self (Hne line ltac:(now left)))
      as [[s Hs] | (He & Hb & Hp)].
    + rewrite Hs. cbn [bind].
      destruct (IH ltac:(intros l Hl; apply Hne; now right) s)
        as [H | (H & l & Hl & Hb & Hp)]; auto.
      right. split; auto. exists l. split; [now right | auto].
    + right. rewrite He. split; auto. exists line. split; [now left | auto].
Qed.

Lemma encode_after_reading (self1 : Auction) :
  read_inv self1 ->
  exists self,
    (let self2 := manage_incompatibilities self1 (goods self1) in
     if flag self2 then Ok self2
     else f <- auctioneer_clauses self2 (formula self2) ;;
          Ok (with_formula self2 f)) = Ok self.
Proof.
  intros Hinv. cbv zeta.
  destruct (manage_incompatibilities_ext self1 (goods self1))
    as (_ & _ & _ & Ha2 & _).
  destruct (flag _); [eauto|].
  rewrite auctioneer_clauses_spec.
  - cbn [bind]. eauto.
  - rewrite Ha2. now apply read_inv_nonempty.
Qed.

(** X1: The auction input is accepted exactly when every bid row ends with
    an integer; otherwise reading stops with [ValueError] and the
    solver is not called. *)
Theorem encode_accepts_integer_prices (slv : Solver) (fl : bool)
    (stream : list string) :
  (prices_ok stream = true ->
   exists self, encode (Auction_init slv fl) stream = Ok self) /\
  (prices_ok stream = false ->
   encode (Auction_init slv fl) stream = Raise ValueError /\
   parse_input_stream (Auction_init slv fl) stream = Raise ValueError).
Proof.
  assert (Hbad : forall line,
            In line (reader stream) -> is_bid (Py.split line) = true ->
            bid_price (Py.split line) = Raise ValueError ->
            prices_ok stream = false).
  { intros line Hl Hb Hp. unfold prices_ok.
    destruct (forallb _ _) eqn:E; auto.
    rewrite forallb_forall in E.
    assert (Hin : In (Py.split line) (declared_bids stream)).
    { unfold declared_bids, token_lines. apply filter_In. split; auto.
      now apply in_map. }
    specialize (E _ Hin). now rewrite Hp in E. }
  assert (Hgood : forall self, encode (Auction_init slv fl) stream = Ok self ->
                               prices_ok stream = true).
  { intros self H. destruct (encode_fields _ _ _ _ H) as (_ & _ & Hb & _ & _ & _ & Hp).
    unfold prices_ok. apply forallb_forall. intros b Hin.
    rewrite Forall_forall in Hp. rewrite <- Hb in Hin.
    destruct (Hp b Hin) as [w ->]. reflexivity. }
  destruct (read_loop_cases (reader stream) (reader_tokens stream)
              (Auction_init slv fl)) as [[s1 Hs1] | (He & line & Hl & Hb & Hp)].
  - assert (Hinv : read_inv s1)
      by (eapply read_inv_loop; [apply read_inv_init | exact Hs1]).
    destruct (encode_after_reading s1 Hinv) as [self Hself].
    assert (Henc : encode (Auction_init slv fl) stream = Ok self).
    { unfold encode. rewrite Hs1. cbn [bind]. exact Hself. }
    split; [eauto|]. intros Hf. rewrite (Hgood _ Henc) in Hf. discriminate.
  - assert (Henc : encode (Auction_init slv fl) stream = Raise ValueError).
    { unfold encode. now rewrite He. }
    split.
    + intros Ht. rewrite (Hbad line Hl Hb Hp) in Ht. discriminate.
    + intros _. split; auto.
      rewrite parse_input_stream_encode, Henc. reflexivity.
Qed.

(** ** The auction formula, clause by clause *)

Lemma encode_parts (slv : Solver) (fl : bool) (stream : list string)
    (self : Auction) :
  encode (Auction_init slv fl) stream = Ok self ->
  (forall g v, In (g, v) (goods self) <-> claims (declared_bids stream) g v) /\
  exists extra,
    hard (formula self) =
      (hard_of 1 (declared_bids stream) ++ extra)
      ++ (if fl then [] else map (agent_clause self) (auctioneers self)) /\
    Forall (fun c => exists g v1 v2,
                c = [- v1; - v2] /\ claims (declared_bids stream) g v1 /\
                claims (declared_bids stream) g v2 /\ v1 < v2) extra /\
    forall g v1 v2,
      claims (declared_bids stream) g v1 ->
      claims (declared_bids stream) g v2 ->
      v1 < v2 -> In [- v1; - v2] (hard_of 1 (declared_bids stream) ++ extra).
Proof.
  intros Henc.
  destruct (encode_fields _ _ _ _ Henc) as (_ & _ & Hbids & _).
  pose proof Henc as Hs. apply encode_spec in Hs as (self1 & Hrun & Hinv & Hs).
  set (self2 := manage_incompatibilities self1 (goods self1)) in *.
  destruct (manage_incompatibilities_ext self1 (goods self1))
    as (_ & _ & Hg2 & Ha2 & Hau2 & _ & _ & extra & Hh2 & Hex & _).
  fold self2 in Hg2, Ha2, Hau2, Hh2.
  assert (Hbids1 : auctions self1 = declared_bids stream).
  { rewrite <- Hbids, Hs. cbv zeta. destruct fl; now rewrite <- Ha2. }
  assert (Hgoods : goods self = goods self1).
  { rewrite Hs. cbv zeta. destruct fl; now rewrite <- Hg2. }
  split.
  - intros g v. rewrite Hgoods, <- Hbids1. apply (ri_goods _ Hinv).
  - exists extra. split; [|split].
    + rewrite <- Hbids1, <- (ri_hard _ Hinv), <- Hh2.
      rewrite Hs at 1. cbv zeta. destruct fl.
      * now rewrite app_nil_r.
      * unfold with_formula. cbn [formula hard]. f_equal.
        assert (Hag : forall x, agent_clause self2 x = agent_clause self x)
          by (intros x; unfold agent_clause; rewrite Hs; reflexivity).
        rewrite Hs at 2. cbn [auctioneers with_formula].
        apply map_ext. exact Hag.
    + eapply Forall_impl; [|exact Hex].
      intros c (g & v1 & v2 & -> & H1 & H2 & Hlt).
      exists g, v1, v2. rewrite <- Hbids1.
      split; [reflexivity|]. split; [|split]; auto;
        now apply (ri_goods _ Hinv).
    + intros g v1 v2 H1 H2 Hlt. rewrite <- Hbids1 in *.
      rewrite <- (ri_hard _ Hinv), <- Hh2.
      apply (ri_goods _ Hinv) in H1. apply (ri_goods _ Hinv) in H2.
      eapply manage_incompatibilities_adds; eauto.
Qed.

Lemma hard_of_In (bids : list (list string)) (c : list Z) :
  forall v,
    In c (hard_of v bids) <->
    exists j b, nth_error bids j = Some b /\ bid_price b = Ok TOP_WEIGHT /\
                c = [v + Z.of_nat j].
Proof.
  induction bids as [|b r IH]; intros v; cbn [hard_of].
  - split; [contradiction|]. intros (j & x & Hj & _). destruct j; discriminate.
  - assert (Htail : In c (hard_of (v + 1) r) <->
              exists j x, nth_error (b :: r) (S j) = Some x /\
                          bid_price x = Ok TOP_WEIGHT /\
                          c = [v + Z.of_nat (S j)]).
    { rewrite IH. split; intros (j & x & Hj & Hp & ->); exists j, x;
        repeat split; auto; f_equal; lia. }
    destruct (bid_price b) as [w|e] eqn:Ep.
    + destruct (w =? TOP_WEIGHT) eqn:E.
      * apply Z.eqb_eq in E. subst w. cbn [In]. rewrite Htail. split.
        -- intros [<- | (j & x & H)].
           ++ exists O, b. repeat split; auto. f_equal. lia.
           ++ exists (S j), x. exact H.
        -- intros (j & x & Hj & Hp & ->). destruct j as [|j].
           ++ left. f_equal. lia.
           ++ right. exists j, x. auto.
      * apply Z.eqb_neq in E. rewrite Htail. split.
        -- intros (j & x & H). exists (S j), x. exact H.
        -- intros (j & x & Hj & Hp & ->). destruct j as [|j].
           ++ cbn in Hj. inversion Hj; subst. congruence.
           ++ exists j, x. auto.
    + rewrite Htail. split.
      * intros (j & x & H). exists (S j), x. exact H.
      * intros (j & x & Hj & Hp & ->). destruct j as [|j].
        -- cbn in Hj. inversion Hj; subst. congruence.
        -- exists j, x. auto.
Qed.

Lemma hard_of_units (bids : list (list string)) (c : list Z) :
  In c (hard_of 1 bids) <->
  exists u bid, c = [u] /\ 1 <= u /\ Py.item bids (u - 1) = Ok bid /\
                bid_price bid = Ok TOP_WEIGHT.
Proof.
  rewrite hard_of_In. split.
  - intros (j & b & Hj & Hp & ->). exists (1 + Z.of_nat j), b.
    repeat split; auto; [lia|]. rewrite item_nonneg by lia.
    replace (Z.to_nat (1 + Z.of_nat j - 1)) with j by lia. now rewrite Hj.
  - intros (u & b & -> & Hu & Hit & Hp). exists (Z.to_nat (u - 1)), b.
    rewrite item_nonneg in Hit by lia.
    destruct (nth_error bids (Z.to_nat (u - 1))) eqn:E; [|discriminate].
    inversion Hit; subst. repeat split; auto. f_equal. lia.
Qed.

Lemma encode_hard_contains (slv : Solver) (fl : bool) (stream : list string)
    (self : Auction) :
  encode (Auction_init slv fl) stream = Ok self ->
  (forall g v1 v2,
      claims (declared_bids stream) g v1 ->
      claims (declared_bids stream) g v2 -> v1 < v2 ->
      In [- v1; - v2] (hard (formula self))) /\
  (fl = false ->
   forall a, In a (declared_auctioneers stream) ->
             In (agent_clause self a) (hard (formula self))).
Proof.
  intros Henc.
  destruct (encode_fields _ _ _ _ Henc) as (_ & _ & _ & Hau & _).
  destruct (encode_parts _ _ _ _ Henc) as (_ & extra & Hh & _ & Hadd).
  rewrite Hh. split.
  - intros g v1 v2 H1 H2 Hlt. apply in_app_iff. left. now apply (Hadd g).
  - intros -> a Ha. apply in_app_iff. right. apply in_map. now rewrite Hau.
Qed.

(** X2: The hard clauses of the auction formula are exactly: a unit clause
    for each bid priced at the sentinel weight, the clause [[-v1, -v2]]
    for each two bids that claim a common good, and, in
    minimum-winning-bids mode, the clause of each declared auctioneer.
    No other constraint is put on the bids. *)
Theorem hard_clauses_exact (slv : Solver) (fl : bool) (stream : list string)
    (self : Auction) :
  encode (Auction_init slv fl) stream = Ok self ->
  forall c,
    In c (hard (formula self)) <->
    (exists u bid, c = [u] /\ 1 <= u /\
                   Py.item (declared_bids stream) (u - 1) = Ok bid /\
                   bid_price bid = Ok TOP_WEIGHT) \/
    (exists g v1 v2, c = [- v1; - v2] /\ claims (declared_bids stream) g v1 /\
                     claims (declared_bids stream) g v2 /\ v1 < v2) \/
    (fl = false /\
     exists a, In a (declared_auctioneers stream) /\ c = agent_clause self a).
Proof.
  intros Henc c.
  destruct (encode_fields _ _ _ _ Henc) as (_ & _ & _ & Hau & _).
  destruct (encode_parts _ _ _ _ Henc) as (_ & extra & Hh & Hex & Hadd).
  rewrite Hh, !in_app_iff, hard_of_units. rewrite Forall_forall in Hex.
  split.
  - intros [[H | H] | H].
    + left. exact H.
    + right. left. destruct (Hex _ H) as (g & v1 & v2 & H'). eauto.
    + right. right. destruct fl; [contradiction|]. split; auto.
      apply in_map_iff in H as [a [<- Ha]]. exists a. rewrite <- Hau. auto.
  - intros [H | [(g & v1 & v2 & -> & H1 & H2 & Hlt) | [-> (a & Ha & ->)]]].
    + left. left. exact H.
    + left. pose proof (Hadd g v1 v2 H1 H2 Hlt) as Hin.
      apply in_app_iff in Hin. now rewrite hard_of_units in Hin.
    + right. apply in_map. now rewrite Hau.
Qed.

Lemma soft_of_plain (bids : list (list string)) :
  Forall (fun b => exists w, bid_price b = Ok w) bids ->
  Forall (fun b => bid_price b <> Ok TOP_WEIGHT) bids ->
  forall v,
    soft_of v bids =
      combine (map (fun u => [u])
                 (Py.range v (v + Z.of_nat (List.length bids))))
        (map price_or_0 bids).
Proof.
  induction bids as [|b r IH]; intros Hp Hnt v;
    [cbn [map]; now rewrite combine_nil|].
  inversion Hp as [|? ? [w Hw] Hp']; subst.
  inversion Hnt as [|? ? Hnw Hnt']; subst.
  cbn [soft_of List.length]. rewrite range_cons by lia.
  cbn [map combine]. unfold price_or_0 at 1. rewrite Hw.
  destruct (w =? TOP_WEIGHT) eqn:E; [apply Z.eqb_eq in E; congruence|].
  rewrite IH by auto.
  replace (v + 1 + Z.of_nat (List.length r))
    with (v + Z.of_nat (S (List.length r))) by lia.
  reflexivity.
Qed.

Lemma sum_combine (cs : list (list Z)) (ws : list Z) :
  List.length cs = List.length ws ->
  fold_right (fun (cw : list Z * Z) acc => snd cw + acc) 0 (combine cs ws)
  = zsum ws.
Proof.
  revert ws. induction cs as [|c cs IH]; intros [|w ws] Hlen;
    try discriminate; cbn [combine fold_right zsum snd]; auto.
  f_equal. apply IH. now inversion Hlen.
Qed.

(** X3: What reading an auction leaves in the object: the bids and the
    auctioneers in declaration order, one variable per bid, the relation
    between goods and bids, and, when no bid is priced at the sentinel
    weight, one soft clause [[v]] per bid weighted by its price, so
    that the sum of the soft weights is the total of the prices. *)
Theorem bids_become_soft_clauses (slv : Solver) (fl : bool)
    (stream : list string) (self : Auction) :
  encode (Auction_init slv fl) stream = Ok self ->
  auctions self = declared_bids stream /\
  auctioneers self = declared_auctioneers stream /\
  num_vars (formula self) = Z.of_nat (List.length (declared_bids stream)) /\
  (forall g v, In (g, v) (goods self) <-> claims (declared_bids stream) g v) /\
  (Forall (fun b => bid_price b <> Ok TOP_WEIGHT) (declared_bids stream) ->
   soft (formula self) =
     combine (map (fun v => [v])
                (Py.range 1 (1 + Z.of_nat (List.length (declared_bids stream)))))
       (map price_or_0 (declared_bids stream)) /\
   sum_soft_weights (formula self)
   = zsum (map price_or_0 (declared_bids stream))).
Proof.
  intros Henc.
  destruct (encode_fields _ _ _ _ Henc) as (_ & _ & Hb & Hau & Hn & Hso & Hp).
  destruct (encode_parts _ _ _ _ Henc) as (Hg & _).
  rewrite Hb in Hn, Hso, Hp.
  split; [exact Hb|]. split; [exact Hau|]. split; [exact Hn|].
  split; [exact Hg|]. intros Hnt. split.
  - rewrite Hso. now apply soft_of_plain.
  - unfold sum_soft_weights. rewrite Hso, soft_of_plain by auto.
    apply sum_combine. rewrite !length_map, range_length. lia.
Qed.

(** ** What a feasible assignment means for the auction *)

Lemma lit_true_In (m : list Z) (l : Z) : lit_true m l = true <-> In l m.
Proof.
  unfold lit_true, Py.mem. rewrite existsb_exists. split.
  - intros [x [Hx E]]. apply Z.eqb_eq in E. now subst.
  - intros H. exists l. split; auto. apply Z.eqb_refl.
Qed.

Lemma positive_literals_In (m : list Z) (v : Z) :
  In v (positive_literals m) <-> lit_true m v = true /\ 0 < v.
Proof.
  unfold positive_literals. rewrite filter_In, lit_true_In, Z.ltb_lt. tauto.
Qed.

(** X4: Two bids that claim a common good are never both among the winners
    of an assignment that satisfies the hard clauses. *)
Theorem winners_share_no_good (slv : Solver) (fl : bool) (stream : list string)
    (self : Auction) (m : list Z) (g : string) (v1 v2 : Z) :
  encode (Auction_init slv fl) stream = Ok self ->
  complete (formula self) m = true ->
  sat_hard m (formula self) = true ->
  claims (declared_bids stream) g v1 ->
  claims (declared_bids stream) g v2 ->
  v1 <> v2 ->
  ~ (In v1 (positive_literals m) /\ In v2 (positive_literals m)).
Proof.
  intros Henc Hc Hs H1 H2 Hne [Hw1 Hw2].
  destruct (encode_fields _ _ _ _ Henc) as (_ & _ & Hb & _ & Hn & _).
  apply positive_literals_In in Hw1 as [Hw1 _].
  apply positive_literals_In in Hw2 as [Hw2 _].
  assert (Hgo : forall a b,
            claims (declared_bids stream) g a ->
            claims (declared_bids stream) g b -> a < b ->
            lit_true m a = true -> lit_true m b = true -> False).
  { intros a b Ha Hb' Hlt Hta Htb.
    pose proof (claims_bound _ _ _ Ha) as Hra.
    pose proof (claims_bound _ _ _ Hb') as Hrb.
    assert (Hin : In [- a; - b] (hard (formula self))).
    { now apply (proj1 (encode_hard_contains _ _ _ _ Henc) g). }
    unfold sat_hard in Hs. rewrite forallb_forall in Hs.
    specialize (Hs _ Hin). cbn [clause_sat existsb] in Hs.
    rewrite !(lit_true_neg _ _ _ Hc), Hta, Htb in Hs
      by (rewrite Hn, Hb; lia).
    discriminate. }
  destruct (Z_lt_le_dec v1 v2); [eapply (Hgo v1 v2) | eapply (Hgo v2 v1)];
    eauto; lia.
Qed.

(** The revenue of a complete assignment: the total price of its
    positive bids is the sum of the soft weights minus its cost. *)
Lemma revenue_of_model (slv : Solver) (fl : bool) (stream : list string)
    (self : Auction) (m : list Z) :
  encode (Auction_init slv fl) stream = Ok self ->
  Forall (fun b => bid_price b = Ok TOP_WEIGHT -> TOP_WEIGHT = 0)
    (declared_bids stream) ->
  complete (formula self) m = true ->
  sum_prices self (positive_literals m)
  = Ok (sum_soft_weights (formula self) - cost m (formula self)).
Proof.
  intros Henc Hnt Hc.
  destruct (encode_fields _ _ _ _ Henc) as (_ & _ & Hbids & _ & Hn & Hso & Hb).
  rewrite <- Hbids in Hnt.
  assert (Habs : map Z.abs m = Py.range 1 (1 + Z.of_nat (List.length m))).
  { pose proof (complete_abs _ _ Hc) as Ha.
    assert (Hl : List.length m = Z.to_nat (num_vars (formula self) + 1 - 1)).
    { rewrite <- (length_map Z.abs), Ha. apply range_length. }
    rewrite Ha. f_equal. lia. }
  assert (Hlen : List.length m = List.length (auctions self)).
  { pose proof (complete_abs _ _ Hc) as Ha.
    apply (f_equal (@List.length Z)) in Ha.
    rewrite length_map, range_length in Ha. lia. }
  rewrite gain_cost, Hso.
  rewrite (gain_soft_of m (auctions self) 1 m); auto.
  - apply (sum_prices_won self (auctions self) 1); auto; [lia|].
    intros j b Hj.
    assert (Hin : In b (auctions self)) by (eapply nth_error_In; eauto).
    rewrite Forall_forall in Hb. destruct (Hb b Hin) as [w Hw].
    unfold price_or_0. rewrite Hw.
    apply (price_of_nth self _ b); auto; [lia|].
    replace (Z.to_nat (1 + Z.of_nat j - 1)) with j by lia. exact Hj.
  - intros j Hj. cbn [clause_sat existsb]. rewrite orb_false_r.
    unfold lit_true, Py.mem. apply lit_true_suffix; auto. lia.
Qed.

(** X5: The benefit reported for the answer of the solver is the largest
    revenue of a feasible assignment: no complete assignment that
    satisfies the hard clauses sells for more, and the model of the
    answer, itself complete and feasible, sells for exactly the
    benefit. *)
Theorem benefit_is_maximal (slv : Solver) (fl : bool) (stream : list string)
    (self : Auction) (opt : Z) (model m : list Z) :
  encode (Auction_init slv fl) stream = Ok self ->
  SolverPort (formula self) (Ok (opt, model)) ->
  Forall (fun b => bid_price b = Ok TOP_WEIGHT -> TOP_WEIGHT = 0)
    (declared_bids stream) ->
  complete (formula self) m = true ->
  sat_hard m (formula self) = true ->
  (exists revenue,
      sum_prices self (positive_literals m) = Ok revenue /\
      revenue <= benefit self opt) /\
  complete (formula self) model = true /\
  sat_hard model (formula self) = true /\
  sum_prices self (positive_literals model) = Ok (benefit self opt).
Proof.
  intros Henc (Hcm & Hsm & Hopt & Hmin) Hnt Hc Hs.
  split; [|split; [exact Hcm|split; [exact Hsm|]]].
  - eexists. split; [eapply revenue_of_model; eauto|].
    unfold benefit. specialize (Hmin m Hc Hs). lia.
  - rewrite (revenue_of_model slv fl stream self model Henc Hnt Hcm).
    unfold benefit. now rewrite Hopt.
Qed.

(** ** The report of the auction *)

Lemma print_solution_exception (self : Auction) (opt : Z) (bids : list Z) :
  snd (print_solution self (opt, bids))
  = snd (print_bids self (positive_literals bids)).
Proof.
  unfold print_solution.
  destruct (print_bids self (positive_literals bids)) as [out [e|]];
    [reflexivity|].
  now destruct (_ <? _).
Qed.

Lemma bid_line_in_range (self : Auction) (v : Z) :
  Forall (fun b => exists w, bid_price b = Ok w) (auctions self) ->
  1 <= v <= Z.of_nat (List.length (auctions self)) ->
  exists line, bid_line self v = Ok line.
Proof.
  intros Hb Hv. unfold bid_line.
  destruct (item_in (auctions self) (v - 1) ltac:(lia)) as [b Hit].
  rewrite Hit. cbn [bind]. rewrite Forall_forall in Hb.
  destruct (Hb b (item_In _ _ _ Hit)) as [w Hw].
  unfold bid_price in Hw. apply bind_Ok in Hw as [p [Hp _]].
  destruct b as [|t b]; [discriminate|].
  rewrite item_0_cons, Hp. cbn [bind]. eauto.
Qed.

Lemma print_bids_exception (self : Auction) (vs : list Z) :
  Forall (fun b => exists w, bid_price b = Ok w) (auctions self) ->
  Forall (fun v => 0 < v) vs ->
  snd (print_bids self vs)
  = if forallb (fun v => v <=? Z.of_nat (List.length (auctions self))) vs
    then None else Some IndexError.
Proof.
  intros Hb. induction 1 as [|v r Hv Hr IH]; cbn [print_bids forallb]; auto.
  destruct (v <=? Z.of_nat (List.length (auctions self))) eqn:E.
  - apply Z.leb_le in E.
    destruct (bid_line_in_range self v Hb ltac:(lia)) as [line ->].
    cbn [andb]. destruct (print_bids self r) as [out e]. exact IH.
  - apply Z.leb_gt in E. unfold bid_line.
    rewrite item_out by lia. reflexivity.
Qed.

Lemma print_bids_length (self : Auction) (vs : list Z) :
  snd (print_bids self vs) = None ->
  List.length (fst (print_bids self vs)) = List.length vs.
Proof.
  induction vs as [|v r IH]; cbn [print_bids]; auto.
  destruct (bid_line self v) as [line|e]; [|discriminate].
  destruct (print_bids self r) as [out e]. cbn [fst snd List.length] in *.
  intros He. f_equal. now apply IH.
Qed.

Lemma positive_literals_pos (m : list Z) :
  Forall (fun v => 0 < v) (positive_literals m).
Proof.
  apply Forall_forall. intros v Hv. now apply positive_literals_In in Hv.
Qed.

Lemma chars_append (s t : string) :
  list_ascii_of_string (s ++ t)
  = list_ascii_of_string s ++ list_ascii_of_string t.
Proof. induction s as [|c s IH]; cbn; [reflexivity | now rewrite IH]. Qed.

Lemma bid_line_colon (self : Auction) (v : Z) (line : string) :
  bid_line self v = Ok line -> In ":"%char (list_ascii_of_string line).
Proof.
  unfold bid_line. intros H.
  apply bind_Ok in H as [b [_ H]]. apply bind_Ok in H as [a [_ H]].
  apply bind_Ok in H as [p [_ H]]. inversion H; subst.
  rewrite chars_append. apply in_or_app. right. now left.
Qed.

Lemma print_bids_colon (self : Auction) (vs : list Z) (line : string) :
  In line (fst (print_bids self vs)) ->
  In ":"%char (list_ascii_of_string line).
Proof.
  induction vs as [|v r IH]; cbn [print_bids]; [contradiction|].
  destruct (bid_line self v) as [l|e] eqn:El; [|contradiction].
  destruct (print_bids self r) as [out e]. cbn [fst] in *.
  intros [<- | Hin]; [eapply bid_line_colon; eauto | now apply IH].
Qed.

Lemma verdict_no_colon (s : string) :
  s = "Valid solution" \/ s = "Invalid solution" ->
  ~ In ":"%char (list_ascii_of_string s).
Proof. intros [-> | ->]; cbn; intuition discriminate. Qed.

Lemma print_bids_short (self : Auction) (vs : list Z) (e : exn) :
  snd (print_bids self vs) = Some e ->
  (List.length (fst (print_bids self vs)) < List.length vs)%nat.
Proof.
  induction vs as [|v r IH]; cbn [print_bids]; [discriminate|].
  destruct (bid_line self v) as [line|e']; [|cbn; lia].
  destruct (print_bids self r) as [out e''].
  cbn [fst snd List.length] in *. intros H. specialize (IH H). lia.
Qed.

(** X6: The decoder fails exactly when the assignment has a positive
    literal beyond the number of bids, and then with [IndexError], after
    the benefit line and before any verdict: the output always starts
    with the benefit line, and when the exception is raised it is that
    line followed by the lines of fewer bids than there are winners,
    without a verdict. *)
Theorem print_solution_lookup (slv : Solver) (fl : bool) (stream : list string)
    (self : Auction) (opt : Z) (bids : list Z) :
  encode (Auction_init slv fl) stream = Ok self ->
  snd (print_solution self (opt, bids))
  = (if forallb
          (fun v => v <=? Z.of_nat (List.length (declared_bids stream)))
          (positive_literals bids)
     then None else Some IndexError) /\
  (snd (print_solution self (opt, bids)) <> None ->
   ~ In "Valid solution" (fst (print_solution self (opt, bids))) /\
   ~ In "Invalid solution" (fst (print_solution self (opt, bids)))) /\
  hd_error (fst (print_solution self (opt, bids)))
  = Some ("Benefit: " ++ Py.str (benefit self opt))%string /\
  (snd (print_solution self (opt, bids)) <> None ->
   exists lines,
     fst (print_solution self (opt, bids))
     = ("Benefit: " ++ Py.str (benefit self opt))%string :: lines /\
     (List.length lines < List.length (positive_literals bids))%nat /\
     forall line, In line lines -> In ":"%char (list_ascii_of_string line)).
Proof.
  intros Henc.
  destruct (encode_fields _ _ _ _ Henc) as (_ & _ & Hbids & _ & _ & _ & Hb).
  split; [|split; [|split]].
  - rewrite print_solution_exception, <- Hbids.
    apply print_bids_exception; auto. apply positive_literals_pos.
  - intros Hex. unfold print_solution in *.
    pose proof (print_bids_colon self (positive_literals bids)) as Hlines.
    destruct (print_bids self (positive_literals bids)) as [out [e|]] eqn:Ep;
      [|now destruct (_ <? _)].
    cbn [fst] in *.
    split; intros [Hin | Hin];
      try (apply (f_equal (fun s => String.get 0 s)) in Hin; discriminate);
      apply Hlines in Hin; revert Hin; apply verdict_no_colon; auto.
  - apply print_solution_head.
  - intros Hex. unfold print_solution in *.
    pose proof (print_bids_colon self (positive_literals bids)) as Hlines.
    pose proof (print_bids_short self (positive_literals bids)) as Hshort.
    destruct (print_bids self (positive_literals bids)) as [out [e|]] eqn:Ep;
      [|now destruct (_ <? _)].
    cbn [fst snd] in *. exists out. split; [reflexivity|].
    split; [now apply (Hshort e) | exact Hlines].
Qed.

Lemma soft_of_weights (bids : list (list string)) :
  forall v,
    Forall (fun cw => exists b, In b bids /\ price_or_0 b = snd cw)
      (soft_of v bids).
Proof.
  induction bids as [|b r IH]; intros v; cbn [soft_of]; [constructor|].
  assert (Hr : Forall (fun cw => exists x, In x (b :: r) /\
                                           price_or_0 x = snd cw)
                 (soft_of (v + 1) r)).
  { eapply Forall_impl; [|apply (IH (v + 1))].
    intros cw [x [Hx Hp]]. exists x. split; [now right | auto]. }
  destruct (bid_price b) as [w|e] eqn:Ep; auto.
  destruct (w =? TOP_WEIGHT); auto.
  constructor; auto. exists b. split; [now left|].
  unfold price_or_0. now rewrite Ep.
Qed.

Lemma cost_bounds (m : list Z) (f : WCNFFormula) :
  Forall (fun cw => 0 <= snd cw) (soft f) ->
  0 <= cost m f <= sum_soft_weights f.
Proof.
  unfold cost, sum_soft_weights.
  induction 1 as [|cw l Hw Hl IH]; cbn [fold_right]; [lia|].
  destruct (clause_sat m (fst cw)); lia.
Qed.

(** X7: With prices that are not negative, the answer of a solver that
    honours its contract is always reported as valid: the benefit lies
    between 0 and the sum of the soft weights, the report has one line
    per winning bid between the benefit and the verdict, and no
    exception is raised. *)
Theorem solver_answer_reported_valid (slv : Solver) (fl : bool)
    (stream : list string) (self : Auction) (opt : Z) (model : list Z) :
  encode (Auction_init slv fl) stream = Ok self ->
  SolverPort (formula self) (Ok (opt, model)) ->
  Forall (fun b => 0 <= price_or_0 b) (declared_bids stream) ->
  0 <= benefit self opt <= sum_soft_weights (formula self) /\
  exists body,
    print_solution self (opt, model) =
      (("Benefit: " ++ Py.str (benefit self opt))%string
         :: body ++ ["Valid solution"], None) /\
    List.length body = List.length (positive_literals model).
Proof.
  intros Henc (Hc & _ & Hopt & _) Hpos.
  destruct (encode_fields _ _ _ _ Henc) as (_ & _ & Hbids & _ & _ & Hso & _).
  assert (Hw : Forall (fun cw => 0 <= snd cw) (soft (formula self))).
  { rewrite Hso, Hbids. eapply Forall_impl; [|apply soft_of_weights].
    intros cw [b [Hb <-]]. rewrite Forall_forall in Hpos. auto. }
  pose proof (cost_bounds model _ Hw) as Hcost.
  assert (Hben : 0 <= benefit self opt <= sum_soft_weights (formula self))
    by (unfold benefit; lia).
  split; auto.
  pose proof (print_bids_solver _ _ _ _ _ Henc Hc) as Hok.
  pose proof (print_bids_length _ _ Hok) as Hlen.
  unfold print_solution.
  destruct (print_bids self (positive_literals model)) as [out e].
  cbn [fst snd] in *. subst e.
  destruct (sum_soft_weights (formula self) <? benefit self opt) eqn:E;
    [apply Z.ltb_lt in E; lia|].
  exists out. auto.
Qed.

Lemma index_spec (l : list (list string)) (x : list string) :
  forall i, Py.index bid_eqb l x = Ok i ->
            nth_error l (Z.to_nat i) = Some x /\ 0 <= i.
Proof.
  induction l as [|y r IH]; intros i; cbn [Py.index]; [discriminate|].
  destruct (bid_eqb y x) eqn:E.
  - apply bid_eqb_eq in E. subst y. intros [= <-]. cbn. auto with zarith.
  - intros H. apply bind_Ok in H as [j [Hj H]]. inversion H; subst.
    destruct (IH j Hj) as [Hn Hpos]. split; [|lia].
    replace (Z.to_nat (j + 1)) with (S (Z.to_nat j)) by lia. exact Hn.
Qed.

Lemma agent_clause_agent (self : Auction) (a : string) (v : Z) :
  In v (agent_clause self a) ->
  1 <= v /\
  exists bid, Py.item (auctions self) (v - 1) = Ok bid /\
              hd_error bid = Some a.
Proof.
  unfold agent_clause. intros H. apply in_flat_map in H as [b [Hb H]].
  destruct b as [|t b]; [contradiction|].
  destruct (String.eqb a t) eqn:E; [|contradiction].
  apply String.eqb_eq in E. subst t.
  destruct (Py.index bid_eqb (auctions self) (a :: b)) as [i|e] eqn:Ei;
    [|contradiction].
  destruct H as [<- | []]. destruct (index_spec _ _ _ Ei) as [Hn Hpos].
  split; [lia|]. exists (a :: b). split; [|reflexivity].
  rewrite item_nonneg by lia.
  replace (Z.to_nat (i + 1 - 1)) with (Z.to_nat i) by lia. now rewrite Hn.
Qed.

(** X8: In minimum-winning-bids mode every declared auctioneer wins: an
    assignment that satisfies the hard clauses has, for each declared
    auctioneer, a positive literal that is the id of one of its bids. *)
Theorem every_auctioneer_wins (slv : Solver) (stream : list string)
    (self : Auction) (m : list Z) (a : string) :
  encode (Auction_init slv false) stream = Ok self ->
  sat_hard m (formula self) = true ->
  In a (declared_auctioneers stream) ->
  exists v bid,
    In v (positive_literals m) /\
    Py.item (declared_bids stream) (v - 1) = Ok bid /\
    hd_error bid = Some a.
Proof.
  intros Henc Hs Ha.
  destruct (encode_fields _ _ _ _ Henc) as (_ & _ & Hbids & _).
  assert (Hin : In (agent_clause self a) (hard (formula self))).
  { now apply (proj2 (encode_hard_contains _ _ _ _ Henc)). }
  unfold sat_hard in Hs. rewrite forallb_forall in Hs.
  specialize (Hs _ Hin). apply clause_sat_In in Hs as [v [Hv Ht]].
  destruct (agent_clause_agent _ _ _ Hv) as [Hpos [bid [Hit Hhd]]].
  exists v, bid. rewrite <- Hbids. repeat split; auto.
  apply positive_literals_In. split; [auto | lia].
Qed.

(** ** The two modes of the auction *)

Lemma parse_line_retag (fl : bool) (slv : Solver) (line : string)
    (self : Auction) :
  parse_line line (retag fl slv self) =
    match parse_line line self with
    | Ok s => Ok (retag fl slv s)
    | Raise e => Raise e
    end.
Proof.
  unfold parse_line, manage_auction, retag.
  destruct (Py.item (Py.split line) 0) as [t|e]; cbn [bind]; auto.
  destruct (String.eqb t "a"), (String.eqb t "g");
    cbn [negb andb flag formula solver goods auctions auctioneers]; auto;
    destruct (Py.item (Py.split line) (-1)) as [p|e]; cbn [bind]; auto;
    destruct (Py.int p) as [w|e]; cbn [bind new_var]; auto.
Qed.

Lemma read_loop_retag (fl : bool) (slv : Solver) (ls : list string) :
  forall self,
    for_each parse_line ls (retag fl slv self) =
      match for_each parse_line ls self with
      | Ok s => Ok (retag fl slv s)
      | Raise e => Raise e
      end.
Proof.
  induction ls as [|line ls IH]; intros self; cbn [for_each]; auto.
  rewrite parse_line_retag.
  destruct (parse_line line self) as [s|e]; cbn [bind]; auto.
Qed.

Lemma incompat_step_retag (fl : bool) (slv : Solver) (self : Auction)
    (good good2 : string * Z) :
  incompat_step (retag fl slv self) good good2
  = retag fl slv (incompat_step self good good2).
Proof.
  unfold incompat_step, retag, with_formula. cbn [formula].
  now destruct (_ && _).
Qed.

Lemma incompat_row_retag (fl : bool) (slv : Solver) (good : string * Z)
    (inner : list (string * Z)) :
  forall s,
    fold_left (fun s good2 => incompat_step s good good2) inner
      (retag fl slv s)
    = retag fl slv
        (fold_left (fun s good2 => incompat_step s good good2) inner s).
Proof.
  induction inner as [|good2 inner IH]; intros s; cbn [fold_left]; auto.
  now rewrite incompat_step_retag, IH.
Qed.

Lemma incompat_rows_retag (fl : bool) (slv : Solver)
    (inner outer : list (string * Z)) :
  forall s,
    fold_left
      (fun s good => fold_left (fun s good2 => incompat_step s good good2)
                       inner s)
      outer (retag fl slv s)
    = retag fl slv
        (fold_left
           (fun s good => fold_left (fun s good2 => incompat_step s good good2)
                            inner s)
           outer s).
Proof.
  induction outer as [|good outer IH]; intros s; cbn [fold_left]; auto.
  now rewrite incompat_row_retag, IH.
Qed.

Lemma manage_incompatibilities_retag (fl : bool) (slv : Solver)
    (self : Auction) (gs : list (string * Z)) :
  manage_incompatibilities (retag fl slv self) gs
  = retag fl slv (manage_incompatibilities self gs).
Proof.
  rewrite !manage_incompatibilities_unfold. apply incompat_rows_retag.
Qed.

(** X10: The formula of the minimum-winning-bids mode is the formula of the
    other mode followed by the clauses of the auctioneers: same
    variables, same soft clauses.  Hence what is feasible with the
    constraint is feasible without it, at the same cost, and the
    constraint never raises the benefit that an honest solver reports. *)
Theorem min_win_extends_free_mode (slv slv' : Solver) (stream : list string)
    (free bound : Auction) :
  encode (Auction_init slv true) stream = Ok free ->
  encode (Auction_init slv' false) stream = Ok bound ->
  num_vars (formula bound) = num_vars (formula free) /\
  soft (formula bound) = soft (formula free) /\
  hard (formula bound) =
    hard (formula free)
    ++ map (agent_clause bound) (declared_auctioneers stream) /\
  (forall m, sat_hard m (formula bound) = true ->
             sat_hard m (formula free) = true) /\
  (forall opt1 model1 opt2 model2,
      SolverPort (formula free) (Ok (opt1, model1)) ->
      SolverPort (formula bound) (Ok (opt2, model2)) ->
      benefit bound opt2 <= benefit free opt1).
Proof.
  intros Hf Hb.
  destruct (encode_fields _ _ _ _ Hb) as (_ & _ & _ & Hau & _).
  apply encode_spec in Hf as (f1 & Hrf & _ & ->).
  apply encode_spec in Hb as (b1 & Hrb & _ & Hbound).
  assert (Hb1 : b1 = retag false slv' f1).
  { change (Auction_init slv' false)
      with (retag false slv' (Auction_init slv true)) in Hrb.
    rewrite read_loop_retag, Hrf in Hrb. now inversion Hrb. }
  cbv zeta in Hbound |- *.
  assert (Hm : manage_incompatibilities b1 (goods b1)
               = retag false slv'
                   (manage_incompatibilities f1 (goods f1))).
  { rewrite Hb1. cbn [retag goods].
    apply manage_incompatibilities_retag. }
  rewrite Hm in Hbound. cbn [retag formula auctioneers with_formula] in Hbound.
  set (f2 := manage_incompatibilities f1 (goods f1)) in *.
  assert (Hn : num_vars (formula bound) = num_vars (formula f2))
    by now rewrite Hbound.
  assert (Hso : soft (formula bound) = soft (formula f2))
    by now rewrite Hbound.
  assert (Hh : hard (formula bound) =
               hard (formula f2)
               ++ map (agent_clause bound) (declared_auctioneers stream)).
  { assert (Hag : forall a, agent_clause (retag false slv' f2) a
                            = agent_clause bound a)
      by (intros a; unfold agent_clause; rewrite Hbound; reflexivity).
    assert (Hau' : auctioneers bound = auctioneers f2)
      by (rewrite Hbound; reflexivity).
    rewrite <- Hau, Hau'. rewrite Hbound at 1.
    unfold with_formula. cbn [formula hard]. f_equal.
    apply map_ext. exact Hag. }
  assert (Hsat : forall m, sat_hard m (formula bound) = true ->
                           sat_hard m (formula f2) = true).
  { intros m. unfold sat_hard. rewrite Hh, forallb_app.
    intros H. now apply andb_true_iff in H. }
  assert (Hcost : forall m, cost m (formula bound) = cost m (formula f2))
    by (intros m; unfold cost; now rewrite Hso).
  repeat split; auto.
  intros opt1 model1 opt2 model2 (_ & _ & _ & Hmin) (Hc2 & Hs2 & Hopt2 & _).
  unfold benefit, sum_soft_weights. rewrite Hso.
  assert (Hc1 : complete (formula f2) model2 = true)
    by (unfold complete in *; now rewrite <- Hn).
  specialize (Hmin model2 Hc1 (Hsat _ Hs2)).
  rewrite <- Hcost, <- Hopt2 in Hmin. lia.
Qed.

(** ** Complete assignments *)

Lemma model_of_complete (sel : Z -> bool) (f : WCNFFormula) :
  complete f (model_of sel (num_vars f)) = true.
Proof.
  unfold complete, model_of. apply clause_eqb_eq. rewrite map_map.
  rewrite <- (map_id (Py.range 1 (num_vars f + 1))) at 2.
  apply map_ext_in. intros v Hv. apply range_In in Hv.
  destruct (sel v); lia.
Qed.

Lemma model_of_lit (sel : Z -> bool) (n v : Z) :
  1 <= v <= n -> lit_true (model_of sel n) v = sel v.
Proof.
  intros Hv. destruct (sel v) eqn:E.
  - apply lit_true_In. unfold model_of. apply in_map_iff. exists v.
    rewrite E. split; auto. apply range_In. lia.
  - destruct (lit_true (model_of sel n) v) eqn:Et; auto.
    apply lit_true_In in Et. unfold model_of in Et.
    apply in_map_iff in Et as [u [Hu Hin]]. apply range_In in Hin.
    destruct (sel u) eqn:Eu; [|lia]. subst u. congruence.
Qed.

Lemma positive_model_of (sel : Z -> bool) (n : Z) :
  positive_literals (model_of sel n) = filter sel (Py.range 1 (n + 1)).
Proof.
  unfold positive_literals, model_of.
  assert (H : Forall (fun v => 1 <= v) (Py.range 1 (n + 1))).
  { apply Forall_forall. intros v Hv. apply range_In in Hv. lia. }
  induction H as [|v l Hv Hl IH]; cbn [map filter]; auto.
  destruct (sel v) eqn:E.
  - assert (E' : (0 <? v) = true) by (apply Z.ltb_lt; lia).
    now rewrite E', IH.
  - assert (E' : (0 <? - v) = false) by (apply Z.ltb_ge; lia).
    now rewrite E', IH.
Qed.

Lemma nth_map_default {A B : Type} (h : A -> B) (l : list A) (dA : A)
    (dB : B) :
  forall j, (j < List.length l)%nat -> nth j (map h l) dB = h (nth j l dA).
Proof.
  induction l as [|x l IH]; intros j Hj; [cbn in Hj; lia|].
  destruct j as [|j]; cbn [map nth]; auto. apply IH. cbn in Hj. lia.
Qed.

Lemma range_nth (a b : Z) (j : nat) :
  (j < Z.to_nat (b - a))%nat -> nth j (Py.range a b) 0 = a + Z.of_nat j.
Proof.
  intros Hj. unfold Py.range.
  rewrite (nth_map_default _ _ O) by (rewrite length_seq; lia).
  now rewrite seq_nth by lia.
Qed.

(** A complete assignment is determined by the variables it makes
    true. *)
Lemma model_shape (f : WCNFFormula) (m : list Z) :
  complete f m = true -> m = model_of (lit_true m) (num_vars f).
Proof.
  intros Hc. pose proof (complete_abs _ _ Hc) as Habs.
  assert (Hlen : List.length m = Z.to_nat (num_vars f)).
  { rewrite <- (length_map Z.abs), Habs, range_length. f_equal. lia. }
  assert (Habs1 : map Z.abs m = Py.range 1 (1 + Z.of_nat (List.length m))).
  { rewrite Habs. unfold Py.range. do 2 f_equal. lia. }
  apply (nth_ext _ _ 0 0).
  - unfold model_of. rewrite length_map, range_length. lia.
  - intros j Hj. unfold model_of.
    rewrite (nth_map_default _ _ 0) by (rewrite range_length; lia).
    rewrite range_nth by lia.
    assert (Hnj : Z.abs (nth j m 0) = 1 + Z.of_nat j).
    { rewrite <- (nth_map_default Z.abs m 0 0) by lia.
      rewrite Habs. apply range_nth. lia. }
    unfold lit_true, Py.mem. rewrite (lit_true_suffix m 1 j) by (auto; lia).
    destruct (0 <? nth j m 0) eqn:E; lia.
Qed.

Lemma positive_literals_filter (f : WCNFFormula) (m : list Z) :
  complete f m = true ->
  positive_literals m = filter (lit_true m) (Py.range 1 (num_vars f + 1)).
Proof.
  intros Hc. rewrite (model_shape f m Hc) at 1. apply positive_model_of.
Qed.

Lemma range_NoDup (a b : Z) : NoDup (Py.range a b).
Proof.
  unfold Py.range.
  induction (seq_NoDup (Z.to_nat (b - a)) 0) as [|k l Hk Hl IH];
    cbn [map]; constructor; auto.
  intros Hin. apply in_map_iff in Hin as [k' [Heq Hk']].
  assert (k' = k) by lia. now subst.
Qed.

Lemma positive_literals_NoDup (f : WCNFFormula) (m : list Z) :
  complete f m = true -> NoDup (positive_literals m).
Proof.
  intros Hc. rewrite (positive_literals_filter f m Hc).
  apply NoDup_filter, range_NoDup.
Qed.

(** Cost of a list of unit-weight soft clauses: the number of those the
    assignment falsifies. *)
Lemma cost_unit_clauses (m : list Z) (n : Z) (h : list (list Z))
    (c : Z -> list Z) (l : list Z) :
  cost m (mkFormula n h (map (fun v => (c v, 1)) l)) =
    Z.of_nat (List.length (filter (fun v => negb (clause_sat m (c v))) l)).
Proof.
  unfold cost. cbn [soft].
  induction l as [|v l IH]; cbn [map fold_right filter fst snd]; auto.
  rewrite IH. destruct (clause_sat m (c v)); cbn [negb List.length]; lia.
Qed.

Lemma filter_length_le (sel : Z -> bool) (l S : list Z) :
  NoDup l -> (forall v, In v l -> sel v = true -> In v S) ->
  (List.length (filter sel l) <= List.length S)%nat.
Proof.
  intros Hnd Hin. apply NoDup_incl_length; [now apply NoDup_filter|].
  intros v Hv. apply filter_In in Hv as [Hv Hs]. auto.
Qed.

Lemma filter_length_ge (sel : Z -> bool) (l S : list Z) :
  NoDup S -> (forall v, In v S -> In v l /\ sel v = true) ->
  (List.length S <= List.length (filter sel l))%nat.
Proof.
  intros Hnd Hin. apply NoDup_incl_length; auto.
  intros v Hv. apply filter_In. auto.
Qed.

Lemma filter_split_length {A : Type} (p : A -> bool) (l : list A) :
  (List.length (filter p l) + List.length (filter (fun x => negb (p x)) l)
   = List.length l)%nat.
Proof.
  induction l as [|x l IH]; cbn [filter]; auto.
  destruct (p x); cbn [negb List.length]; lia.
Qed.

(** ** Minimum vertex cover, end to end *)

Lemma min_vertex_cover_formula_eq (g : Graph) :
  well_formed g = true -> TOP_WEIGHT <> 1 ->
  min_vertex_cover_formula g =
    Ok (mkFormula (Z.of_nat (Z.to_nat (n_nodes g))) (edges g)
          (map (fun node => ([- node], 1)) (Py.range 1 (n_nodes g + 1)))).
Proof.
  intros Hwf Htop. unfold min_vertex_cover_formula.
  rewrite new_vars_spec, nodes_range.
  cbn [new_formula num_vars hard soft].
  rewrite fold_soft by auto. cbn [num_vars hard soft app].
  rewrite vertex_cover_edges by now apply well_formed_Forall.
  reflexivity.
Qed.

Lemma range_clamp (n : Z) :
  Py.range 1 (Z.of_nat (Z.to_nat n) + 1) = Py.range 1 (n + 1).
Proof. unfold Py.range. do 2 f_equal. lia. Qed.

(** The cost of an assignment in the vertex-cover formula is the number
    of nodes it selects. *)
Lemma vertex_cover_cost (g : Graph) (m : list Z) :
  let f := mkFormula (Z.of_nat (Z.to_nat (n_nodes g))) (edges g)
             (map (fun node => ([- node], 1)) (Py.range 1 (n_nodes g + 1))) in
  complete f m = true ->
  cost m f = Z.of_nat (List.length (positive_literals m)).
Proof.
  intros f Hc. rewrite (positive_literals_filter f m Hc).
  unfold f at 1 2. rewrite cost_unit_clauses. cbn [num_vars].
  rewrite range_clamp. do 2 f_equal. apply filter_ext_in.
  intros v Hv. apply range_In in Hv. cbn [clause_sat existsb].
  rewrite orb_false_r, (lit_true_neg f m v Hc)
    by (unfold f; cbn [num_vars]; lia).
  apply negb_involutive.
Qed.

(** X17: With a solver that honours its contract, [min_vertex_cover] returns
    a minimum vertex cover: a duplicate-free list of nodes that meets
    every edge and is no longer than any list of nodes meeting every
    edge. *)
Theorem min_vertex_cover_minimum (g : Graph) (slv : Solver) (f : WCNFFormula)
    (opt : Z) (model : list Z) :
  well_formed g = true ->
  TOP_WEIGHT <> 1 ->
  min_vertex_cover_formula g = Ok f ->
  slv f = Ok (opt, model) ->
  SolverPort f (Ok (opt, model)) ->
  exists cover,
    min_vertex_cover g slv = Ok cover /\
    NoDup cover /\
    (forall v, In v cover -> 1 <= v <= n_nodes g) /\
    (forall a b, In [a; b] (edges g) -> In a cover \/ In b cover) /\
    forall other,
      (forall a b, In [a; b] (edges g) -> In a other \/ In b other) ->
      (List.length cover <= List.length other)%nat.
Proof.
  intros Hwf Htop Hf Hslv (Hc & Hs & Hopt & Hmin).
  rewrite (min_vertex_cover_formula_eq g Hwf Htop) in Hf.
  injection Hf as Hf.
  exists (positive_literals model). split; [|split; [|split; [|split]]].
  - unfold min_vertex_cover.
    rewrite (min_vertex_cover_formula_eq g Hwf Htop), Hf. cbn [bind].
    now rewrite Hslv.
  - eapply positive_literals_NoDup; eauto.
  - intros v Hv. pose proof (positive_literals_range _ _ _ Hc Hv) as Hr.
    rewrite <- Hf in Hr. cbn [num_vars] in Hr. lia.
  - intros a b Hin.
    destruct (well_formed_edge g _ Hwf Hin) as (a' & b' & Heq & Ha & Hb & _).
    inversion Heq; subst a' b'.
    unfold sat_hard in Hs. rewrite forallb_forall in Hs.
    assert (Hin' : In [a; b] (hard f)) by (rewrite <- Hf; exact Hin).
    specialize (Hs _ Hin'). cbn [clause_sat existsb] in Hs.
    rewrite orb_false_r in Hs. apply orb_true_iff in Hs.
    destruct Hs as [Ht | Ht]; [left | right];
      apply positive_literals_In; split; auto; lia.
  - intros other Hcover.
    set (sel := fun v => Py.mem Z.eqb v other).
    set (m := model_of sel (num_vars f)).
    assert (Hcm : complete f m = true) by apply model_of_complete.
    assert (Hsm : sat_hard m f = true).
    { unfold sat_hard. apply forallb_forall. intros e He.
      rewrite <- Hf in He. cbn [hard] in He.
      destruct (well_formed_edge g _ Hwf He) as (a & b & -> & Ha & Hb & _).
      cbn [clause_sat existsb]. unfold m.
      rewrite !model_of_lit by (rewrite <- Hf; cbn [num_vars]; lia).
      unfold sel. destruct (Hcover a b He) as [H | H];
        apply lit_true_In in H; unfold lit_true in H; rewrite H;
        auto using orb_true_r. }
    specialize (Hmin m Hcm Hsm).
    rewrite <- Hf in Hopt, Hmin, Hc, Hcm.
    rewrite (vertex_cover_cost g model Hc) in Hopt.
    rewrite (vertex_cover_cost g m Hcm) in Hmin.
    unfold m in Hmin. rewrite positive_model_of in Hmin.
    assert (Hle : (List.length (filter sel (Py.range 1 (num_vars f + 1)))
                   <= List.length other)%nat).
    { apply filter_length_le; [apply range_NoDup|].
      intros v _ Hv. now apply lit_true_In. }
    lia.
Qed.

(** ** Maximum clique, end to end *)

Lemma adjacent_sym (g : Graph) (a b : Z) : adjacent g a b = adjacent g b a.
Proof.
  unfold adjacent. induction (edges g) as [|e es IH]; cbn [existsb]; auto.
  rewrite IH. f_equal. apply orb_comm.
Qed.

(** The cost of an assignment in the clique formula is the number of
    nodes it leaves out. *)
Lemma clique_cost (g : Graph) (m : list Z) :
  let f := mkFormula (Z.of_nat (Z.to_nat (n_nodes g))) (non_edge_clauses g)
             (map (fun node => ([node], 1)) (Py.range 1 (n_nodes g + 1))) in
  complete f m = true ->
  cost m f =
    Z.of_nat (Z.to_nat (n_nodes g))
    - Z.of_nat (List.length (positive_literals m)).
Proof.
  intros f Hc. rewrite (positive_literals_filter f m Hc).
  unfold f at 1 2. rewrite cost_unit_clauses. cbn [num_vars].
  rewrite range_clamp.
  pose proof (filter_split_length (lit_true m) (Py.range 1 (n_nodes g + 1)))
    as Hsplit.
  rewrite range_length in Hsplit.
  assert (Heq : filter (fun v => negb (clause_sat m [v]))
                  (Py.range 1 (n_nodes g + 1))
                = filter (fun v => negb (lit_true m v))
                    (Py.range 1 (n_nodes g + 1))).
  { apply filter_ext. intros v. cbn [clause_sat existsb].
    now rewrite orb_false_r. }
  rewrite Heq. lia.
Qed.

(** X18: With a solver that honours its contract, [max_clique] returns a
    maximum clique of a graph that has a node: a duplicate-free list of
    pairwise adjacent nodes, at least as long as any such list. *)
Theorem max_clique_maximum (g : Graph) (slv : Solver) (f : WCNFFormula)
    (opt : Z) (model : list Z) :
  well_formed g = true ->
  1 <= n_nodes g ->
  TOP_WEIGHT <> 1 ->
  max_clique_formula g = Ok f ->
  slv f = Ok (opt, model) ->
  SolverPort f (Ok (opt, model)) ->
  exists clique,
    max_clique g slv = Ok clique /\
    NoDup clique /\
    (forall v, In v clique -> 1 <= v <= n_nodes g) /\
    (forall a b, In a clique -> In b clique -> a <> b ->
                 adjacent g a b = true) /\
    forall other,
      NoDup other ->
      (forall v, In v other -> 1 <= v <= n_nodes g) ->
      (forall a b, In a other -> In b other -> a <> b ->
                   adjacent g a b = true) ->
      (List.length other <= List.length clique)%nat.
Proof.
  intros Hwf Hn Htop Hf Hslv (Hc & Hs & Hopt & Hmin).
  rewrite (max_clique_formula_eq g Hwf Hn Htop) in Hf.
  injection Hf as Hf.
  assert (Hnv : num_vars f = n_nodes g) by (rewrite <- Hf; cbn; lia).
  assert (Hrange : forall v, In v (positive_literals model) ->
                             1 <= v <= n_nodes g).
  { intros v Hv. rewrite <- Hnv. eapply positive_literals_range; eauto. }
  exists (positive_literals model). split; [|split; [|split; [|split]]].
  - unfold max_clique.
    rewrite (max_clique_formula_eq g Hwf Hn Htop), Hf. cbn [bind].
    now rewrite Hslv.
  - eapply positive_literals_NoDup; eauto.
  - exact Hrange.
  - assert (Hgo : forall a b, In a (positive_literals model) ->
                              In b (positive_literals model) -> a < b ->
                              adjacent g a b = true).
    { intros a b Ha Hb Hlt.
      destruct (adjacent g a b) eqn:E; auto. exfalso.
      pose proof (Hrange a Ha) as Hra. pose proof (Hrange b Hb) as Hrb.
      assert (Hin : In [- a; - b] (hard f)).
      { rewrite <- Hf. cbn [hard]. apply non_edge_clauses_In.
        exists a, b. repeat split; auto; lia. }
      unfold sat_hard in Hs. rewrite forallb_forall in Hs.
      specialize (Hs _ Hin). cbn [clause_sat existsb] in Hs.
      apply positive_literals_In in Ha as [Ha _].
      apply positive_literals_In in Hb as [Hb _].
      rewrite !(lit_true_neg _ _ _ Hc), Ha, Hb in Hs by lia.
      discriminate. }
    intros a b Ha Hb Hne. destruct (Z_lt_le_dec a b).
    + now apply Hgo.
    + rewrite adjacent_sym. apply Hgo; auto. lia.
  - intros other Hnd Hin Hadj.
    set (sel := fun v => Py.mem Z.eqb v other).
    set (m := model_of sel (num_vars f)).
    assert (Hsel : forall v, sel v = true <-> In v other)
      by (intros v; apply lit_true_In).
    assert (Hcm : complete f m = true) by apply model_of_complete.
    assert (Hsm : sat_hard m f = true).
    { unfold sat_hard. apply forallb_forall. intros c Hcl.
      rewrite <- Hf in Hcl. cbn [hard] in Hcl.
      apply non_edge_clauses_In in Hcl as (a & b & -> & Ha & Hb & Hab).
      cbn [clause_sat existsb].
      rewrite !(lit_true_neg _ _ _ Hcm) by lia. unfold m.
      rewrite !model_of_lit by lia.
      destruct (sel a) eqn:Ea, (sel b) eqn:Eb; auto.
      apply Hsel in Ea, Eb.
      rewrite (Hadj a b Ea Eb ltac:(lia)) in Hab. discriminate. }
    specialize (Hmin m Hcm Hsm).
    rewrite <- Hf in Hopt, Hmin, Hc, Hcm.
    rewrite (clique_cost g model Hc) in Hopt.
    rewrite (clique_cost g m Hcm) in Hmin.
    unfold m in Hmin. rewrite positive_model_of in Hmin.
    assert (Hge : (List.length other
                   <= List.length (filter sel (Py.range 1 (num_vars f + 1))))%nat).
    { apply filter_length_ge; auto. intros v Hv. split.
      - apply range_In. specialize (Hin v Hv). lia.
      - now apply Hsel. }
    lia.
Qed.

(** ** Maximum cut, end to end *)

Lemma max_cut_formula_eq (g : Graph) :
  well_formed g = true -> TOP_WEIGHT <> 1 ->
  max_cut_formula g =
    Ok (mkFormula (Z.of_nat (Z.to_nat (n_nodes g))) []
          (flat_map edge_clauses (edges g))).
Proof.
  intros Hwf Htop. unfold max_cut_formula.
  rewrite new_vars_spec, nodes_range.
  cbn [new_formula num_vars hard soft].
  rewrite max_cut_edges by (auto; now apply well_formed_Forall).
  cbn [num_vars hard soft app]. do 2 f_equal.
Qed.

(** Under a complete assignment the cost of the cut formula is the
    number of edges whose endpoints are on the same side. *)
Lemma cut_cost (g : Graph) (m : list Z) :
  let f := mkFormula (Z.of_nat (Z.to_nat (n_nodes g))) []
             (flat_map edge_clauses (edges g)) in
  well_formed g = true ->
  complete f m = true ->
  cost m f =
    Z.of_nat (List.length (edges g))
    - Z.of_nat (List.length (cut_edges (lit_true m) g)).
Proof.
  intros f Hwf Hc. unfold f at 1. rewrite cost_flat_map.
  pose proof (well_formed_Forall g Hwf) as Hall. unfold cut_edges.
  assert (Hnv : num_vars f = Z.of_nat (Z.to_nat (n_nodes g))) by reflexivity.
  clearbody f.
  induction Hall as [|e es (a & b & -> & Ha & Hb) Hes IH];
    cbn [map zsum fold_right filter List.length]; [reflexivity|].
  fold (zsum (map (edge_cost m) es)). rewrite IH.
  unfold edge_cost, cost. cbn [soft edge_clauses fold_right fst snd].
  cbn [clause_sat existsb].
  rewrite !(lit_true_neg _ _ _ Hc) by lia.
  destruct (lit_true m a), (lit_true m b); cbn [xorb orb negb List.length];
    lia.
Qed.

Lemma cut_edges_ext (g : Graph) (s1 s2 : Z -> bool) :
  well_formed g = true ->
  (forall v, 1 <= v <= n_nodes g -> s1 v = s2 v) ->
  cut_edges s1 g = cut_edges s2 g.
Proof.
  intros Hwf Hext. unfold cut_edges. apply filter_ext_in. intros e He.
  destruct (well_formed_edge g e Hwf He) as (a & b & -> & Ha & Hb & _).
  now rewrite !Hext by lia.
Qed.

(** X19: With a solver that honours its contract, [max_cut] returns one side
    of a maximum cut: no two-colouring of the nodes cuts more edges than
    the returned node list does. *)
Theorem max_cut_maximum (g : Graph) (slv : Solver) (f : WCNFFormula)
    (opt : Z) (model : list Z) :
  well_formed g = true ->
  TOP_WEIGHT <> 1 ->
  max_cut_formula g = Ok f ->
  slv f = Ok (opt, model) ->
  SolverPort f (Ok (opt, model)) ->
  exists part,
    max_cut g slv = Ok part /\
    NoDup part /\
    (forall v, In v part -> 1 <= v <= n_nodes g) /\
    opt = Z.of_nat (List.length (edges g))
          - Z.of_nat (List.length
                        (cut_edges (fun v => Py.mem Z.eqb v part) g)) /\
    forall side : Z -> bool,
      (List.length (cut_edges side g)
       <= List.length (cut_edges (fun v => Py.mem Z.eqb v part) g))%nat.
Proof.
  intros Hwf Htop Hf Hslv (Hc & Hs & Hopt & Hmin).
  rewrite (max_cut_formula_eq g Hwf Htop) in Hf. injection Hf as Hf.
  assert (Hnv : num_vars f = Z.of_nat (Z.to_nat (n_nodes g)))
    by (now rewrite <- Hf).
  assert (Hpart : cut_edges (fun v => Py.mem Z.eqb v (positive_literals model))
                    g
                  = cut_edges (lit_true model) g).
  { apply cut_edges_ext; auto. intros v Hv.
    destruct (lit_true model v) eqn:E.
    - apply lit_true_In, positive_literals_In. split; [exact E | lia].
    - destruct (Py.mem Z.eqb v (positive_literals model)) eqn:E'; auto.
      apply lit_true_In, positive_literals_In in E' as [E' _]. congruence. }
  exists (positive_literals model). split; [|split; [|split; [|split]]].
  - unfold max_cut. rewrite (max_cut_formula_eq g Hwf Htop), Hf. cbn [bind].
    now rewrite Hslv.
  - eapply positive_literals_NoDup; eauto.
  - intros v Hv. pose proof (positive_literals_range _ _ _ Hc Hv). lia.
  - rewrite Hpart, Hopt. rewrite <- Hf in Hc |- *. now apply cut_cost.
  - intros side. rewrite Hpart.
    set (m := model_of side (num_vars f)).
    assert (Hcm : complete f m = true) by apply model_of_complete.
    assert (Hsm : sat_hard m f = true) by (now rewrite <- Hf).
    specialize (Hmin m Hcm Hsm).
    rewrite <- Hf in Hopt, Hmin, Hc, Hcm.
    rewrite (cut_cost g model Hwf Hc) in Hopt.
    rewrite (cut_cost g m Hwf Hcm) in Hmin.
    assert (Hside : cut_edges (lit_true m) g = cut_edges side g).
    { apply cut_edges_ext; auto. intros v Hv. unfold m.
      apply model_of_lit. lia. }
    rewrite Hside in Hmin. lia.
Qed.

(** ** Reading a graph *)

Lemma item_3 {A : Type} (x y z w : A) (r : list A) :
  Py.item (x :: y :: z :: w :: r) 3 = Ok w.
Proof. now rewrite item_nonneg by lia. Qed.

Lemma read_line_bad (line : string) (s : read_state) :
  line_ok (Py.split line) = false ->
  read_line line s = Raise IndexError \/ read_line line s = Raise ValueError.
Proof.
  unfold read_line, line_ok, is_int.
  destruct (Py.split line) as [|t r]; [now left|].
  rewrite item_0_cons. cbn [bind].
  destruct (String.eqb t "p").
  - destruct r as [|x [|y [|z r]]].
    + left. now rewrite item_out by (cbn; lia).
    + left. now rewrite item_out by (cbn; lia).
    + rewrite item_2. cbn [bind]. intros _.
      destruct (Py.int y) as [n|e] eqn:Ey; cbn [bind].
      * left. now rewrite item_out by (cbn; lia).
      * apply int_error in Ey as ->. now right.
    + rewrite item_2, item_3. cbn [bind].
      destruct (Py.int y) as [n|e] eqn:Ey; cbn [bind].
      * destruct (Py.int z) as [m|e] eqn:Ez; cbn [bind andb]; intros H;
          [discriminate H|].
        apply int_error in Ez as ->. now right.
      * intros _. apply int_error in Ey as ->. now right.
  - destruct (String.eqb t "c"); [intros H; discriminate H|].
    destruct r as [|x [|y r]].
    + left. now rewrite item_out by (cbn; lia).
    + rewrite item_1. cbn [bind]. intros _.
      destruct (Py.int x) as [a|e] eqn:Ex; cbn [bind].
      * left. now rewrite item_out by (cbn; lia).
      * apply int_error in Ex as ->. now right.
    + rewrite item_1, item_2. cbn [bind].
      destruct (Py.int x) as [a|e] eqn:Ex; cbn [bind].
      * destruct (Py.int y) as [b|e] eqn:Ey; cbn [bind andb]; intros H;
          [discriminate H|].
        apply int_error in Ey as ->. now right.
      * intros _. apply int_error in Ex as ->. now right.
Qed.

(** What one accepted line does to the state of the loop. *)
Lemma read_line_good (line : string) (s : read_state) :
  line_ok (Py.split line) = true ->
  (exists n m, declared_counts (Py.split line) = Some (n, m) /\
               declared_edge (Py.split line) = None /\
               read_line line s = Ok (mkRead n m (rs_edges s))) \/
  (declared_counts (Py.split line) = None /\
   declared_edge (Py.split line) = None /\
   is_problem_line (Py.split line) = false /\
   is_edge_line (Py.split line) = false /\
   read_line line s = Ok s) \/
  (exists a b, declared_edge (Py.split line) = Some (a, b) /\
               declared_counts (Py.split line) = None /\
               is_problem_line (Py.split line) = false /\
               read_line line s =
                 Ok (mkRead (rs_n_nodes s) (rs_n_edges s)
                       (Py.set_add clause_eqb (frozenset2 a b) (rs_edges s)))).
Proof.
  unfold read_line, line_ok, declared_counts, declared_edge, is_edge_line,
    is_problem_line, is_int.
  destruct (Py.split line) as [|t r]; [intros H; discriminate H|].
  rewrite item_0_cons. cbn [bind].
  destruct (String.eqb t "p") eqn:Ep.
  - destruct r as [|x [|y [|z r]]]; try (intros H; discriminate H).
    rewrite item_2, item_3. cbn [bind negb andb].
    destruct (Py.int y) as [n|e]; [|intros H; discriminate H].
    destruct (Py.int z) as [m|e]; [|intros H; discriminate H].
    intros _. left. exists n, m. cbn [bind]. auto.
  - destruct (String.eqb t "c") eqn:Ec.
    + intros _. right. left. cbn [negb andb].
      destruct r as [|x [|y [|z r]]]; auto 6.
    + destruct r as [|x [|y r]]; try (intros H; discriminate H).
      rewrite item_1, item_2. cbn [bind negb andb].
      destruct (Py.int x) as [a|e]; [|intros H; discriminate H].
      destruct (Py.int y) as [b|e]; [|intros H; discriminate H].
      intros _. right. right. exists a, b. cbn [bind].
      destruct r; auto.
Qed.

Lemma read_loop_graph (ls : list string) :
  forall s,
    (forallb line_ok (map Py.split ls) = true ->
     exists s', for_each read_line ls s = Ok s') /\
    (forallb line_ok (map Py.split ls) = false ->
     for_each read_line ls s = Raise IndexError \/
     for_each read_line ls s = Raise ValueError).
Proof.
  induction ls as [|line ls IH]; intros s; cbn [map forallb for_each].
  - split; [eauto | discriminate].
  - destruct (line_ok (Py.split line)) eqn:E; cbn [andb].
    + assert (Hs : exists t, read_line line s = Ok t).
      { destruct (read_line_good line s E)
          as [(n & m & _ & _ & H) | [(_ & _ & _ & _ & H) | (a & b & _ & _ & _ & H)]];
          eauto. }
      destruct Hs as [t Ht]. rewrite Ht. cbn [bind]. apply IH.
    + split; [discriminate|]. intros _.
      destruct (read_line_bad line s E) as [-> | ->]; auto.
Qed.

(** X13: A graph is read exactly when every non-blank line is a comment, a
    problem line with integers as third and fourth token, or another
    line with integers as second and third token; otherwise reading
    stops with [IndexError] or [ValueError]. *)
Theorem read_stream_accepts (self : Graph) (stream : list string) :
  (forallb line_ok (token_lines stream) = true ->
   exists g out, read_stream self stream = Ok (g, out)) /\
  (forallb line_ok (token_lines stream) = false ->
   read_stream self stream = Raise IndexError \/
   read_stream self stream = Raise ValueError).
Proof.
  unfold read_stream, token_lines.
  destruct (read_loop_graph (reader stream) (mkRead (n_nodes self) (-1) []))
    as [Hgood Hbad].
  split; intros H.
  - destruct (Hgood H) as [s ->]. cbn [bind]. eauto.
  - destruct (Hbad H) as [-> | ->]; auto.
Qed.

Lemma for_each_Ok_each {A S : Type} (body : A -> S -> result S) (l : list A)
    (x : A) :
  In x l ->
  forall s s', for_each body l s = Ok s' -> exists t t', body x t = Ok t'.
Proof.
  induction l as [|y r IH]; [contradiction|].
  intros Hin s s' Hrun. cbn [for_each] in Hrun.
  apply bind_Ok in Hrun as [t [Hy Hr]].
  destruct Hin as [-> | Hin]; eauto.
Qed.

Lemma read_line_Ok (line : string) (s s' : read_state) :
  read_line line s = Ok s' ->
  (exists n m, declared_counts (Py.split line) = Some (n, m) /\
               s' = mkRead n m (rs_edges s)) \/
  (is_problem_line (Py.split line) = false /\
   is_edge_line (Py.split line) = false /\
   declared_edge (Py.split line) = None /\ s' = s) \/
  (exists a b, declared_edge (Py.split line) = Some (a, b) /\
               is_problem_line (Py.split line) = false /\
               s' = mkRead (rs_n_nodes s) (rs_n_edges s)
                      (Py.set_add clause_eqb (frozenset2 a b) (rs_edges s))).
Proof.
  intros H. destruct (line_ok (Py.split line)) eqn:E.
  - destruct (read_line_good line s E)
      as [(n & m & Hc & _ & Hr) | [(_ & He & Hp & Hq & Hr) | (a & b & He & _ & Hp & Hr)]];
      rewrite Hr in H; injection H as <-.
    + left. eauto.
    + right. left. auto.
    + right. right. eauto.
  - destruct (read_line_bad line s E) as [Hr | Hr]; rewrite Hr in H;
      discriminate H.
Qed.

Lemma frozenset2_perm_eq (a b c d : Z) :
  Permutation (frozenset2 a b) (frozenset2 c d) ->
  frozenset2 a b = frozenset2 c d.
Proof.
  unfold frozenset2.
  destruct (Z.eqb_spec a b) as [Hab|Hab], (Z.eqb_spec c d) as [Hcd|Hcd];
    try destruct (Z.ltb_spec a b) as [Hlt|Hlt];
    try destruct (Z.ltb_spec c d) as [Hlt'|Hlt'];
    intros Hp;
    try (apply Permutation_length in Hp; discriminate Hp);
    try (apply Permutation_length_1 in Hp; now subst);
    apply Permutation_length_2 in Hp as [[-> ->] | [-> ->]];
    auto; lia.
Qed.

Lemma set_add_NoDup (x : list Z) (s : list (list Z)) :
  NoDup s -> NoDup (Py.set_add clause_eqb x s).
Proof.
  intros H. unfold Py.set_add. destruct (Py.mem clause_eqb x s) eqn:E; auto.
  apply (Permutation_NoDup (Permutation_cons_append s x)).
  constructor; auto. intros Hin. apply mem_clause_In in Hin. congruence.
Qed.

Lemma map_NoDup_on {A B : Type} (f : A -> B) (l : list A) :
  (forall x y, In x l -> In y l -> f x = f y -> x = y) ->
  NoDup l -> NoDup (map f l).
Proof.
  intros Hinj H. induction H as [|x l Hx Hl IH]; cbn [map]; constructor.
  - intros Hin. apply in_map_iff in Hin as (y & Hy & Hin).
    assert (y = x) by (apply Hinj; cbn; auto). now subst.
  - apply IH. intros a b Ha Hb. apply Hinj; now right.
Qed.

(** X14: The edges stored by [read_stream] are the endpoint sets that the
    edge lines declare, each one once: a line that is neither a comment
    nor a problem line declares the set of its second and third token,
    and two stored tuples never hold the same nodes. *)
Theorem read_stream_edges (self g : Graph) (out : list string)
    (stream : list string) :
  read_stream self stream = Ok (g, out) ->
  (forall l, In l (token_lines stream) -> is_edge_line l = true ->
             exists a b, declared_edge l = Some (a, b)) /\
  (forall e, In e (edges g) <->
             exists l a b, In l (token_lines stream) /\
                           declared_edge l = Some (a, b) /\
                           e = set_order Z (frozenset2 a b)) /\
  NoDup (edges g) /\
  (forall e1 e2, In e1 (edges g) -> In e2 (edges g) -> Permutation e1 e2 ->
                 e1 = e2).
Proof.
  intros H. unfold read_stream in H.
  apply bind_Ok in H as [s [Hrun H]]. injection H as <- _. cbn [edges].
  unfold token_lines.
  set (s0 := mkRead (n_nodes self) (-1) []) in Hrun.
  assert (Hsound :
            NoDup (rs_edges s) /\
            forall c, In c (rs_edges s) ->
                      exists l a b, In l (map Py.split (reader stream)) /\
                                    declared_edge l = Some (a, b) /\
                                    c = frozenset2 a b).
  { apply (for_each_inv
             (fun s => NoDup (rs_edges s) /\
                       forall c, In c (rs_edges s) ->
                                 exists l a b,
                                   In l (map Py.split (reader stream)) /\
                                   declared_edge l = Some (a, b) /\
                                   c = frozenset2 a b)
             read_line (reader stream) s0 s); auto.
    - intros line t t' Hline [Hnd Hall] Hstep.
      destruct (read_line_Ok line t t' Hstep)
        as [(n & m & _ & ->) | [(_ & _ & _ & ->) | (a & b & He & _ & ->)]];
        cbn [rs_edges]; auto.
      split; [now apply set_add_NoDup|].
      intros c Hc. apply clause_set_add_In in Hc as [Hc | ->]; auto.
      exists (Py.split line), a, b. split; [now apply in_map | auto].
    - split; [constructor | intros c []]. }
  destruct Hsound as [Hnd Hsound].
  assert (Hcomplete :
            forall line a b,
              In line (reader stream) ->
              declared_edge (Py.split line) = Some (a, b) ->
              In (frozenset2 a b) (rs_edges s)).
  { intros line a b Hline He.
    apply (for_each_reach (fun s => In (frozenset2 a b) (rs_edges s)) read_line
             (reader stream) line Hline) with (s := s0); auto.
    - intros t t' Hstep.
      destruct (read_line_Ok line t t' Hstep)
        as [(n & m & Hc & ->) | [(_ & _ & He' & ->) | (a' & b' & He' & _ & ->)]].
      + exfalso. unfold declared_counts, declared_edge, is_edge_line,
          is_problem_line in *.
        destruct (Py.split line) as [|t0 [|x [|y [|z r]]]]; try discriminate.
        destruct (String.eqb t0 "p"); cbn [negb andb] in He; discriminate.
      + congruence.
      + rewrite He in He'. injection He' as <- <-. cbn [rs_edges].
        apply clause_set_add_In. now right.
    - intros y t t' Ht Hstep. eapply read_line_keeps; eauto. }
  assert (Hcanon : forall c1 c2, In c1 (rs_edges s) -> In c2 (rs_edges s) ->
                                 Permutation c1 c2 -> c1 = c2).
  { intros c1 c2 H1 H2 Hp.
    destruct (Hsound _ H1) as (_ & a & b & _ & _ & ->).
    destruct (Hsound _ H2) as (_ & c & d & _ & _ & ->).
    now apply frozenset2_perm_eq. }
  assert (Hstored : forall e, In e (map (set_order Z)
                                      (set_order (list Z) (rs_edges s))) <->
                              exists c, In c (rs_edges s) /\ e = set_order Z c).
  { intros e. rewrite in_map_iff. split; intros (c & H1 & H2).
    - exists c. split; auto.
      eapply Permutation_in; [apply set_order_perm | exact H2].
    - exists c. split; auto.
      eapply Permutation_in; [apply Permutation_sym, set_order_perm | exact H1].
 }
  assert (Hinj : forall c1 c2, In c1 (rs_edges s) -> In c2 (rs_edges s) ->
                               Permutation (set_order Z c1) (set_order Z c2) ->
                               c1 = c2).
  { intros c1 c2 H1 H2 Hp. apply Hcanon; auto.
    eapply Permutation_trans; [apply Permutation_sym, set_order_perm|].
    eapply Permutation_trans; [exact Hp | apply set_order_perm]. }
  split; [|split; [|split]].
  - intros l Hl Hedge. apply in_map_iff in Hl as (line & <- & Hline).
    assert (Hok : exists t t', read_line line t = Ok t').
    { eapply for_each_Ok_each; eauto. }
    destruct Hok as (t & t' & Hstep).
    destruct (read_line_Ok line t t' Hstep)
      as [(n & m & Hc & _) | [(_ & Hq & _) | (a & b & He & _ & _)]]; eauto.
    + exfalso. unfold declared_counts, is_edge_line, is_problem_line in *.
      destruct (Py.split line) as [|t0 [|x [|y [|z r]]]]; try discriminate.
      destruct (String.eqb t0 "p"); cbn [negb andb] in Hedge; discriminate.
    + congruence.
  - intros e. rewrite Hstored. split.
    + intros (c & Hc & ->).
      destruct (Hsound c Hc) as (l & a & b & Hl & He & ->).
      exists l, a, b. auto.
    + intros (l & a & b & Hl & He & ->).
      apply in_map_iff in Hl as (line & <- & Hline).
      exists (frozenset2 a b). split; auto. eapply Hcomplete; eauto.
  - apply map_NoDup_on.
    + intros c1 c2 H1 H2 Heq.
      apply Hinj;
        try (eapply Permutation_in; [apply set_order_perm | eassumption]).
      now rewrite Heq.
    + eapply Permutation_NoDup; [apply Permutation_sym, set_order_perm | auto].
  - intros e1 e2 H1 H2 Hp.
    apply Hstored in H1 as (c1 & H1 & ->). apply Hstored in H2 as (c2 & H2 & ->).
    f_equal. now apply Hinj.
Qed.

Lemma for_each_app {A S : Type} (body : A -> S -> result S) (l1 l2 : list A)
    (s : S) :
  for_each body (l1 ++ l2) s = bind (for_each body l1 s) (for_each body l2).
Proof.
  revert s. induction l1 as [|x r IH]; intros s; cbn [app for_each bind]; auto.
  destruct (body x s); cbn [bind]; auto.
Qed.

Lemma declared_counts_problem (l : list string) (c : Z * Z) :
  declared_counts l = Some c -> is_problem_line l = true.
Proof.
  unfold declared_counts. destruct l as [|t [|x [|y [|z r]]]]; try discriminate.
  destruct (is_problem_line _); [auto | discriminate].
Qed.

(** Lines other than problem lines leave the two counts as they are. *)
Lemma read_loop_counts (ls : list string) (s s' : read_state) :
  forallb (fun l => negb (is_problem_line l)) (map Py.split ls) = true ->
  for_each read_line ls s = Ok s' ->
  rs_n_nodes s' = rs_n_nodes s /\ rs_n_edges s' = rs_n_edges s.
Proof.
  intros Hno Hrun. rewrite forallb_forall in Hno.
  apply (for_each_inv
           (fun t => rs_n_nodes t = rs_n_nodes s /\ rs_n_edges t = rs_n_edges s)
           read_line ls s s'); auto.
  intros line t t' Hline Ht Hstep.
  destruct (read_line_Ok line t t' Hstep)
    as [(n & m & Hc & _) | [(_ & _ & _ & ->) | (a & b & _ & _ & ->)]]; auto.
  apply declared_counts_problem in Hc.
  specialize (Hno (Py.split line) (in_map _ _ _ Hline)).
  rewrite Hc in Hno. discriminate Hno.
Qed.

(** X15: The node count of the graph is the one of the last problem line, and
    the warning is printed exactly when the edge count of that line
    differs from the number of stored edges; without a problem line the
    node count is left as it was and the warning is always printed. *)
Theorem read_stream_problem_line (self g : Graph) (out : list string)
    (stream : list string) :
  read_stream self stream = Ok (g, out) ->
  (forallb (fun l => negb (is_problem_line l)) (token_lines stream) = true ->
   n_nodes g = n_nodes self /\ out = ["Warning incorrect number of edges"]) /\
  (forall pre l post,
      token_lines stream = pre ++ l :: post ->
      is_problem_line l = true ->
      forallb (fun l => negb (is_problem_line l)) post = true ->
      exists n m,
        declared_counts l = Some (n, m) /\
        n_nodes g = n /\
        out = if m =? Z.of_nat (List.length (edges g)) then []
              else ["Warning incorrect number of edges"]).
Proof.
  intros H. unfold read_stream in H.
  apply bind_Ok in H as [s [Hrun H]]. injection H as <- <-.
  cbn [edges n_nodes].
  assert (Hlen : List.length (map (set_order Z)
                                (set_order (list Z) (rs_edges s)))
                 = List.length (rs_edges s)).
  { rewrite length_map. apply Permutation_length, set_order_perm. }
  rewrite Hlen. unfold token_lines. split.
  - intros Hno.
    destruct (read_loop_counts _ _ _ Hno Hrun) as [Hn Hm].
    cbn [rs_n_nodes rs_n_edges] in Hn, Hm. rewrite Hn, Hm. split; auto.
    destruct (Z.eqb_spec (-1) (Z.of_nat (List.length (rs_edges s)))); auto. lia.
  - intros pre l post Hsplit Hp Hno.
    apply map_eq_app in Hsplit as (ls1 & ls2 & Hr & <- & Hsplit).
    apply map_eq_cons in Hsplit as (line & ls3 & -> & <- & <-).
    rewrite Hr, for_each_app in Hrun.
    apply bind_Ok in Hrun as [s1 [_ Hrun]]. cbn [for_each] in Hrun.
    apply bind_Ok in Hrun as [s2 [Hstep Hrun]].
    destruct (read_loop_counts _ _ _ Hno Hrun) as [Hn Hm].
    destruct (read_line_Ok line s1 s2 Hstep)
      as [(n & m & Hc & ->) | [(Hq & _) | (a & b & _ & Hq & _)]];
      try congruence.
    exists n, m. cbn [rs_n_nodes rs_n_edges] in Hn, Hm.
    rewrite Hn, Hm. auto.
Qed.

(** ** Endpoints outside [1 .. n_nodes] *)

Lemma node_item_wrap (n a : Z) :
  0 <= n -> indexable n a = true ->
  Py.item (Py.range 1 (n + 1)) (a - 1) = Ok (node_at n a).
Proof.
  unfold indexable, node_at. intros Hn Ha.
  destruct (Z.leb_spec a 0).
  - transitivity (Py.item (Py.range 1 (n + 1)) (a - 1 + n)).
    + assert (E1 : (a - 1 <? 0) = true) by (apply Z.ltb_lt; lia).
      assert (E2 : (a - 1 + n <? 0) = false) by (apply Z.ltb_ge; lia).
      unfold Py.item. rewrite range_length.
      replace (Z.of_nat (Z.to_nat (n + 1 - 1))) with n by lia.
      cbv zeta. rewrite E1, !E2. reflexivity.
    + rewrite range_item by lia. f_equal. lia.
  - apply node_item. lia.
Qed.

Lemma node_item_bad (n a : Z) :
  0 <= n -> indexable n a = false ->
  Py.item (Py.range 1 (n + 1)) (a - 1) = Raise IndexError.
Proof.
  unfold indexable. intros Hn Ha. unfold Py.item. rewrite range_length.
  replace (Z.of_nat (Z.to_nat (n + 1 - 1))) with n by lia.
  cbv zeta. destruct (Z.ltb_spec (a - 1) 0).
  - assert (E : (a - 1 + n <? 0) = true) by (apply Z.ltb_lt; lia).
    now rewrite E.
  - assert (E : (n <=? a - 1) = true) by (apply Z.leb_le; lia).
    rewrite E. now rewrite orb_true_r.
Qed.

Lemma node_at_range (n a : Z) :
  indexable n a = true -> 1 <= node_at n a <= n.
Proof. unfold indexable, node_at. destruct (Z.leb_spec a 0); lia. Qed.

Lemma node_at_indexable (n a : Z) :
  indexable n a = true ->
  Py.item (Py.range 1 (n + 1)) (node_at n a - 1) = Ok (node_at n a).
Proof. intros H. apply node_item. now apply node_at_range. Qed.

Lemma for_each_map_ext {A S : Type} (body : A -> S -> result S) (h : A -> A)
    (l : list A) :
  (forall x, In x l -> forall s, body x s = body (h x) s) ->
  forall s, for_each body l s = for_each body (map h l) s.
Proof.
  induction l as [|x r IH]; intros Hext s; cbn [map for_each]; auto.
  rewrite <- (Hext x (or_introl eq_refl)).
  destruct (body x s); cbn [bind]; auto.
  apply IH. intros y Hy. apply Hext. now right.
Qed.

(** X20: An endpoint [a] with [1 - n_nodes <= a <= 0] is not rejected: the
    three operations read it as node [a + n_nodes], so they build, and
    return, what they build and return for the graph with those
    endpoints renumbered. *)
Theorem negative_endpoint_wraps (g : Graph) :
  0 <= n_nodes g ->
  (forall e a, In e (edges g) -> In a e -> indexable (n_nodes g) a = true) ->
  (forall e a, In e (edges (renumber g)) -> In a e -> 1 <= a <= n_nodes g) /\
  min_vertex_cover_formula g = min_vertex_cover_formula (renumber g) /\
  max_clique_formula g = max_clique_formula (renumber g) /\
  max_cut_formula g = max_cut_formula (renumber g) /\
  forall slv,
    min_vertex_cover g slv = min_vertex_cover (renumber g) slv /\
    max_clique g slv = max_clique (renumber g) slv /\
    max_cut g slv = max_cut (renumber g) slv.
Proof.
  intros Hn Hidx.
  assert (Hitem : forall e a, In e (edges g) -> In a e ->
            Py.item (Py.range 1 (n_nodes g + 1)) (a - 1) =
            Py.item (Py.range 1 (n_nodes g + 1)) (node_at (n_nodes g) a - 1)).
  { intros e a He Ha. specialize (Hidx e a He Ha).
    now rewrite node_item_wrap, node_at_indexable. }
  assert (H1 : min_vertex_cover_formula g
               = min_vertex_cover_formula (renumber g)).
  { unfold min_vertex_cover_formula, renumber. cbn [edges n_nodes].
    rewrite new_vars_spec, nodes_range.
    apply for_each_map_ext. intros e He f.
    destruct e as [|a [|b [|c r]]]; cbn [map unpack2 bind]; auto.
    now rewrite (Hitem [a; b] a He), (Hitem [a; b] b He) by (cbn; auto). }
  assert (H2 : max_clique_formula g = max_clique_formula (renumber g)).
  { unfold max_clique_formula, renumber. cbn [edges n_nodes].
    rewrite new_vars_spec, nodes_range.
    destruct (rev (Py.range 1 (n_nodes g + 1))) as [|n r]; auto.
    f_equal. apply for_each_map_ext. intros e He m. unfold mark_edge.
    destruct e as [|a [|b [|c r']]]; cbn [map unpack2 bind]; auto.
    now rewrite (Hitem [a; b] a He), (Hitem [a; b] b He) by (cbn; auto). }
  assert (H3 : max_cut_formula g = max_cut_formula (renumber g)).
  { unfold max_cut_formula, renumber. cbn [edges n_nodes].
    rewrite new_vars_spec, nodes_range.
    apply for_each_map_ext. intros e He f.
    destruct e as [|a [|b [|c r]]]; cbn [map unpack2 bind]; auto.
    now rewrite (Hitem [a; b] a He), (Hitem [a; b] b He) by (cbn; auto). }
  split; [|split; [|split; [|split]]]; auto.
  - intros e a He Ha. unfold renumber in He. cbn [edges] in He.
    apply in_map_iff in He as (e0 & <- & He0).
    apply in_map_iff in Ha as (a0 & <- & Ha0).
    apply node_at_range. eauto.
  - intros slv. unfold min_vertex_cover, max_clique, max_cut.
    now rewrite H1, H2, H3.
Qed.

Lemma for_each_raises {A S : Type} (I : S -> Prop) (e : exn)
    (body : A -> S -> result S) (l : list A) :
  (forall x s, In x l -> I s ->
               (exists s', body x s = Ok s' /\ I s') \/ body x s = Raise e) ->
  (exists x, In x l /\ forall s, body x s = Raise e) ->
  forall s, I s -> for_each body l s = Raise e.
Proof.
  induction l as [|y r IH]; intros Hstep (x & Hin & Hx) s Hs;
    [contradiction|].
  cbn [for_each].
  destruct (Hstep y s (or_introl eq_refl) Hs) as [(s' & Hy & Hs') | Hy];
    rewrite Hy; cbn [bind]; auto.
  destruct Hin as [-> | Hin]; [rewrite Hx in Hy; discriminate Hy|].
  apply IH; eauto. intros z t Hz. apply Hstep. now right.
Qed.

(** The two lookups [nodes[a - 1]], [nodes[b - 1]] of an edge. *)
Lemma endpoints_lookup (n a b : Z) :
  0 <= n ->
  (indexable n a = true /\ indexable n b = true /\
   Py.item (Py.range 1 (n + 1)) (a - 1) = Ok (node_at n a) /\
   Py.item (Py.range 1 (n + 1)) (b - 1) = Ok (node_at n b)) \/
  ((indexable n a = false \/ indexable n b = false) /\
   forall (B : Type) (k : Z -> Z -> result B),
     (v1 <- Py.item (Py.range 1 (n + 1)) (a - 1) ;;
      v2 <- Py.item (Py.range 1 (n + 1)) (b - 1) ;;
      k v1 v2) = Raise IndexError).
Proof.
  intros Hn. destruct (indexable n a) eqn:Ea.
  - destruct (indexable n b) eqn:Eb.
    + left. now rewrite !node_item_wrap.
    + right. split; auto. intros B k.
      now rewrite node_item_wrap, node_item_bad.
  - right. split; auto. intros B k. now rewrite node_item_bad.
Qed.

(** X21: When every edge tuple is a pair and some endpoint [a] has neither
    [1 <= a <= n_nodes] nor [1 - n_nodes <= a <= 0], each of the three
    operations stops with [IndexError] before the solver is called;
    [max_clique] of a graph without nodes stops earlier, on the unbound
    name [n]. *)
Theorem endpoint_out_of_range_raises (g : Graph) (slv : Solver) :
  0 <= n_nodes g ->
  (forall e, In e (edges g) -> exists a b, e = [a; b]) ->
  (exists a b, In [a; b] (edges g) /\
               (indexable (n_nodes g) a = false \/
                indexable (n_nodes g) b = false)) ->
  min_vertex_cover g slv = Raise IndexError /\
  max_cut g slv = Raise IndexError /\
  (1 <= n_nodes g -> max_clique g slv = Raise IndexError) /\
  (n_nodes g = 0 -> max_clique g slv = Raise UnboundLocalError).
Proof.
  intros Hn Hpairs (a & b & Hin & Hbad).
  split; [|split; [|split]].
  - apply solve_after_failure. unfold min_vertex_cover_formula.
    rewrite new_vars_spec, nodes_range.
    apply (for_each_raises (fun _ => True)); auto.
    + intros e f He _. destruct (Hpairs e He) as (x & y & ->).
      cbn [unpack2 bind].
      destruct (endpoints_lookup (n_nodes g) x y Hn)
        as [(_ & _ & -> & ->) | [_ ->]]; cbn [bind]; eauto.
    + exists [a; b]. split; auto. intros f. cbn [unpack2 bind].
      destruct (endpoints_lookup (n_nodes g) a b Hn)
        as [(Ha & Hb & _) | [_ ->]]; auto.
      destruct Hbad; congruence.
  - apply solve_after_failure. unfold max_cut_formula.
    rewrite new_vars_spec, nodes_range.
    apply (for_each_raises (fun _ => True)); auto.
    + intros e f He _. destruct (Hpairs e He) as (x & y & ->).
      cbn [unpack2 bind].
      destruct (endpoints_lookup (n_nodes g) x y Hn)
        as [(_ & _ & -> & ->) | [_ ->]]; cbn [bind]; eauto.
    + exists [a; b]. split; auto. intros f. cbn [unpack2 bind].
      destruct (endpoints_lookup (n_nodes g) a b Hn)
        as [(Ha & Hb & _) | [_ ->]]; auto.
      destruct Hbad; congruence.
  - intros Hn1. apply solve_after_failure. unfold max_clique_formula.
    rewrite new_vars_spec, nodes_range, rev_nodes by auto.
    rewrite (for_each_raises (square (n_nodes g)) IndexError); auto.
    + intros e m He Hm. destruct (Hpairs e He) as (x & y & ->).
      destruct (endpoints_lookup (n_nodes g) x y Hn)
        as [(Hx & Hy & Ex & Ey) | [_ E]].
      * left.
        destruct (mark_edge_ok (n_nodes g) (node_at (n_nodes g) x)
                    (node_at (n_nodes g) y) m
                    (node_at_range _ _ Hx) (node_at_range _ _ Hy) Hm)
          as (m' & Hm' & Hsq).
        exists m'. split; auto. rewrite <- Hm'. unfold mark_edge.
        cbn [unpack2 bind].
        now rewrite Ex, Ey, !node_at_indexable.
      * right. unfold mark_edge. cbn [unpack2 bind]. apply E.
    + exists [a; b]. split; auto. intros m. unfold mark_edge.
      cbn [unpack2 bind].
      destruct (endpoints_lookup (n_nodes g) a b Hn)
        as [(Ha & Hb & _) | [_ E]]; [|apply E].
      destruct Hbad; congruence.
    + apply square_repeat. lia.
  - intros Hn0. apply solve_after_failure. apply max_clique_unbound. lia.
Qed.

(** ** What the reading loop depends on *)

Lemma with_auctioneers_same (s : Auction) :
  with_auctioneers s (auctioneers s) = s.
Proof. now destruct s. Qed.

Lemma record_bid_auctioneers (b : list string) (s : Auction)
    (X : list string) :
  record_bid b (with_auctioneers s X) =
    (r <- record_bid b s ;; Ok (with_auctioneers r X)).
Proof.
  unfold record_bid, manage_auction, with_auctioneers.
  cbn [flag formula solver goods auctions auctioneers].
  destruct (Py.item b (-1)) as [p|e]; cbn [bind]; auto.
  destruct (Py.int p) as [w|e]; cbn [bind]; auto.
Qed.

Lemma record_bid_keeps (b : list string) (s r : Auction) :
  record_bid b s = Ok r -> auctioneers r = auctioneers s.
Proof.
  unfold record_bid, manage_auction.
  cbn [flag formula solver goods auctions auctioneers]. intros H.
  apply bind_Ok in H as (p & _ & H). apply bind_Ok in H as (w & _ & H).
  cbn [new_var] in H. now injection H as <-.
Qed.

Lemma record_bids_auctioneers (bs : list (list string)) (X : list string) :
  forall s,
    for_each record_bid bs (with_auctioneers s X) =
      (r <- for_each record_bid bs s ;; Ok (with_auctioneers r X)).
Proof.
  induction bs as [|b bs IH]; intros s; cbn [for_each bind]; auto.
  rewrite record_bid_auctioneers.
  destruct (record_bid b s) as [r|e]; cbn [bind]; auto.
Qed.

Lemma record_bids_keep (bs : list (list string)) :
  forall s r, for_each record_bid bs s = Ok r ->
              auctioneers r = auctioneers s.
Proof.
  induction bs as [|b bs IH]; intros s r H; cbn [for_each] in H.
  - now injection H as <-.
  - apply bind_Ok in H as (t & Hb & H). rewrite (IH _ _ H).
    eapply record_bid_keeps; eauto.
Qed.

Lemma parse_line_form (line : string) (s : Auction) :
  Py.split line <> [] ->
  parse_line line s =
    if is_bid (Py.split line) then record_bid (Py.split line) s
    else Ok (with_auctioneers s
               (auctioneers s ++ auctioneers_of (Py.split line))).
Proof.
  intros Hne. unfold parse_line, record_bid, auctioneers_of, is_bid.
  destruct (Py.split line) as [|t r] eqn:El; [contradiction|].
  rewrite item_0_cons. cbn [bind].
  destruct (String.eqb t "a") eqn:Ea.
  - rewrite andb_false_r.
    change (List.length (t :: r)) with (S (List.length r)).
    f_equal. unfold with_auctioneers. f_equal. f_equal.
    exact (slice_tail (t :: r)).
  - destruct (String.eqb t "g"); cbn [negb andb]; auto.
    now rewrite app_nil_r, with_auctioneers_same.
Qed.

(** The reading loop is the recording of the bid lines, in order,
    followed by the appending of the declared auctioneers. *)
Lemma read_loop_form (ls : list string) :
  (forall line, In line ls -> Py.split line <> []) ->
  forall s,
    for_each parse_line ls s =
      (r <- for_each record_bid (filter is_bid (map Py.split ls)) s ;;
       Ok (with_auctioneers r
             (auctioneers s ++ flat_map auctioneers_of (map Py.split ls)))).
Proof.
  induction ls as [|line ls IH]; intros Hne s.
  - cbn [map filter flat_map for_each bind].
    now rewrite app_nil_r, with_auctioneers_same.
  - cbn [for_each map filter flat_map].
    rewrite (parse_line_form line s (Hne line (or_introl eq_refl))).
    assert (Hne' : forall l, In l ls -> Py.split l <> [])
      by (intros l Hl; apply Hne; now right).
    destruct (is_bid (Py.split line)) eqn:Eb.
    + cbn [for_each].
      destruct (record_bid (Py.split line) s) as [t|e] eqn:Er; cbn [bind]; auto.
      rewrite (IH Hne' t), (record_bid_keeps _ _ _ Er).
      assert (Ha : auctioneers_of (Py.split line) = []).
      { unfold auctioneers_of, is_bid in *.
        destruct (Py.split line) as [|t0 r]; auto.
        destruct (String.eqb t0 "a"); auto.
        rewrite andb_false_r in Eb. discriminate Eb. }
      now rewrite Ha.
    + cbn [bind]. rewrite (IH Hne' _), record_bids_auctioneers.
      destruct (for_each record_bid _ s) as [r|e]; cbn [bind]; auto.
      unfold with_auctioneers. cbn [flag formula solver goods auctions auctioneers].
      now rewrite <- app_assoc.
Qed.

(** X11: The object that [parse_input_stream] builds, and the answer it
    returns, depend on the input only through the list of bid rows and
    the list of declared auctioneers: the [g] lines are never consulted,
    and neither is the place of the [a] lines among the bids. *)
Theorem goods_lines_ignored (self : Auction) (stream1 stream2 : list string) :
  declared_bids stream1 = declared_bids stream2 ->
  declared_auctioneers stream1 = declared_auctioneers stream2 ->
  encode self stream1 = encode self stream2 /\
  parse_input_stream self stream1 = parse_input_stream self stream2.
Proof.
  intros Hb Ha.
  assert (Hloop : for_each parse_line (reader stream1) self
                  = for_each parse_line (reader stream2) self).
  { rewrite !read_loop_form by (intros line; apply reader_tokens).
    unfold declared_bids, declared_auctioneers, token_lines in Hb, Ha.
    unfold auctioneers_of. now rewrite Hb, Ha. }
  unfold encode, parse_input_stream. now rewrite Hloop.
Qed.

End Reductions.

(** ** The statements on sample inputs *)

Lemma insertion_order_perm (A : Type) (l : list A) :
  Permutation (insertion_order A l) l.
Proof. apply Permutation_refl. Qed.

Lemma sample_encode :
  encode 0 insertion_order (Auction_init sample_solver false) sample_stream
  = Ok sample_auction.
Proof. vm_compute. reflexivity. Qed.

Lemma sample_models (m : list Z) :
  complete sample_formula m = true ->
  (m = [1; 2] \/ m = [1; -2]) \/ (m = [-1; 2] \/ m = [-1; -2]).
Proof.
  intros Hc. apply complete_abs in Hc.
  change (Py.range 1 (num_vars sample_formula + 1)) with [1; 2] in Hc.
  destruct m as [|a [|b [|c r]]]; try discriminate.
  cbn [map] in Hc. inversion Hc as [[Ha Hb]].
  assert (Ha' : a = 1 \/ a = -1) by lia.
  assert (Hb' : b = 2 \/ b = -2) by lia.
  destruct Ha', Hb'; subst; auto.
Qed.

Lemma sample_port : SolverPort sample_formula (Ok (5, [1; -2])).
Proof.
  cbn [SolverPort]. repeat split.
  intros m Hc Hs.
  destruct (sample_models m Hc) as [[-> | ->] | [-> | ->]];
    vm_compute in Hs; try discriminate; vm_compute; discriminate.
Qed.

Lemma benefit_is_revenue_witness :
  encode 0 insertion_order (Auction_init sample_solver false) sample_stream
  = Ok sample_auction /\
  SolverPort (formula sample_auction) (Ok (5, [1; -2])) /\
  Forall (fun b => bid_price b = Ok 0 -> 0 = 0) (declared_bids sample_stream) /\
  sum_prices sample_auction (positive_literals [1; -2])
  = Ok (benefit sample_auction 5) /\
  exists bid,
    Py.item (declared_bids sample_stream) (1 - 1) = Ok bid /\
    price_of sample_auction 1 = bid_price bid /\
    bid_line sample_auction 1 = Ok (report_line bid).
Proof.
  assert (Hnt : Forall (fun b => bid_price b = Ok 0 -> 0 = 0)
                  (declared_bids sample_stream)).
  { change (declared_bids sample_stream)
      with [["A"; "g1"; "10"]; ["B"; "g1"; "5"]].
    repeat constructor. }
  split; [exact sample_encode|]. split; [exact sample_port|].
  split; [exact Hnt|].
  destruct (benefit_is_revenue 0 insertion_order insertion_order_perm
              sample_solver false sample_stream sample_auction 5 [1; -2]
              sample_encode sample_port Hnt)
    as (_ & _ & _ & Hsum & Hrow & _).
  split; [exact Hsum|].
  exact (Hrow 1 (or_introl eq_refl)).
Defined.

Lemma incompatibility_clauses_witness :
  encode 0 insertion_order (Auction_init sample_solver false) sample_stream
  = Ok sample_auction /\
  exists hs,
    NoDup hs /\
    hard (formula sample_auction) =
      hs ++ map (agent_clause sample_auction) (auctioneers sample_auction).
Proof.
  split; [exact sample_encode|].
  exact (proj2 (incompatibility_clauses 0 insertion_order insertion_order_perm
                  sample_solver false sample_stream sample_auction
                  sample_encode)).
Defined.

Lemma duplicate_bids_clause_witness :
  encode 0 insertion_order (Auction_init sample_solver false)
    ["a A"; "A g1 10"; "A g1 10"] = Ok duplicate_auction /\
  agent_clause duplicate_auction "A" = [1; 1].
Proof.
  assert (H : encode 0 insertion_order (Auction_init sample_solver false)
                ["a A"; "A g1 10"; "A g1 10"] = Ok duplicate_auction)
    by (vm_compute; reflexivity).
  split; [exact H|].
  exact (proj1 (proj2 (proj2
    (duplicate_bids_clause 0 insertion_order insertion_order_perm
       sample_solver duplicate_auction H)))).
Defined.

Lemma max_clique_empty_graph_witness :
  (forall (A : Type) (l : list A), Permutation (insertion_order A l) l) /\
  max_clique_formula 0 (mkGraph [] 0) = Raise UnboundLocalError.
Proof.
  split; [exact insertion_order_perm|].
  exact (proj1 (proj2 (proj2
    (max_clique_empty_graph 0 insertion_order insertion_order_perm)))).
Defined.

Lemma min_vertex_cover_spec_witness :
  well_formed triangle = true /\ 0 <> 1 /\
  exists f,
    min_vertex_cover_formula 0 triangle = Ok f /\
    num_vars f = Z.max 0 (n_nodes triangle) /\
    soft f = map (fun node => ([- node], 1)) (Py.range 1 (n_nodes triangle + 1)) /\
    hard f = edges triangle /\
    forall (slv : Solver) (opt : Z) (model : list Z),
      slv f = Ok (opt, model) ->
      exists cover,
        min_vertex_cover 0 triangle slv = Ok cover /\
        cover = filter (fun n => 0 <? n) model /\
        forall v, In v cover <-> In v model /\ 0 < v.
Proof.
  split; [reflexivity|]. split; [discriminate|].
  apply (min_vertex_cover_spec 0 triangle); [reflexivity | discriminate].
Defined.

Lemma max_cut_spec_witness :
  well_formed triangle = true /\ 0 <> 1 /\
  exists f,
    max_cut_formula 0 triangle = Ok f /\ hard f = [] /\
    soft f = flat_map edge_clauses (edges triangle).
Proof.
  split; [reflexivity|]. split; [discriminate|].
  destruct (max_cut_spec 0 triangle eq_refl ltac:(discriminate))
    as (f & Hf & _ & Hh & Hs & _).
  exists f. auto.
Defined.

Lemma literals_in_range_witness :
  constructed 0 insertion_order sample_formula /\
  formula_in_range sample_formula.
Proof.
  assert (H : constructed 0 insertion_order sample_formula).
  { left. exists sample_solver, false, sample_stream, sample_auction.
    split; [exact sample_encode | reflexivity]. }
  split; [exact H|].
  exact (literals_in_range 0 insertion_order insertion_order_perm
           sample_formula H).
Defined.


Lemma idle_encode :
  encode 0 insertion_order (Auction_init sample_solver false) idle_stream
  = Ok idle_auction.
Proof. vm_compute. reflexivity. Qed.

Lemma idle_no_bid (bid : list string) :
  In bid (declared_bids idle_stream) -> hd_error bid <> Some "B".
Proof.
  change (declared_bids idle_stream) with [["A"; "g1"; "10"]].
  intros [<- | []]. discriminate.
Qed.

Lemma missing_auctioneer_infeasible_witness :
  encode 0 insertion_order (Auction_init sample_solver false) idle_stream
  = Ok idle_auction /\
  In "B" (declared_auctioneers idle_stream) /\
  (forall bid, In bid (declared_bids idle_stream) -> hd_error bid <> Some "B") /\
  In [] (hard (formula idle_auction)) /\
  forall r, SolverPort (formula idle_auction) r -> r = Raise Infeasible.
Proof.
  assert (Hin : In "B" (declared_auctioneers idle_stream))
    by (vm_compute; auto).
  split; [exact idle_encode|]. split; [exact Hin|].
  split; [exact idle_no_bid|].
  destruct (missing_auctioneer_infeasible 0 insertion_order
              insertion_order_perm sample_solver idle_stream idle_auction "B"
              idle_encode Hin idle_no_bid) as (_ & H1 & _ & H2 & _).
  split; [exact H1 | exact H2].
Defined.

Lemma loop_read :
  read_stream insertion_order Graph_init loop_stream = Ok (loop_graph, []).
Proof. vm_compute. reflexivity. Qed.

Lemma self_loop_breaks_operations_witness :
  read_stream insertion_order Graph_init loop_stream = Ok (loop_graph, []) /\
  In ["e"; "2"; "2"] (token_lines loop_stream) /\
  "e" <> "p" /\ "e" <> "c" /\
  (exists v, Py.int "2" = Ok v /\ In [v] (edges loop_graph)) /\
  forall slv, max_clique 0 loop_graph slv = Raise ValueError.
Proof.
  assert (Hin : In ["e"; "2"; "2"] (token_lines loop_stream))
    by (vm_compute; auto).
  assert (Hp : "e" <> "p") by discriminate.
  assert (Hc : "e" <> "c") by discriminate.
  split; [exact loop_read|]. split; [exact Hin|].
  split; [exact Hp|]. split; [exact Hc|].
  destruct (self_loop_breaks_operations 0 insertion_order insertion_order_perm
              Graph_init loop_graph [] loop_stream "e" "2" [] loop_read Hin
              Hp Hc) as (H1 & _ & H3).
  split; [exact H1|].
  intros slv. destruct (H3 eq_refl slv) as (_ & _ & H & _).
  apply H. cbn. lia.
Defined.

(** ** Where the specification departs from the code *)

(** C6: on the single edge (1,2) the clauses of the edge cost 0, not 1,
    when the endpoints differ, and 1, not 2, when they agree, whatever
    the sentinel weight is. *)
Lemma max_cut_cost_counterexample :
  well_formed (mkGraph [[1; 2]] 2) = true /\
  ~ (exists T f,
       max_cut_formula T (mkGraph [[1; 2]] 2) = Ok f /\
       (cost [1; -2] f = 1 \/ cost [1; 2] f = 2)) /\
  (exists f,
      max_cut_formula 0 (mkGraph [[1; 2]] 2) = Ok f /\
      complete f [1; -2] = true /\ complete f [1; 2] = true /\
      cost [1; -2] f = 0 /\ cost [1; 2] f = 1).
Proof.
  split; [reflexivity|]. split.
  - intros (T & f & H & Hc).
    change (max_cut_formula T (mkGraph [[1; 2]] 2))
      with (Ok (add_clause T [-1; -2] 1
                  (add_clause T [1; 2] 1 (mkFormula 2 [] [])))) in H.
    injection H as <-. unfold add_clause in Hc.
    destruct (1 =? T); vm_compute in Hc; destruct Hc; discriminate.
  - eexists. split; [vm_compute; reflexivity|].
    repeat split.
Qed.

(** C10: a self-loop in a graph declared without nodes makes
    [max_clique] stop on the unbound name [n], before any edge is
    unpacked; and a self-loop line whose node token is no integer makes
    the reading itself fail, so that no tuple is stored. *)
Lemma self_loop_counterexample :
  read_stream insertion_order Graph_init ["p edge 0 1"; "e 1 1"]
  = Ok (mkGraph [[1]] 0, []) /\
  max_clique_formula 0 (mkGraph [[1]] 0) = Raise UnboundLocalError /\
  max_clique 0 (mkGraph [[1]] 0) sample_solver <> Raise ValueError /\
  read_stream insertion_order Graph_init ["p edge 2 1"; "e x x"]
  = Raise ValueError.
Proof.
  repeat split; try (vm_compute; reflexivity).
  vm_compute. discriminate.
Qed.

(** ** Further sample runs *)

Lemma auctioneer_clauses_distinct_bids_witness :
  encode 0 insertion_order (Auction_init sample_solver false) sample_stream
  = Ok sample_auction /\
  NoDup (declared_bids sample_stream) /\
  exists hs,
    hard (formula sample_auction) =
      hs ++ map (bids_of (declared_bids sample_stream))
              (declared_auctioneers sample_stream).
Proof.
  assert (Hnd : NoDup (declared_bids sample_stream)).
  { change (declared_bids sample_stream)
      with [["A"; "g1"; "10"]; ["B"; "g1"; "5"]].
    repeat constructor; cbn; intuition discriminate. }
  split; [exact sample_encode|]. split; [exact Hnd|].
  exact (proj1 (auctioneer_clauses_distinct_bids 0 insertion_order
                  insertion_order_perm sample_solver sample_stream
                  sample_auction sample_encode Hnd)).
Defined.

Lemma max_clique_spec_witness :
  well_formed triangle = true /\ 1 <= n_nodes triangle /\ 0 <> 1 /\
  exists f,
    max_clique_formula 0 triangle = Ok f /\ hard f = non_edge_clauses triangle.
Proof.
  split; [reflexivity|]. split; [cbn; lia|]. split; [discriminate|].
  destruct (max_clique_spec 0 triangle eq_refl ltac:(cbn; lia)
              ltac:(discriminate)) as (f & Hf & _ & _ & Hh & _).
  exists f. auto.
Defined.

(** The scenarios of the specification. *)
Example scenario_auction :
  parse_input_stream 0 insertion_order (Auction_init sample_solver false)
    sample_stream = Ok (sample_auction, (5, [1; -2])) /\
  print_solution sample_auction (5, [1; -2])
  = (["Benefit: 10"; "A: g1 (Price 10)"; "Valid solution"], None).
Proof. split; vm_compute; reflexivity. Qed.

Example scenario_triangle :
  min_vertex_cover_formula 0 triangle
  = Ok (mkFormula 3 [[1; 2]; [2; 3]; [3; 1]]
          [([-1], 1); ([-2], 1); ([-3], 1)]) /\
  max_clique_formula 0 triangle
  = Ok (mkFormula 3 [] [([1], 1); ([2], 1); ([3], 1)]) /\
  max_cut_formula 0 triangle
  = Ok (mkFormula 3 []
          [([1; 2], 1); ([-1; -2], 1); ([2; 3], 1); ([-2; -3], 1);
           ([3; 1], 1); ([-3; -1], 1)]).
Proof. repeat split; vm_compute; reflexivity. Qed.

Example scenario_no_edges :
  max_clique_formula 0 (mkGraph [] 4)
  = Ok (mkFormula 4
          [[-1; -2]; [-1; -3]; [-1; -4]; [-2; -3]; [-2; -4]; [-3; -4]]
          [([1], 1); ([2], 1); ([3], 1); ([4], 1)]).
Proof. vm_compute. reflexivity. Qed.

(** The clauses of the auctioneers are appended as they come: an
    auctioneer declared twice gets its clause twice. *)
Example auctioneer_clauses_repeat :
  exists self,
    encode 0 insertion_order (Auction_init sample_solver false)
      ["a A A"; "A g1 10"] = Ok self /\
    hard (formula self) = [[1]; [1]].
Proof. eexists. split; vm_compute; reflexivity. Qed.

(** ** Independence of the iteration order of the set of goods *)

Lemma agent_clause_auctions (s1 s2 : Auction) (a : string) :
  auctions s1 = auctions s2 -> agent_clause s1 a = agent_clause s2 a.
Proof. intros H. unfold agent_clause. now rewrite H. Qed.

Lemma sat_hard_same (m : list Z) (f1 f2 : WCNFFormula) :
  (forall c, In c (hard f1) <-> In c (hard f2)) ->
  sat_hard m f1 = sat_hard m f2.
Proof.
  intros H. unfold sat_hard.
  destruct (forallb (clause_sat m) (hard f2)) eqn:E2.
  - apply forallb_forall. intros c Hc. rewrite forallb_forall in E2.
    apply E2. now apply H.
  - destruct (forallb (clause_sat m) (hard f1)) eqn:E1; auto.
    rewrite <- E2. symmetry. apply forallb_forall. intros c Hc.
    rewrite forallb_forall in E1. apply E1. now apply H.
Qed.

(** X12: [manage_incompatibilities] walks a Python set, whose order is not
    fixed.  Whatever the order, reading succeeds on the same inputs and
    the formula has the same variables, the same soft clauses and the
    same set of hard clauses, hence the same feasible assignments, the
    same costs and the same optimum. *)
Theorem formula_independent_of_set_order (T : Z)
    (o1 o2 : forall A : Type, list A -> list A) (slv : Solver) (fl : bool)
    (stream : list string) (s1 : Auction) :
  (forall A l, Permutation (o1 A l) l) ->
  (forall A l, Permutation (o2 A l) l) ->
  encode T o1 (Auction_init slv fl) stream = Ok s1 ->
  exists s2,
    encode T o2 (Auction_init slv fl) stream = Ok s2 /\
    auctions s2 = auctions s1 /\
    auctioneers s2 = auctioneers s1 /\
    num_vars (formula s2) = num_vars (formula s1) /\
    soft (formula s2) = soft (formula s1) /\
    (forall c, In c (hard (formula s1)) <-> In c (hard (formula s2))) /\
    (forall m, complete (formula s1) m = complete (formula s2) m /\
               sat_hard m (formula s1) = sat_hard m (formula s2) /\
               cost m (formula s1) = cost m (formula s2)) /\
    forall opt1 m1 opt2 m2,
      SolverPort (formula s1) (Ok (opt1, m1)) ->
      SolverPort (formula s2) (Ok (opt2, m2)) ->
      opt1 = opt2 /\ benefit s1 opt1 = benefit s2 opt2.
Proof.
  intros Hp1 Hp2 Henc1.
  destruct (encode_spec T o1 Hp1 _ _ _ _ Henc1) as (self1 & Hread & Hinv & _).
  destruct (encode_after_reading T o2 Hp2 self1 Hinv) as [s2 Hs2].
  assert (Henc2 : encode T o2 (Auction_init slv fl) stream = Ok s2).
  { unfold encode. rewrite Hread. cbn [bind]. exact Hs2. }
  exists s2. split; [exact Henc2|].
  destruct (encode_fields T o1 Hp1 _ _ _ _ Henc1)
    as (_ & _ & Hb1 & Ha1 & Hn1 & Hs1 & _).
  destruct (encode_fields T o2 Hp2 _ _ _ _ Henc2)
    as (_ & _ & Hb2 & Ha2 & Hn2 & Hs2' & _).
  destruct (encode_parts T o1 Hp1 _ _ _ _ Henc1)
    as (_ & x1 & Hh1 & Hx1 & Hadd1).
  destruct (encode_parts T o2 Hp2 _ _ _ _ Henc2)
    as (_ & x2 & Hh2 & Hx2 & Hadd2).
  assert (Hb : auctions s2 = auctions s1) by congruence.
  assert (Ha : auctioneers s2 = auctioneers s1) by congruence.
  assert (Hn : num_vars (formula s2) = num_vars (formula s1)) by congruence.
  assert (Hs : soft (formula s2) = soft (formula s1)) by congruence.
  assert (Htail : (if fl then [] else map (agent_clause s1) (auctioneers s1))
                  = (if fl then []
                     else map (agent_clause s2) (auctioneers s2))).
  { destruct fl; auto. rewrite Ha. apply map_ext. intros a.
    now apply agent_clause_auctions. }
  assert (Hfront : forall c,
            In c (hard_of T 1 (declared_bids stream) ++ x1) <->
            In c (hard_of T 1 (declared_bids stream) ++ x2)).
  { rewrite Forall_forall in Hx1, Hx2. intros c. split; intros Hc.
    - apply in_app_iff in Hc as [Hc | Hc]; [apply in_app_iff; now left|].
      destruct (Hx1 c Hc) as (g & v1 & v2 & -> & H1 & H2 & Hlt).
      now apply (Hadd2 g).
    - apply in_app_iff in Hc as [Hc | Hc]; [apply in_app_iff; now left|].
      destruct (Hx2 c Hc) as (g & v1 & v2 & -> & H1 & H2 & Hlt).
      now apply (Hadd1 g). }
  assert (Hhard : forall c, In c (hard (formula s1)) <->
                            In c (hard (formula s2))).
  { intros c. rewrite Hh1, Hh2, <- Htail.
    rewrite (in_app_iff (hard_of T 1 (declared_bids stream) ++ x1)),
      (in_app_iff (hard_of T 1 (declared_bids stream) ++ x2)), (Hfront c).
    reflexivity. }
  assert (Hsame : forall m, complete (formula s1) m = complete (formula s2) m /\
                            sat_hard m (formula s1) = sat_hard m (formula s2) /\
                            cost m (formula s1) = cost m (formula s2)).
  { intros m. split; [|split].
    - unfold complete. now rewrite Hn.
    - now apply sat_hard_same.
    - unfold cost. now rewrite Hs. }
  split; [exact Hb|]. split; [exact Ha|]. split; [exact Hn|].
  split; [exact Hs|]. split; [exact Hhard|]. split; [exact Hsame|].
  intros opt1 m1 opt2 m2 (Hc1 & Hsat1 & Ho1 & Hmin1) (Hc2 & Hsat2 & Ho2 & Hmin2).
  assert (Hopt : opt1 = opt2).
  { destruct (Hsame m1) as (E1 & E2 & E3).
    destruct (Hsame m2) as (F1 & F2 & F3).
    pose proof (Hmin1 m2 ltac:(congruence) ltac:(congruence)).
    pose proof (Hmin2 m1 ltac:(congruence) ltac:(congruence)).
    lia. }
  split; [exact Hopt|].
  unfold benefit, sum_soft_weights. now rewrite Hs, Hopt.
Qed.

(** ** Sample runs of the further properties *)

Lemma models_3 (f : WCNFFormula) (m : list Z) :
  num_vars f = 3 -> complete f m = true ->
  In m [[1; 2; 3]; [1; 2; -3]; [1; -2; 3]; [1; -2; -3];
        [-1; 2; 3]; [-1; 2; -3]; [-1; -2; 3]; [-1; -2; -3]].
Proof.
  intros Hn Hc. apply complete_abs in Hc. rewrite Hn in Hc.
  change (Py.range 1 (3 + 1)) with [1; 2; 3] in Hc.
  destruct m as [|a [|b [|c [|d r]]]]; try discriminate.
  cbn [map] in Hc. inversion Hc as [[Ha Hb Hc']].
  assert (Ha' : a = 1 \/ a = -1) by lia.
  assert (Hb' : b = 2 \/ b = -2) by lia.
  assert (Hc'' : c = 3 \/ c = -3) by lia.
  destruct Ha', Hb', Hc''; subst; cbn; auto 10.
Qed.

Lemma triangle_cover_port :
  SolverPort triangle_cover_formula (Ok (2, [1; 2; -3])).
Proof.
  cbn [SolverPort]. repeat split.
  intros m Hc Hs. apply models_3 in Hc; [|reflexivity].
  cbn [In] in Hc.
  repeat (destruct Hc as [<- | Hc]; [vm_compute in Hs; try discriminate Hs;
                                     vm_compute; discriminate|]).
  contradiction.
Qed.

Lemma triangle_clique_port :
  SolverPort triangle_clique_formula (Ok (0, [1; 2; 3])).
Proof.
  cbn [SolverPort]. repeat split.
  intros m Hc Hs. apply models_3 in Hc; [|reflexivity].
  cbn [In] in Hc.
  repeat (destruct Hc as [<- | Hc]; [vm_compute; discriminate|]).
  contradiction.
Qed.

Lemma triangle_cut_port :
  SolverPort triangle_cut_formula (Ok (1, [1; -2; -3])).
Proof.
  cbn [SolverPort]. repeat split.
  intros m Hc Hs. apply models_3 in Hc; [|reflexivity].
  cbn [In] in Hc.
  repeat (destruct Hc as [<- | Hc]; [vm_compute; discriminate|]).
  contradiction.
Qed.

Lemma free_encode :
  encode 0 insertion_order (Auction_init sample_solver true) sample_stream
  = Ok free_auction.
Proof. vm_compute. reflexivity. Qed.

Lemma sample_claims :
  claims (declared_bids sample_stream) "g1" 1 /\
  claims (declared_bids sample_stream) "g1" 2.
Proof.
  split; (split; [lia|]).
  - exists ["A"; "g1"; "10"]. split; [reflexivity | left; reflexivity].
  - exists ["B"; "g1"; "5"]. split; [reflexivity | left; reflexivity].
Qed.

Lemma encode_accepts_integer_prices_witness :
  prices_ok sample_stream = true /\
  (exists self,
      encode 0 insertion_order (Auction_init sample_solver false) sample_stream
      = Ok self) /\
  prices_ok ["A g1 x"] = false /\
  parse_input_stream 0 insertion_order (Auction_init sample_solver false)
    ["A g1 x"] = Raise ValueError.
Proof.
  split; [reflexivity|]. split.
  - exact (proj1 (encode_accepts_integer_prices 0 insertion_order
                    insertion_order_perm sample_solver false sample_stream)
             eq_refl).
  - split; [reflexivity|].
    exact (proj2 (proj2 (encode_accepts_integer_prices 0 insertion_order
                           insertion_order_perm sample_solver false
                           ["A g1 x"]) eq_refl)).
Defined.

Lemma hard_clauses_exact_witness :
  encode 0 insertion_order (Auction_init sample_solver false) sample_stream
  = Ok sample_auction /\
  forall c,
    In c (hard (formula sample_auction)) <->
    (exists u bid, c = [u] /\ 1 <= u /\
                   Py.item (declared_bids sample_stream) (u - 1) = Ok bid /\
                   bid_price bid = Ok 0) \/
    (exists g v1 v2, c = [- v1; - v2] /\
                     claims (declared_bids sample_stream) g v1 /\
                     claims (declared_bids sample_stream) g v2 /\ v1 < v2) \/
    (false = false /\
     exists a, In a (declared_auctioneers sample_stream) /\
               c = agent_clause sample_auction a).
Proof.
  split; [exact sample_encode|].
  exact (hard_clauses_exact 0 insertion_order insertion_order_perm
           sample_solver false sample_stream sample_auction sample_encode).
Defined.

Lemma bids_become_soft_clauses_witness :
  encode 0 insertion_order (Auction_init sample_solver false) sample_stream
  = Ok sample_auction /\
  Forall (fun b => bid_price b <> Ok 0) (declared_bids sample_stream) /\
  sum_soft_weights (formula sample_auction)
  = zsum (map price_or_0 (declared_bids sample_stream)).
Proof.
  assert (Hnt : Forall (fun b => bid_price b <> Ok 0)
                  (declared_bids sample_stream)).
  { change (declared_bids sample_stream)
      with [["A"; "g1"; "10"]; ["B"; "g1"; "5"]].
    repeat constructor; discriminate. }
  split; [exact sample_encode|]. split; [exact Hnt|].
  exact (proj2 (proj2 (proj2 (proj2 (proj2
    (bids_become_soft_clauses 0 insertion_order insertion_order_perm
       sample_solver false sample_stream sample_auction sample_encode)))) Hnt)).
Defined.

Lemma winners_share_no_good_witness :
  encode 0 insertion_order (Auction_init sample_solver false) sample_stream
  = Ok sample_auction /\
  complete (formula sample_auction) [1; -2] = true /\
  sat_hard [1; -2] (formula sample_auction) = true /\
  claims (declared_bids sample_stream) "g1" 1 /\
  claims (declared_bids sample_stream) "g1" 2 /\
  1 <> 2 /\
  ~ (In 1 (positive_literals [1; -2]) /\ In 2 (positive_literals [1; -2])).
Proof.
  split; [exact sample_encode|]. split; [reflexivity|]. split; [reflexivity|].
  split; [exact (proj1 sample_claims)|]. split; [exact (proj2 sample_claims)|].
  split; [discriminate|].
  exact (winners_share_no_good 0 insertion_order insertion_order_perm
           sample_solver false sample_stream sample_auction [1; -2] "g1" 1 2
           sample_encode eq_refl eq_refl (proj1 sample_claims)
           (proj2 sample_claims) ltac:(discriminate)).
Defined.

Lemma benefit_is_maximal_witness :
  encode 0 insertion_order (Auction_init sample_solver false) sample_stream
  = Ok sample_auction /\
  SolverPort (formula sample_auction) (Ok (5, [1; -2])) /\
  Forall (fun b => bid_price b = Ok 0 -> 0 = 0) (declared_bids sample_stream) /\
  complete (formula sample_auction) [1; -2] = true /\
  sat_hard [1; -2] (formula sample_auction) = true /\
  exists revenue,
    sum_prices sample_auction (positive_literals [1; -2]) = Ok revenue /\
    revenue <= benefit sample_auction 5.
Proof.
  assert (Hnt : Forall (fun b => bid_price b = Ok 0 -> 0 = 0)
                  (declared_bids sample_stream)).
  { change (declared_bids sample_stream)
      with [["A"; "g1"; "10"]; ["B"; "g1"; "5"]].
    repeat constructor. }
  split; [exact sample_encode|]. split; [exact sample_port|].
  split; [exact Hnt|]. split; [reflexivity|]. split; [reflexivity|].
  exact (proj1 (benefit_is_maximal 0 insertion_order insertion_order_perm
                  sample_solver false sample_stream sample_auction 5 [1; -2]
                  [1; -2] sample_encode sample_port Hnt eq_refl eq_refl)).
Defined.

Lemma print_solution_lookup_witness :
  encode 0 insertion_order (Auction_init sample_solver false) sample_stream
  = Ok sample_auction /\
  snd (print_solution sample_auction (5, [1; 3])) = Some IndexError /\
  hd_error (fst (print_solution sample_auction (5, [1; 3])))
  = Some ("Benefit: " ++ Py.str (benefit sample_auction 5))%string.
Proof.
  split; [exact sample_encode|].
  destruct (print_solution_lookup 0 insertion_order insertion_order_perm
              sample_solver false sample_stream sample_auction 5 [1; 3]
              sample_encode) as (Hexn & _ & Hhead & _).
  split; [exact Hexn | exact Hhead].
Defined.

Lemma solver_answer_reported_valid_witness :
  encode 0 insertion_order (Auction_init sample_solver false) sample_stream
  = Ok sample_auction /\
  SolverPort (formula sample_auction) (Ok (5, [1; -2])) /\
  Forall (fun b => 0 <= price_or_0 b) (declared_bids sample_stream) /\
  0 <= benefit sample_auction 5 <= sum_soft_weights (formula sample_auction).
Proof.
  assert (Hpos : Forall (fun b => 0 <= price_or_0 b)
                   (declared_bids sample_stream)).
  { change (declared_bids sample_stream)
      with [["A"; "g1"; "10"]; ["B"; "g1"; "5"]].
    repeat constructor; discriminate. }
  split; [exact sample_encode|]. split; [exact sample_port|].
  split; [exact Hpos|].
  exact (proj1 (solver_answer_reported_valid 0 insertion_order
                  insertion_order_perm sample_solver false sample_stream
                  sample_auction 5 [1; -2] sample_encode sample_port Hpos)).
Defined.

Lemma every_auctioneer_wins_witness :
  encode 0 insertion_order (Auction_init sample_solver false) sample_stream
  = Ok sample_auction /\
  sat_hard [1; -2] (formula sample_auction) = true /\
  In "A" (declared_auctioneers sample_stream) /\
  exists v bid,
    In v (positive_literals [1; -2]) /\
    Py.item (declared_bids sample_stream) (v - 1) = Ok bid /\
    hd_error bid = Some "A".
Proof.
  assert (Ha : In "A" (declared_auctioneers sample_stream))
    by (left; reflexivity).
  split; [exact sample_encode|]. split; [reflexivity|]. split; [exact Ha|].
  exact (every_auctioneer_wins 0 insertion_order insertion_order_perm
           sample_solver sample_stream sample_auction [1; -2] "A"
           sample_encode eq_refl Ha).
Defined.

Lemma min_win_extends_free_mode_witness :
  encode 0 insertion_order (Auction_init sample_solver true) sample_stream
  = Ok free_auction /\
  encode 0 insertion_order (Auction_init sample_solver false) sample_stream
  = Ok sample_auction /\
  hard (formula sample_auction) =
    hard (formula free_auction)
    ++ map (agent_clause sample_auction) (declared_auctioneers sample_stream).
Proof.
  split; [exact free_encode|]. split; [exact sample_encode|].
  exact (proj1 (proj2 (proj2
    (min_win_extends_free_mode 0 insertion_order insertion_order_perm
       sample_solver sample_solver sample_stream free_auction sample_auction
       free_encode sample_encode)))).
Defined.

Lemma min_vertex_cover_minimum_witness :
  well_formed triangle = true /\ 0 <> 1 /\
  min_vertex_cover_formula 0 triangle = Ok triangle_cover_formula /\
  SolverPort triangle_cover_formula (Ok (2, [1; 2; -3])) /\
  min_vertex_cover 0 triangle (fun _ => Ok (2, [1; 2; -3])) = Ok [1; 2] /\
  forall other,
    (forall a b, In [a; b] (edges triangle) -> In a other \/ In b other) ->
    (2 <= List.length other)%nat.
Proof.
  split; [reflexivity|]. split; [discriminate|]. split; [reflexivity|].
  split; [exact triangle_cover_port|].
  destruct (min_vertex_cover_minimum 0 triangle (fun _ => Ok (2, [1; 2; -3]))
              triangle_cover_formula 2 [1; 2; -3] eq_refl
              ltac:(discriminate) eq_refl eq_refl triangle_cover_port)
    as (cover & Hrun & _ & _ & _ & Hmin).
  change (Ok [1; 2] = Ok cover) in Hrun. injection Hrun as <-.
  split; [reflexivity | exact Hmin].
Defined.

Lemma max_clique_maximum_witness :
  well_formed triangle = true /\ 1 <= n_nodes triangle /\ 0 <> 1 /\
  max_clique_formula 0 triangle = Ok triangle_clique_formula /\
  SolverPort triangle_clique_formula (Ok (0, [1; 2; 3])) /\
  max_clique 0 triangle (fun _ => Ok (0, [1; 2; 3])) = Ok [1; 2; 3] /\
  forall a b, In a [1; 2; 3] -> In b [1; 2; 3] -> a <> b ->
              adjacent triangle a b = true.
Proof.
  assert (Hn : 1 <= n_nodes triangle) by (cbn; lia).
  split; [reflexivity|]. split; [exact Hn|]. split; [discriminate|].
  split; [reflexivity|]. split; [exact triangle_clique_port|].
  destruct (max_clique_maximum 0 triangle (fun _ => Ok (0, [1; 2; 3]))
              triangle_clique_formula 0 [1; 2; 3] eq_refl Hn
              ltac:(discriminate) eq_refl eq_refl triangle_clique_port)
    as (clique & Hrun & _ & _ & Hadj & _).
  change (Ok [1; 2; 3] = Ok clique) in Hrun. injection Hrun as <-.
  split; [reflexivity | exact Hadj].
Defined.

Lemma max_cut_maximum_witness :
  well_formed triangle = true /\ 0 <> 1 /\
  max_cut_formula 0 triangle = Ok triangle_cut_formula /\
  SolverPort triangle_cut_formula (Ok (1, [1; -2; -3])) /\
  max_cut 0 triangle (fun _ => Ok (1, [1; -2; -3])) = Ok [1] /\
  forall side : Z -> bool,
    (List.length (cut_edges side triangle) <= 2)%nat.
Proof.
  split; [reflexivity|]. split; [discriminate|]. split; [reflexivity|].
  split; [exact triangle_cut_port|].
  destruct (max_cut_maximum 0 triangle (fun _ => Ok (1, [1; -2; -3]))
              triangle_cut_formula 1 [1; -2; -3] eq_refl
              ltac:(discriminate) eq_refl eq_refl triangle_cut_port)
    as (part & Hrun & _ & _ & _ & Hmax).
  change (Ok [1] = Ok part) in Hrun. injection Hrun as <-.
  split; [reflexivity | exact Hmax].
Defined.

Lemma read_stream_accepts_witness :
  forallb line_ok (token_lines loop_stream) = true /\
  (exists g out, read_stream insertion_order Graph_init loop_stream
                 = Ok (g, out)) /\
  forallb line_ok (token_lines ["e 1"]) = false /\
  (read_stream insertion_order Graph_init ["e 1"] = Raise IndexError \/
   read_stream insertion_order Graph_init ["e 1"] = Raise ValueError).
Proof.
  split; [reflexivity|]. split.
  - exact (proj1 (read_stream_accepts insertion_order Graph_init loop_stream)
             eq_refl).
  - split; [reflexivity|].
    exact (proj2 (read_stream_accepts insertion_order Graph_init ["e 1"])
             eq_refl).
Defined.

Lemma read_stream_edges_witness :
  read_stream insertion_order Graph_init loop_stream = Ok (loop_graph, []) /\
  NoDup (edges loop_graph) /\
  forall e1 e2, In e1 (edges loop_graph) -> In e2 (edges loop_graph) ->
                Permutation e1 e2 -> e1 = e2.
Proof.
  split; [exact loop_read|].
  exact (proj2 (proj2 (read_stream_edges insertion_order insertion_order_perm
                         Graph_init loop_graph [] loop_stream loop_read))).
Defined.

Lemma read_stream_problem_line_witness :
  read_stream insertion_order Graph_init loop_stream = Ok (loop_graph, []) /\
  token_lines loop_stream
  = [] ++ ["p"; "edge"; "2"; "2"] :: [["e"; "1"; "2"]; ["e"; "2"; "2"]] /\
  is_problem_line ["p"; "edge"; "2"; "2"] = true /\
  forallb (fun l => negb (is_problem_line l))
    [["e"; "1"; "2"]; ["e"; "2"; "2"]] = true /\
  exists n m,
    declared_counts ["p"; "edge"; "2"; "2"] = Some (n, m) /\
    n_nodes loop_graph = n /\
    [] = if m =? Z.of_nat (List.length (edges loop_graph)) then []
         else ["Warning incorrect number of edges"].
Proof.
  split; [exact loop_read|]. split; [reflexivity|]. split; [reflexivity|].
  split; [reflexivity|].
  exact (proj2 (read_stream_problem_line insertion_order insertion_order_perm
                  Graph_init loop_graph [] loop_stream loop_read)
           [] ["p"; "edge"; "2"; "2"] [["e"; "1"; "2"]; ["e"; "2"; "2"]]
           eq_refl eq_refl eq_refl).
Defined.

Lemma zero_graph_indexable (e : list Z) (a : Z) :
  In e (edges zero_graph) -> In a e -> indexable (n_nodes zero_graph) a = true.
Proof.
  intros [<- | []] [<- | [<- | []]]; reflexivity.
Qed.

Lemma negative_endpoint_wraps_witness :
  0 <= n_nodes zero_graph /\
  (forall e a, In e (edges zero_graph) -> In a e ->
               indexable (n_nodes zero_graph) a = true) /\
  renumber zero_graph = mkGraph [[3; 1]] 3 /\
  min_vertex_cover_formula 0 zero_graph
  = min_vertex_cover_formula 0 (mkGraph [[3; 1]] 3).
Proof.
  assert (Hn : 0 <= n_nodes zero_graph) by (cbn; lia).
  split; [exact Hn|]. split; [exact zero_graph_indexable|].
  split; [reflexivity|].
  exact (proj1 (proj2 (negative_endpoint_wraps 0 zero_graph Hn
                         zero_graph_indexable))).
Defined.

Lemma far_graph_pairs (e : list Z) :
  In e (edges far_graph) -> exists a b, e = [a; b].
Proof. intros [<- | []]. eauto. Qed.

Lemma endpoint_out_of_range_raises_witness :
  0 <= n_nodes far_graph /\
  (forall e, In e (edges far_graph) -> exists a b, e = [a; b]) /\
  (exists a b, In [a; b] (edges far_graph) /\
               (indexable (n_nodes far_graph) a = false \/
                indexable (n_nodes far_graph) b = false)) /\
  min_vertex_cover 0 far_graph sample_solver = Raise IndexError /\
  max_cut 0 far_graph sample_solver = Raise IndexError.
Proof.
  assert (Hn : 0 <= n_nodes far_graph) by (cbn; lia).
  assert (Hbad : exists a b, In [a; b] (edges far_graph) /\
                             (indexable (n_nodes far_graph) a = false \/
                              indexable (n_nodes far_graph) b = false)).
  { exists 1, 4. split; [left; reflexivity | right; reflexivity]. }
  split; [exact Hn|]. split; [exact far_graph_pairs|]. split; [exact Hbad|].
  split.
  - exact (proj1 (endpoint_out_of_range_raises 0 far_graph sample_solver Hn
                    far_graph_pairs Hbad)).
  - exact (proj1 (proj2 (endpoint_out_of_range_raises 0 far_graph
                           sample_solver Hn far_graph_pairs Hbad))).
Defined.

Lemma reverse_order_perm (A : Type) (l : list A) : Permutation (rev l) l.
Proof. apply Permutation_sym, Permutation_rev. Qed.

Lemma formula_independent_of_set_order_witness :
  (forall A l, Permutation (insertion_order A l) l) /\
  (forall (A : Type) (l : list A), Permutation (rev l) l) /\
  encode 0 insertion_order (Auction_init sample_solver false) sample_stream
  = Ok sample_auction /\
  exists s2,
    encode 0 (fun A => @rev A) (Auction_init sample_solver false) sample_stream
    = Ok s2 /\
    soft (formula s2) = soft (formula sample_auction) /\
    forall c, In c (hard (formula sample_auction)) <-> In c (hard (formula s2)).
Proof.
  split; [exact insertion_order_perm|]. split; [exact reverse_order_perm|].
  split; [exact sample_encode|].
  destruct (formula_independent_of_set_order 0 insertion_order
              (fun A => @rev A) sample_solver false sample_stream
              sample_auction insertion_order_perm reverse_order_perm
              sample_encode)
    as (s2 & H1 & _ & _ & _ & H5 & H6 & _).
  exists s2. split; [exact H1|]. split; [exact H5 | exact H6].
Defined.

Lemma goods_lines_ignored_witness :
  declared_bids sample_stream = declared_bids ["A g1 10"; "B g1 5"; "a A"] /\
  declared_auctioneers sample_stream
  = declared_auctioneers ["A g1 10"; "B g1 5"; "a A"] /\
  encode 0 insertion_order (Auction_init sample_solver false) sample_stream
  = encode 0 insertion_order (Auction_init sample_solver false)
      ["A g1 10"; "B g1 5"; "a A"].
Proof.
  split; [reflexivity|]. split; [reflexivity|].
  exact (proj1 (goods_lines_ignored 0 insertion_order
                  (Auction_init sample_solver false) sample_stream
                  ["A g1 10"; "B g1 5"; "a A"] eq_refl eq_refl)).
Defined.
